(** * Patristics viewer: a shallow embedding of [app.js]

    The first part follows the source file section by section: strings and
    the regular expressions the code builds, the heat map scale, the category
    filter, the verse grouping of [renderVerseTable], the passage highlighter,
    the per-work cache, the era buckets of [renderBibleRefsByDate] and the
    generation counter of the visualisation tab.  The second part holds the
    predicates the statements use and a sample index, the third the proofs,
    one section for each component.

    Modelling conventions.
    - A JavaScript string is the list of its UTF-16 code units, a code unit a
      number of type [N].  [str] turns a literal into such a list.
    - Counts, years and ids are JSON integers; they are modelled by [Z] or [N]
      (JavaScript computes with them exactly below 2^53).
    - Module level variables ([_vizVersion], [workRefsCache], the DOM nodes the
      code writes to) are fields of explicit state records.
    - A suspended [await] is a pending task of a step relation; the outcome of
      the external [fetchJSON] is an argument of the continuation. *)

From Stdlib Require Import ZArith NArith QArith Ascii String DecimalString Lia.
From Stdlib Require Import Floats.SpecFloat.
From stdpp Require Import gmap strings list fin_maps sorting.

Local Open Scope nat_scope.

(** ** Strings *)

Abbreviation char := N (only parsing).
Abbreviation jsstring := (list N) (only parsing).

Definition cu (a : ascii) : char := N_of_ascii a.

Fixpoint str (s : string) : jsstring :=
  match s with
  | EmptyString => []
  | String a s' => cu a :: str s'
  end.

Definition NL : char := 10%N.

(** [text.slice(a, b)] and [text.slice(a)] for [0 <= a], [0 <= b]. *)
Definition slice (a b : nat) (t : jsstring) : jsstring := take (b - a) (drop a t).
Definition slice_from (a : nat) (t : jsstring) : jsstring := drop a t.

(** Character classes of ECMAScript regular expressions. *)
Definition is_digit (c : char) : bool := ((48 <=? c) && (c <=? 57))%N.
Definition is_upper (c : char) : bool := ((65 <=? c) && (c <=? 90))%N.
Definition is_lower (c : char) : bool := ((97 <=? c) && (c <=? 122))%N.

(** [\s]: WhiteSpace and LineTerminator code points. *)
Definition is_space (c : char) : bool :=
  ((9 <=? c) && (c <=? 13) || (c =? 32) || (c =? 160) || (c =? 5760)
   || (8192 <=? c) && (c <=? 8202) || (c =? 8232) || (c =? 8233)
   || (c =? 8239) || (c =? 8287) || (c =? 12288) || (c =? 65279))%N.

(** [\w], used by the word boundary [\b]. *)
Definition is_word (c : char) : bool :=
  is_digit c || is_upper c || is_lower c || (c =? 95)%N.

Definition is_char (a : ascii) (c : char) : bool := (c =? cu a)%N.

(** Canonicalize of the [i] flag without the [u] flag, on the code units the
    patterns of this program contain (ASCII letters and digits): a code unit
    of 128 or more never canonicalises to an ASCII one, so only the two cases
    of an ASCII letter fold together. *)
Definition canon (c : char) : char := if is_lower c then (c - 32)%N else c.
Definition is_char_ci (p : char) (c : char) : bool := (canon c =? canon p)%N.

(** ** Regular expressions

    The constructs the source uses: a character test, sequence, alternation,
    the greedy star of a character class, the word boundary and the end
    anchor.  [rematch] is a backtracking matcher in continuation passing
    style, trying alternatives and repetitions in the order ECMAScript does;
    [prev] is the code unit before the current position (for [\b]), [k] the
    continuation applied to what is left of the input. *)

Inductive regex :=
| Eps
| Chr (p : char → bool)
| Seq (r1 r2 : regex)
| Alt (r1 r2 : regex)
| Star (p : char → bool)
| WordB
| Eol.

Definition Plus (p : char → bool) : regex := Seq (Chr p) (Star p).

Fixpoint lit (f : char → char → bool) (s : jsstring) : regex :=
  match s with
  | [] => Eps
  | c :: s' => Seq (Chr (f c)) (lit f s')
  end.

Definition opt_word (o : option char) : bool :=
  match o with Some c => is_word c | None => false end.

Section Matcher.
Context {A : Type}.

Fixpoint star_match (p : char → bool) (prev : option char) (s : jsstring)
    (k : option char → jsstring → option A) : option A :=
  match s with
  | c :: s' =>
      if p c then
        match star_match p (Some c) s' k with
        | Some x => Some x
        | None => k prev s
        end
      else k prev s
  | [] => k prev s
  end.

Fixpoint rematch (r : regex) (prev : option char) (s : jsstring)
    (k : option char → jsstring → option A) : option A :=
  match r with
  | Eps => k prev s
  | Chr p =>
      match s with
      | c :: s' => if p c then k (Some c) s' else None
      | [] => None
      end
  | Seq r1 r2 => rematch r1 prev s (λ prev' s', rematch r2 prev' s' k)
  | Alt r1 r2 =>
      match rematch r1 prev s k with
      | Some x => Some x
      | None => rematch r2 prev s k
      end
  | Star p => star_match p prev s k
  | WordB => if xorb (opt_word prev) (opt_word (head s)) then k prev s else None
  | Eol => match s with [] => k prev s | _ => None end
  end.
End Matcher.

(** The length of the match of [r] anchored at the start of [s]. *)
Definition match_here (r : regex) (prev : option char) (s : jsstring) : option nat :=
  rematch r prev s (λ _ rest, Some (length s - length rest)).

(** [/^r/.test(s)]. *)
Definition test_prefix (r : regex) (s : jsstring) : bool :=
  bool_decide (is_Some (match_here r None s)).

(** [re.exec(text)] for a pattern without [^]: the leftmost position at which
    the pattern matches, as [(m.index, m[0].length)]. *)
Fixpoint exec_from (r : regex) (prev : option char) (s : jsstring) (i : nat)
    : option (nat * nat) :=
  match match_here r prev s with
  | Some n => Some (i, n)
  | None =>
      match s with
      | [] => None
      | c :: s' => exec_from r (Some c) s' (S i)
      end
  end.

Definition exec (r : regex) (text : jsstring) : option (nat * nat) :=
  exec_from r None text 0.

(** [s.replace(/^r/, '')]: the input without the matched prefix. *)
Definition strip_prefix (r : regex) (s : jsstring) : jsstring :=
  match match_here r None s with
  | Some n => drop n s
  | None => s
  end.

(** [String.prototype.trim]. *)
Fixpoint trim_start (s : jsstring) : jsstring :=
  match s with
  | c :: s' => if is_space c then trim_start s' else s
  | [] => []
  end.

Definition trim (s : jsstring) : jsstring :=
  reverse (trim_start (reverse (trim_start s))).

(** [String(n)] for a natural number (decimal digits, below 10^21). *)
Definition String_of_N (n : N) : jsstring := str (NilZero.string_of_uint (N.to_uint n)).

(** ** Numbers

    [count / max] is a double.  For integer operands the quotient is modelled
    by the exact rational, with the IEEE results of a division by zero; the
    comparisons with the decimal literals 0.15, 0.40 and 0.70 are then exact
    comparisons of rationals.  (A correctly rounded quotient of two integers
    below 2^53 compares with the nearest double of such a literal the way the
    exact quotient compares with the literal as long as the divisor stays
    below 10^14: the exact quotient then differs from the literal by more
    than the two roundings can make up for.) *)

Inductive jsnum :=
| Fin (q : Q)
| PosInf
| NegInf
| NaN.

Definition js_div (a b : Z) : jsnum :=
  if (b =? 0)%Z then
    (if (0 <? a)%Z then PosInf else if (a <? 0)%Z then NegInf else NaN)
  else Fin (inject_Z a / inject_Z b)%Q.

Definition js_lt (x : jsnum) (y : Q) : bool :=
  match x with
  | Fin q => match (q ?= y)%Q with Lt => true | _ => false end
  | NegInf => true
  | PosInf | NaN => false
  end.

(** ** Heat map *)

Definition heatLevel (count max : Z) : nat :=
  if (count =? 0)%Z then 0
  else
    let ratio := js_div count max in
    if js_lt ratio (15 # 100) then 1
    else if js_lt ratio (40 # 100) then 2
    else if js_lt ratio (70 # 100) then 3
    else 4.

(** The same function on IEEE doubles, in the binary64 format of the
    reference implementation [SpecFloat]: the operands are converted, the
    division is the rounded one and the literals are the doubles nearest to
    0.15, 0.40 and 0.70.  It is used below to check [heatLevel] on a range of
    counts. *)
Definition f64_of_Z (z : Z) : spec_float := binary_normalize 53 1024 z 0 false.
Definition f64_div (x y : spec_float) : spec_float := SFdiv 53 1024 x y.

Definition f64_0_15 : spec_float := S754_finite false 5404319552844595 (-55).
Definition f64_0_40 : spec_float := S754_finite false 7205759403792794 (-54).
Definition f64_0_70 : spec_float := S754_finite false 6305039478318694 (-53).

Definition heatLevel_f64 (count max : Z) : nat :=
  if (count =? 0)%Z then 0
  else
    let ratio := f64_div (f64_of_Z count) (f64_of_Z max) in
    if SFltb ratio f64_0_15 then 1
    else if SFltb ratio f64_0_40 then 2
    else if SFltb ratio f64_0_70 then 3
    else 4.

(** ** The index: chapters and works *)

(** A chapter entry of [index.books[i].chapters] (fields [ch], [count],
    [by_cat]); [by_cat] is absent in the old JSON format. *)
Record ChapterEntry := {
  ch_ch : Z;
  ch_count : Z;
  ch_by_cat : option (gmap jsstring Z);
}.

(** [filteredCount(ch, cats)]: the loop over [Object.entries(ch.by_cat)] is
    [sum_active], a fold over the entries of the mapping. *)
Definition sum_active (cats : gset jsstring) (m : gmap jsstring Z) : Z :=
  map_fold (λ cat n total, if bool_decide (cat ∈ cats) then (total + n)%Z else total)
           0%Z m.

Definition filteredCount (c : ChapterEntry) (cats : gset jsstring) : Z :=
  match ch_by_cat c with
  | None => ch_count c
  | Some m => sum_active cats m
  end.

Record Work := {
  w_id : Z;
  w_author : jsstring;
  w_title : jsstring;
  w_year : option Z;
  w_category : option jsstring;
  w_ref_count : option Z;
}.

(** [work.category || 'Other']: a missing and an empty category are falsy. *)
Definition category_or_other (w : Work) : jsstring :=
  match w_category w with
  | Some (c :: s) => c :: s
  | _ => str "Other"
  end.

(** A citation of a chapter payload: [{w, v, p}]. *)
Record Citation := {
  ref_w : Z;
  ref_v : option jsstring;
  ref_p : Z;
}.

(** ** Verse selection view *)

(** [v.match(/^(\d+)/)]: the captured group is the whole match. *)
Definition primaryVerseKey (v : option jsstring) : jsstring :=
  match v with
  | None => str "whole"
  | Some s =>
      match match_here (Plus is_digit) None s with
      | Some n => take n s
      | None => s
      end
  end.

(** The [groups] map of [renderVerseTable].  A JavaScript [Map] iterates in
    insertion order, which the later sort observes, so the map is the list of
    its entries in that order; [group_push] is
    [if (!groups.has(key)) groups.set(key, []); groups.get(key).push(ref)]. *)
Fixpoint group_push (key : jsstring) (ref : Citation)
    (groups : list (jsstring * list Citation)) : list (jsstring * list Citation) :=
  match groups with
  | [] => [(key, [ref])]
  | (k, refs) :: rest =>
      if decide (k = key) then (k, refs ++ [ref]) :: rest
      else (k, refs) :: group_push key ref rest
  end.

Definition group_step (worksById : gmap Z Work) (cats : gset jsstring)
    (groups : list (jsstring * list Citation)) (ref : Citation)
    : list (jsstring * list Citation) :=
  match worksById !! ref_w ref with
  | None => groups
  | Some work =>
      if bool_decide (category_or_other work ∈ cats)
      then group_push (primaryVerseKey (ref_v ref)) ref groups
      else groups
  end.

Definition groupByVerse (worksById : gmap Z Work) (cats : gset jsstring)
    (refs : list Citation) : list (jsstring * list Citation) :=
  fold_left (group_step worksById cats) refs [].

(** [groups.get(key)]. *)
Fixpoint group_get (key : jsstring) (groups : list (jsstring * list Citation))
    : option (list Citation) :=
  match groups with
  | [] => None
  | (k, refs) :: rest => if decide (k = key) then Some refs else group_get key rest
  end.

(** [parseInt(s, 10)]: leading white space, an optional sign, then the
    longest run of decimal digits; [None] is NaN. *)
Fixpoint digits_value (acc : Z) (s : jsstring) : Z :=
  match s with
  | c :: s' => if is_digit c then digits_value (10 * acc + (Z.of_N c - 48))%Z s' else acc
  | [] => acc
  end.

Definition parse_digits (s : jsstring) : option Z :=
  match s with
  | c :: _ => if is_digit c then Some (digits_value 0 s) else None
  | [] => None
  end.

Definition parseInt (s : jsstring) : option Z :=
  match trim_start s with
  | c :: s' =>
      if is_char "-" c then Z.opp <$> parse_digits s'
      else if is_char "+" c then parse_digits s'
      else parse_digits (c :: s')
  | [] => None
  end.

(** The comparator [(a, b) => parseInt(a, 10) - parseInt(b, 10)] is positive
    exactly when both keys are numbers and [a] is the larger one; a NaN
    difference counts as zero in a sort. *)
Definition key_gt (a b : jsstring) : bool :=
  match parseInt a, parseInt b with
  | Some x, Some y => (0 <? x - y)%Z
  | _, _ => false
  end.

(** [Array.prototype.sort] is stable.  With a consistent comparator every
    stable sort returns the same array, here computed by insertion; with an
    inconsistent one (a NaN among the differences) ECMAScript leaves the order
    to the engine, and the insertion order below is one admissible outcome. *)
Fixpoint sort_insert {A} (gt : A → A → bool) (x : A) (l : list A) : list A :=
  match l with
  | [] => [x]
  | y :: l' => if gt x y then y :: sort_insert gt x l' else x :: y :: l'
  end.

Definition array_sort {A} (gt : A → A → bool) (l : list A) : list A :=
  foldr (sort_insert gt) [] l.

Definition orderedKeys (groups : list (jsstring * list Citation)) : list jsstring :=
  let keys := groups.*1 in
  (if bool_decide (str "whole" ∈ keys) then [str "whole"] else [])
  ++ array_sort key_gt (filter (λ k, k ≠ str "whole") keys).

(** ** Utility: [esc] and [toRoman] *)

Fixpoint replace_all (c : char) (by_ : jsstring) (s : jsstring) : jsstring :=
  match s with
  | [] => []
  | x :: s' => (if (x =? c)%N then by_ else [x]) ++ replace_all c by_ s'
  end.

(** The four global replacements, in the order of the source; for the empty
    string the early return of [if (!str)] and the replacements agree. *)
Definition esc (s : jsstring) : jsstring :=
  replace_all 34%N (str "&quot;")
    (replace_all (cu ">") (str "&gt;")
       (replace_all (cu "<") (str "&lt;")
          (replace_all (cu "&") (str "&amp;") s))).

Definition roman_table : list (N * jsstring) :=
  [ (100, str "c"); (90, str "xc"); (50, str "l"); (40, str "xl"); (10, str "x");
    (9, str "ix"); (5, str "v"); (4, str "iv"); (1, str "i") ]%N.

(** [while (n >= vals[i]) { r += syms[i]; n -= vals[i]; }]: the loop runs at
    most [n] times, which is the fuel [toRoman] gives it. *)
Fixpoint roman_while (fuel : nat) (val : N) (sym : jsstring) (r : jsstring) (n : N)
    : jsstring * N :=
  match fuel with
  | 0 => (r, n)
  | S fuel' =>
      if (val <=? n)%N then roman_while fuel' val sym (r ++ sym) (n - val)%N
      else (r, n)
  end.

Definition toRoman (n : N) : jsstring :=
  (foldl (λ rn vs, roman_while (N.to_nat rn.2) vs.1 vs.2 rn.1 rn.2) ([], n) roman_table).1.

(** ** Passage highlighting *)

(** [String(verseKey).split(/[-,]/)[0]]. *)
Fixpoint split_head (s : jsstring) : jsstring :=
  match s with
  | c :: s' => if is_char "-" c || is_char "," c then [] else c :: split_head s'
  | [] => []
  end.

Definition is_sep (c : char) : bool := is_char "." c || is_char ":" c || is_space c.
Definition is_stop (c : char) : bool := is_char "." c || is_char "!" c || is_char "?" c.
Definition is_opener (c : char) : bool :=
  is_upper c || (c =? 34)%N || is_char "(" c || is_char "[" c.
Definition is_closer (c : char) : bool :=
  is_char "'" c || (c =? 34)%N || is_char ")" c || is_char "]" c.

(** The four anchored patterns of the source: all digits; white space and
    then an upper case letter, a double quote, a parenthesis or a square
    bracket; a run of closing quotes and brackets; white space to the end. *)
Definition re_all_digits : regex := Seq (Plus is_digit) Eol.
Definition re_sentence_follows : regex := Seq (Plus is_space) (Chr is_opener).
Definition re_closers : regex := Star is_closer.
Definition re_blank : regex := Seq (Star is_space) Eol.

(** [new RegExp(`(?:${ch}|${roman})\\s*[.:\\s]+${verseStart}\\b`, 'i')]. *)
Definition verse_pattern (chapter : N) (verseStart : jsstring) : regex :=
  Seq (Alt (lit is_char_ci (String_of_N chapter)) (lit is_char_ci (toRoman chapter)))
    (Seq (Star is_space)
       (Seq (Plus is_sep)
          (Seq (lit is_char_ci verseStart) WordB))).

(** The backward loop [while (s > 0) { ...; s--; }], by recursion on [s]. *)
Fixpoint scan_back (text : jsstring) (s : nat) : nat :=
  match s with
  | 0 => 0
  | S s' =>
      let prev := text !! s' in
      if bool_decide (prev = Some NL)
         && ((s <? 2) || bool_decide (text !! (s - 2) = Some NL))
      then s
      else if from_option is_stop false prev
              && test_prefix re_sentence_follows (slice_from s text)
      then s
      else scan_back text s'
  end.

(** [while (s < m.index && text[s] === ' ') s++], by recursion on the
    distance [m.index - s]. *)
Fixpoint skip_spaces (gap : nat) (text : jsstring) (s : nat) : nat :=
  match gap with
  | 0 => s
  | S gap' =>
      if bool_decide (text !! s = Some (cu " ")) then skip_spaces gap' text (S s)
      else s
  end.

(** The forward loop [while (e < text.length) { ...; e++; }], by recursion on
    the distance [text.length - e]. *)
Fixpoint scan_fwd (gap : nat) (text : jsstring) (e : nat) : nat :=
  match gap with
  | 0 => e
  | S gap' =>
      let c := text !! e in
      if bool_decide (c = Some NL) && (e + 1 <? length text)
         && bool_decide (text !! (e + 1) = Some NL)
      then e + 2
      else if from_option is_stop false c
              && (let rest := strip_prefix re_closers (slice_from (e + 1) text) in
                  bool_decide (rest = []) || test_prefix re_sentence_follows rest
                  || test_prefix re_blank rest)
      then e + 1
      else scan_fwd gap' text (e + 1)
  end.

Definition sentence_start (text : jsstring) (index : nat) : nat :=
  let s := scan_back text index in
  skip_spaces (index - s) text s.

Definition sentence_end (text : jsstring) (e : nat) : nat :=
  scan_fwd (length text - e) text e.

(** What [highlightPassage] decides before it builds the HTML: either the
    text as it is, or the three slices around the sentence. *)
Inductive Highlight :=
| Plain (text : jsstring)
| Marked (prefix highlighted suffix : jsstring).

Definition highlightSpans (text : jsstring) (chapter : N) (verseKey : option jsstring)
    : Highlight :=
  match text, verseKey with
  | [], _ => Plain []
  | _, None => Plain text
  | _, Some [] => Plain text
  | _, Some vk =>
      if decide (vk = str "whole") then Plain text
      else
        let verseStart := trim (split_head vk) in
        if bool_decide (verseStart = []) || negb (test_prefix re_all_digits verseStart)
        then Plain text
        else
          match exec (verse_pattern chapter verseStart) text with
          | None => Plain text
          | Some (index, len) =>
              let s := sentence_start text index in
              let e := sentence_end text (index + len) in
              Marked (slice 0 s text) (slice s e text) (slice_from e text)
          end
  end.

Definition render (h : Highlight) : jsstring :=
  match h with
  | Plain text => esc text
  | Marked prefix highlighted suffix =>
      esc prefix ++ str "<mark>" ++ esc highlighted ++ str "</mark>" ++ esc suffix
  end.

Definition highlightPassage (text : jsstring) (chapter : N) (verseKey : option jsstring)
    : jsstring :=
  render (highlightSpans text chapter verseKey).

(** The triple [{prefix, highlighted, suffix}] of the specification. *)
Definition highlight (text : jsstring) (chapter : N) (verseLocator : option jsstring)
    : jsstring * jsstring * jsstring :=
  match highlightSpans text chapter verseLocator with
  | Plain t => (t, [], [])
  | Marked prefix highlighted suffix => (prefix, highlighted, suffix)
  end.

(** ** Per-work citation lists and their cache *)

(** A citation of a manuscript payload; the era chart reads [book_slug]. *)
Record ManuscriptRef := {
  mr_book : jsstring;
  mr_book_slug : jsstring;
  mr_chapter : N;
  mr_v : option jsstring;
  mr_p : Z;
}.

(** The payload [fetchJSON] resolves to for a manuscript. *)
Record WorkData := {
  wd_title : jsstring;
  wd_author : jsstring;
  wd_refs : list ManuscriptRef;
}.

(** The outcome of [await fetchJSON(url)]: the payload, or a rejection. *)
Inductive Outcome :=
| Resolved (data : WorkData)
| Rejected.

(** [fetchWorkRefs] before its [await]: a cached list is returned at once. *)
Definition fetchWorkRefs_begin (cache : gmap Z (list ManuscriptRef)) (workId : Z)
    : option (list ManuscriptRef) :=
  cache !! workId.

(** [fetchWorkRefs] after its [await]: both branches of the [try] write the
    cache and return what they wrote. *)
Definition fetchWorkRefs_end (cache : gmap Z (list ManuscriptRef)) (workId : Z)
    (o : Outcome) : list ManuscriptRef * gmap Z (list ManuscriptRef) :=
  match o with
  | Resolved data => (wd_refs data, <[workId := wd_refs data]> cache)
  | Rejected => ([], <[workId := []]> cache)
  end.

(** A call of [fetchWorkRefs] that is not interleaved with another one. *)
Definition fetchWorkRefs (cache : gmap Z (list ManuscriptRef)) (workId : Z)
    (o : Outcome) : list ManuscriptRef * gmap Z (list ManuscriptRef) :=
  match fetchWorkRefs_begin cache workId with
  | Some refs => (refs, cache)
  | None => fetchWorkRefs_end cache workId o
  end.

(** ** Canonical sections *)

Definition BOOK_GROUP_MAP : gmap jsstring jsstring :=
  list_to_map
    (((λ s, (str s, str "Pentateuch")) <$>
        ["genesis"; "exodus"; "leviticus"; "numbers"; "deuteronomy"]%string)
     ++ ((λ s, (str s, str "Historical")) <$>
        ["joshua"; "judges"; "ruth"; "1-samuel"; "2-samuel"; "1-kings"; "2-kings";
         "1-chronicles"; "2-chronicles"; "ezra"; "nehemiah"; "esther"]%string)
     ++ ((λ s, (str s, str "Poetic")) <$>
        ["job"; "psalms"; "proverbs"; "ecclesiastes"; "song-of-solomon"]%string)
     ++ ((λ s, (str s, str "Maj. Prophets")) <$>
        ["isaiah"; "jeremiah"; "lamentations"; "ezekiel"; "daniel"]%string)
     ++ ((λ s, (str s, str "Min. Prophets")) <$>
        ["hosea"; "joel"; "amos"; "obadiah"; "jonah"; "micah"; "nahum";
         "habakkuk"; "zephaniah"; "haggai"; "zechariah"; "malachi"]%string)
     ++ ((λ s, (str s, str "Gospels")) <$>
        ["matthew"; "mark"; "luke"; "john"]%string)
     ++ ((λ s, (str s, str "Acts & Epistles")) <$>
        ["acts"; "romans"; "1-corinthians"; "2-corinthians"; "galatians"; "ephesians";
         "philippians"; "colossians"; "1-thessalonians"; "2-thessalonians";
         "1-timothy"; "2-timothy"; "titus"; "philemon"; "hebrews";
         "james"; "1-peter"; "2-peter"; "1-john"; "2-john"; "3-john"; "jude"]%string)
     ++ ((λ s, (str s, str "Revelation")) <$> ["revelation"]%string)).

Definition BOOK_GROUP_ORDER : list jsstring :=
  str <$> [ "Pentateuch"; "Historical"; "Poetic"; "Maj. Prophets"; "Min. Prophets";
            "Deuterocanon";
            "Gospels"; "Acts & Epistles"; "Revelation" ]%string.

(** [BOOK_GROUP_MAP.get(ref.book_slug) ?? 'Deuterocanon']. *)
Definition book_group (slug : jsstring) : jsstring :=
  default (str "Deuterocanon") (BOOK_GROUP_MAP !! slug).

(** The [groupCounts] map a work's citation list is summarised to. *)
Definition groupCounts_of (refs : list ManuscriptRef) : gmap jsstring Z :=
  fold_left
    (λ gc ref, let g := book_group (mr_book_slug ref) in
               <[g := (default 0 (gc !! g) + 1)%Z]> gc)
    refs ∅.

(** ** Works timeline (the part that counts works) *)

Definition has_year (w : Work) : bool := bool_decide (is_Some (w_year w)).
Definition in_cats (cats : gset jsstring) (w : Work) : bool :=
  bool_decide (category_or_other w ∈ cats).

(** [(a, b) => a.year - b.year] on works that have a year. *)
Definition year_gt (a b : Work) : bool :=
  match w_year a, w_year b with
  | Some x, Some y => (0 <? x - y)%Z
  | _, _ => false
  end.

Inductive Timeline :=
| TimelineNoData
| TimelineChart (dots : list Work) (unknown : option nat).

(** [renderWorksTimeline]: one dot per dated work, and the paragraph
    that counts the works without a known date when [noYear] is not empty. *)
Definition renderWorksTimeline (works : list Work) (cats : gset jsstring) : Timeline :=
  let withYear := array_sort year_gt (filter (λ w, has_year w && in_cats cats w) works) in
  let noYear := filter (λ w, negb (has_year w) && in_cats cats w) works in
  match withYear, noYear with
  | [], [] => TimelineNoData
  | _, _ =>
      TimelineChart withYear
        (if bool_decide (noYear = []) then None else Some (length noYear))
  end.

(** ** Bible references by date *)

(** An element of [workRefsData]. *)
Record WorkRefs := {
  wr_work : Work;
  wr_groupCounts : gmap jsstring Z;
}.

(** An element of [buckets] (fields [b], [worksCount], [groupTotals],
    [total]; the label is [String(b)]). *)
Record Bucket := {
  bk_b : Z;
  bk_worksCount : nat;
  bk_groupTotals : gmap jsstring Z;
  bk_total : Z;
}.

(** [Math.min(...ys)] and [Math.max(...ys)] of a non-empty list [y :: ys]. *)
Definition list_min (y : Z) (ys : list Z) : Z := foldr Z.min y ys.
Definition list_max (y : Z) (ys : list Z) : Z := foldr Z.max y ys.

Definition BUCKET_of (yearSpan : Z) : Z :=
  if (yearSpan <? 200)%Z then 25
  else if (yearSpan <? 500)%Z then 50
  else if (yearSpan <? 1000)%Z then 100
  else if (yearSpan <? 2000)%Z then 200
  else 500.

(** [d.work.year >= b && d.work.year < b + BUCKET]. *)
Definition in_bucket (start BUCKET : Z) (d : WorkRefs) : bool :=
  match w_year (wr_work d) with
  | Some y => (start <=? y)%Z && (y <? start + BUCKET)%Z
  | None => false
  end.

(** The two nested loops that add a work's [groupCounts] to the totals. *)
Definition add_groupCounts (acc : gmap jsstring Z * Z) (d : WorkRefs)
    : gmap jsstring Z * Z :=
  map_fold (λ g n a, (<[g := (default 0 (a.1 !! g) + n)%Z]> a.1, (a.2 + n)%Z))
           acc (wr_groupCounts d).

Definition make_bucket (start BUCKET : Z) (workRefsData : list WorkRefs)
    : option Bucket :=
  let wInBucket := filter (λ d, in_bucket start BUCKET d) workRefsData in
  match wInBucket with
  | [] => None
  | _ =>
      let sums := fold_left add_groupCounts wInBucket (∅, 0%Z) in
      Some {| bk_b := start; bk_worksCount := length wInBucket;
              bk_groupTotals := sums.1; bk_total := sums.2 |}
  end.

(** [for (let b = firstBucket; b <= maxYear; b += BUCKET)]; [None] when the
    fuel runs out before the loop condition fails. *)
Fixpoint bucket_loop (fuel : nat) (start maxYear BUCKET : Z)
    (workRefsData : list WorkRefs) : option (list Bucket) :=
  if (start <=? maxYear)%Z then
    match fuel with
    | 0 => None
    | S fuel' =>
        rest ← bucket_loop fuel' (start + BUCKET)%Z maxYear BUCKET workRefsData;
        Some (match make_bucket start BUCKET workRefsData with
              | Some bk => bk :: rest
              | None => rest
              end)
    end
  else Some [].

(** A segment of a stacked bar: section, citation count and the work count
    of its title.  (The pixel geometry, computed in floating point, is left
    out.) *)
Record Segment := {
  seg_group : jsstring;
  seg_count : Z;
  seg_works : nat;
}.

(** The inner loop over [activeGroups], skipping empty sections. *)
Definition bar_segments (activeGroups : list jsstring) (bk : Bucket) : list Segment :=
  omap (λ g, let n := default 0%Z (bk_groupTotals bk !! g) in
             if (n =? 0)%Z then None
             else Some {| seg_group := g; seg_count := n; seg_works := bk_worksCount bk |})
       activeGroups.

Record Bar := {
  bar_start : Z;
  bar_segments_of : list Segment;
}.

Inductive RefsByDate :=
| NoDatedWorks
| Loading (uncached : nat)
| Waiting
| NoData
| Chart (BUCKET : Z) (bars : list Bar) (legend : list jsstring).

(** The part of [renderBibleRefsByDate] after the staleness check, for the
    resolved citation lists [workRefsData].  That list is built from
    [worksWithYear], so it is not empty there and each of its works has a
    year: the years are those of [worksWithYear.map(w => w.year)]. *)
Definition refs_by_date_chart (workRefsData : list WorkRefs) : RefsByDate :=
  let activeGroups :=
    filter (λ g, existsb (λ d, bool_decide (is_Some (wr_groupCounts d !! g))) workRefsData)
           BOOK_GROUP_ORDER in
  match activeGroups, omap (λ d, w_year (wr_work d)) workRefsData with
  | [], _ => NoData
  | _, [] => NoData
  | _, y :: ys =>
      let minYear := list_min y ys in
      let maxYear := list_max y ys in
      let yearSpan := (maxYear - minYear)%Z in
      let BUCKET := BUCKET_of yearSpan in
      let firstBucket := (minYear `div` BUCKET * BUCKET)%Z in
      match bucket_loop (Z.to_nat (maxYear - firstBucket) + 1)
                        firstBucket maxYear BUCKET workRefsData with
      | None | Some [] => NoData
      | Some buckets =>
          Chart BUCKET
                ((λ bk, {| bar_start := bk_b bk;
                           bar_segments_of := bar_segments activeGroups bk |}) <$> buckets)
                activeGroups
      end
  end.

(** ** Application state

    The module level variables the modelled functions read and write, the
    children of [vizViewEl], the body of [workRefsListEl], and the calls that
    are suspended at an [await]. *)

Inductive Mode := ModeScripture | ModeWorks | ModeViz.

(** A child of [vizViewEl].  The section of the references by date is the
    node [sec] its call created; the call is identified by its [version]. *)
Inductive VizSection :=
| NoCategoriesSelected
| BibleCoverage
| MostReferencedBooks
| WorksByDate (t : Timeline)
| BibleRefsByDate (version : nat) (body : RefsByDate)
| CorpusByCategory.

Inductive WorkPane :=
| PaneEmpty
| PaneLoading
| PaneCouldNotLoad
| PaneWork (data : WorkData).

(** A call of [renderBibleRefsByDate] suspended at [await Promise.all(...)]:
    its [version] argument and, for each work of [worksWithYear], what
    [fetchWorkRefs] found in the cache when it was called. *)
Record Task := {
  t_version : nat;
  t_works : list (Work * option (list ManuscriptRef));
}.

Record AppState := {
  vizVersion : nat;
  workRefsCache : gmap Z (list ManuscriptRef);
  vizView : list VizSection;
  pending : list Task;
  activeMode : Mode;
  activeWorkId : option Z;
  workRefsList : WorkPane;
  loading : list Z;
}.

Definition initial : AppState :=
  {| vizVersion := 0; workRefsCache := ∅; vizView := []; pending := [];
     activeMode := ModeViz; activeWorkId := None; workRefsList := PaneEmpty;
     loading := [] |}.

(** [renderBibleRefsByDate] up to its [await]. *)
Definition renderBibleRefsByDate_begin (works : list Work) (cats : gset jsstring)
    (version : nat) (cache : gmap Z (list ManuscriptRef)) : RefsByDate * option Task :=
  let worksWithYear := filter (λ w, has_year w && in_cats cats w) works in
  match worksWithYear with
  | [] => (NoDatedWorks, None)
  | _ =>
      let uncachedCount :=
        length (filter (λ w, bool_decide (cache !! w_id w = None)) worksWithYear) in
      (if 0 <? uncachedCount then Loading uncachedCount else Waiting,
       Some {| t_version := version;
               t_works := (λ w, (w, fetchWorkRefs_begin cache (w_id w))) <$> worksWithYear |})
  end.

(** [renderVizTab]: the view is emptied, the counter incremented and the
    five charts appended; the fourth one fills in later. *)
Definition renderVizTab (works : list Work) (cats : gset jsstring) (st : AppState)
    : AppState :=
  let version := S (vizVersion st) in
  if size cats =? 0 then
    {| vizVersion := version; workRefsCache := workRefsCache st;
       vizView := [NoCategoriesSelected]; pending := pending st;
       activeMode := activeMode st; activeWorkId := activeWorkId st;
       workRefsList := workRefsList st; loading := loading st |}
  else
    let r := renderBibleRefsByDate_begin works cats version (workRefsCache st) in
    {| vizVersion := version; workRefsCache := workRefsCache st;
       vizView := [BibleCoverage; MostReferencedBooks;
                   WorksByDate (renderWorksTimeline works cats);
                   BibleRefsByDate version r.1; CorpusByCategory];
       pending := pending st ++ option_list r.2;
       activeMode := activeMode st; activeWorkId := activeWorkId st;
       workRefsList := workRefsList st; loading := loading st |}.

(** The fetches of a suspended call settle: a work found in the cache keeps
    the list it was given, the others get the outcome [net] of their fetch,
    which [fetchWorkRefs] writes to the cache. *)
Definition settle_work (net : Z → Outcome)
    (acc : list WorkRefs * gmap Z (list ManuscriptRef))
    (wf : Work * option (list ManuscriptRef))
    : list WorkRefs * gmap Z (list ManuscriptRef) :=
  let r := match wf.2 with
           | Some refs => (refs, acc.2)
           | None => fetchWorkRefs_end acc.2 (w_id wf.1) (net (w_id wf.1))
           end in
  (acc.1 ++ [{| wr_work := wf.1; wr_groupCounts := groupCounts_of r.1 |}], r.2).

Definition settle (net : Z → Outcome) (t : Task) (cache : gmap Z (list ManuscriptRef))
    : list WorkRefs * gmap Z (list ManuscriptRef) :=
  fold_left (settle_work net) (t_works t) ([], cache).

(** Writing the chart into the node [sec] of the call with that version. *)
Definition fill_section (version : nat) (body : RefsByDate) (s : VizSection)
    : VizSection :=
  match s with
  | BibleRefsByDate v old => if v =? version then BibleRefsByDate v body else s
  | _ => s
  end.

(** [renderBibleRefsByDate] from its [await] on, for the suspended call at
    position [i]: [if (_vizVersion !== version) return;] comes first. *)
Definition renderBibleRefsByDate_end (net : Z → Outcome) (i : nat) (st : AppState)
    : AppState :=
  match pending st !! i with
  | None => st
  | Some t =>
      let r := settle net t (workRefsCache st) in
      {| vizVersion := vizVersion st; workRefsCache := r.2;
         vizView :=
           (if bool_decide (vizVersion st ≠ t_version t) then vizView st
            else fill_section (t_version t) (refs_by_date_chart r.1) <$> vizView st);
         pending := delete i (pending st);
         activeMode := activeMode st; activeWorkId := activeWorkId st;
         workRefsList := workRefsList st; loading := loading st |}
  end.

(** [loadWork] up to [await fetchJSON(...)], and from there on ([renderWork]
    fills the pane with the payload). *)
Definition loadWork_begin (workId : Z) (st : AppState) : AppState :=
  {| vizVersion := vizVersion st; workRefsCache := workRefsCache st;
     vizView := vizView st; pending := pending st;
     activeMode := ModeWorks; activeWorkId := Some workId;
     workRefsList := PaneLoading; loading := loading st ++ [workId] |}.

Definition loadWork_end (o : Outcome) (i : nat) (st : AppState) : AppState :=
  match loading st !! i with
  | None => st
  | Some _ =>
      {| vizVersion := vizVersion st; workRefsCache := workRefsCache st;
         vizView := vizView st; pending := pending st;
         activeMode := activeMode st; activeWorkId := activeWorkId st;
         workRefsList := match o with
                         | Rejected => PaneCouldNotLoad
                         | Resolved data => PaneWork data
                         end;
         loading := delete i (loading st) |}
  end.

(** One turn of the event loop: a filter change or a switch to the
    visualisation tab, a click on a work, or the resumption of a suspended
    call. *)
Inductive step (works : list Work) : AppState → AppState → Prop :=
| step_renderVizTab cats st :
    step works st (renderVizTab works cats st)
| step_renderBibleRefsByDate_end net i st :
    i < length (pending st) →
    step works st (renderBibleRefsByDate_end net i st)
| step_loadWork_begin workId st :
    step works st (loadWork_begin workId st)
| step_loadWork_end o i st :
    i < length (loading st) →
    step works st (loadWork_end o i st).

Inductive reachable (works : list Work) : AppState → Prop :=
| reachable_initial : reachable works initial
| reachable_step st st' :
    reachable works st → step works st st' → reachable works st'.

(** ** The index: books, and the views that count their citations *)

(** A book of [index.books]. *)
Record Book := {
  b_name : jsstring;
  b_slug : jsstring;
  b_chapters : list ChapterEntry;
}.

(** [s.includes(term)]. *)
Fixpoint includes (s term : jsstring) : bool :=
  bool_decide (term `prefix_of` s)
  || match s with
     | [] => false
     | _ :: s' => includes s' term
     end.

(** A chapter dot of the sidebar: its label [ch.ch], the count of its title,
    [dataset.heat] and whether it carries the class [active]. *)
Record Dot := {
  dot_ch : Z;
  dot_count : Z;
  dot_heat : nat;
  dot_active : bool;
}.

(** An entry of [bookListEl]: the book, whether it is open, the number of
    the badge and the row of dots. *)
Record BookEntry := {
  be_book : Book;
  be_open : bool;
  be_totalRefs : Z;
  be_dots : list Dot;
}.

Section Sidebar.
(** [String.prototype.toLowerCase], which the model leaves open. *)
Variable toLowerCase : jsstring → jsstring.

(** The body of the loop of [renderSidebar] for one book; [None] is a
    [continue]. *)
Definition sidebar_entry (cats : gset jsstring) (activeBook : option jsstring)
    (activeChapter : option Z) (term : jsstring) (book : Book) : option BookEntry :=
  if negb (bool_decide (term = [])) && negb (includes (toLowerCase (b_name book)) term)
  then None
  else
    let filteredChs :=
      filter (λ c, (0 <? c.2)%Z)
             ((λ ch, (ch_ch ch, filteredCount ch cats)) <$> b_chapters book) in
    match filteredChs with
    | [] => None
    | c :: cs =>
        let totalRefs := foldl (λ s c, (s + c.2)%Z) 0%Z filteredChs in
        let maxCount := list_max c.2 cs.*2 in
        let isActive := bool_decide (activeBook = Some (b_slug book)) in
        Some {| be_book := book; be_open := isActive; be_totalRefs := totalRefs;
                be_dots :=
                  (λ c, {| dot_ch := c.1; dot_count := c.2;
                           dot_heat := heatLevel c.2 maxCount;
                           dot_active := isActive && bool_decide (activeChapter = Some c.1) |})
                  <$> filteredChs |}
    end.

Definition renderSidebar (books : list Book) (cats : gset jsstring)
    (activeBook : option jsstring) (activeChapter : option Z) (filter : jsstring)
    : list BookEntry :=
  omap (sidebar_entry cats activeBook activeChapter (toLowerCase filter)) books.
End Sidebar.

(** [book.chapters.reduce((s, ch) => s + filteredCount(ch, cats), 0)]. *)
Definition book_total (cats : gset jsstring) (book : Book) : Z :=
  foldl (λ s ch, (s + filteredCount ch cats)%Z) 0%Z (b_chapters book).

(** A cell of the coverage heat map: the book, the count, [dataset.heat] and
    whether a click navigates (the cell is disabled otherwise). *)
Record Cell := {
  cell_book : Book;
  cell_total : Z;
  cell_heat : nat;
  cell_enabled : bool;
}.

Definition renderBibleHeatmap (books : list Book) (cats : gset jsstring) : list Cell :=
  let maxTotal := list_max 1%Z (book_total cats <$> books) in
  (λ book, let total := book_total cats book in
           {| cell_book := book; cell_total := total;
              cell_heat := heatLevel total maxTotal;
              cell_enabled := (0 <? total)%Z |}) <$> books.

(** [index.books.find(b => b.slug === slug)] and
    [book?.chapters.find(ch => filteredCount(ch, cats) > 0)] of
    [navigateToBook]. *)
Definition find_book (books : list Book) (slug : jsstring) : option Book :=
  list_find (λ b, b_slug b = slug) books ≫= λ ib, Some ib.2.

Definition firstCh (books : list Book) (cats : gset jsstring) (slug : jsstring)
    : option ChapterEntry :=
  book ← find_book books slug;
  snd <$> list_find (λ ch, (0 < filteredCount ch cats)%Z) (b_chapters book).

(** ** Modes and panes

    The [hidden] flags of the eight elements [setMode] and the navigation
    functions write, and the module level variables they read and write.
    [activeMode] and [activeWorkId] are those of [AppState]. *)

Record Panels := {
  scripturePanelEl_hidden : bool;
  worksPanelEl_hidden : bool;
  sidebarEl_hidden : bool;
  vizViewEl_hidden : bool;
  welcomeEl_hidden : bool;
  verseViewEl_hidden : bool;
  chapterViewEl_hidden : bool;
  workViewEl_hidden : bool;
}.

Record Ui := {
  ui_app : AppState;
  activeBook : option jsstring;
  activeChapter : option Z;
  activeVerse : option jsstring;
  panels : Panels;
}.

(** The four assignments of [showWelcome]; the text of the statistics is not
    part of the model. *)
Definition showWelcome (p : Panels) : Panels :=
  {| scripturePanelEl_hidden := scripturePanelEl_hidden p;
     worksPanelEl_hidden := worksPanelEl_hidden p;
     sidebarEl_hidden := sidebarEl_hidden p;
     vizViewEl_hidden := vizViewEl_hidden p;
     welcomeEl_hidden := false;
     verseViewEl_hidden := true;
     chapterViewEl_hidden := true;
     workViewEl_hidden := true |}.

Definition set_activeMode (mode : Mode) (st : AppState) : AppState :=
  {| vizVersion := vizVersion st; workRefsCache := workRefsCache st;
     vizView := vizView st; pending := pending st;
     activeMode := mode; activeWorkId := activeWorkId st;
     workRefsList := workRefsList st; loading := loading st |}.

Definition set_activeWorkId (workId : Z) (st : AppState) : AppState :=
  {| vizVersion := vizVersion st; workRefsCache := workRefsCache st;
     vizView := vizView st; pending := pending st;
     activeMode := activeMode st; activeWorkId := Some workId;
     workRefsList := workRefsList st; loading := loading st |}.

(** [setMode(mode)]; [cats] is what [checkedCategories()] returns when
    [renderVizTab] is called. *)
Definition setMode (works : list Work) (cats : gset jsstring) (mode : Mode) (ui : Ui)
    : Ui :=
  let isScripture := match mode with ModeScripture => true | _ => false end in
  let isWorks := match mode with ModeWorks => true | _ => false end in
  let isViz := match mode with ModeViz => true | _ => false end in
  let st := set_activeMode mode (ui_app ui) in
  let p := {| scripturePanelEl_hidden := negb isScripture;
              worksPanelEl_hidden := negb isWorks;
              sidebarEl_hidden := isViz;
              vizViewEl_hidden := negb isViz;
              welcomeEl_hidden := welcomeEl_hidden (panels ui);
              verseViewEl_hidden := verseViewEl_hidden (panels ui);
              chapterViewEl_hidden := chapterViewEl_hidden (panels ui);
              workViewEl_hidden := workViewEl_hidden (panels ui) |} in
  match mode with
  | ModeViz =>
      {| ui_app := renderVizTab works cats st;
         activeBook := activeBook ui; activeChapter := activeChapter ui;
         activeVerse := activeVerse ui;
         panels := {| scripturePanelEl_hidden := scripturePanelEl_hidden p;
                      worksPanelEl_hidden := worksPanelEl_hidden p;
                      sidebarEl_hidden := sidebarEl_hidden p;
                      vizViewEl_hidden := vizViewEl_hidden p;
                      welcomeEl_hidden := true;
                      verseViewEl_hidden := true;
                      chapterViewEl_hidden := true;
                      workViewEl_hidden := true |} |}
  | ModeScripture =>
      {| ui_app := st;
         activeBook := activeBook ui; activeChapter := activeChapter ui;
         activeVerse := activeVerse ui;
         panels :=
           match activeChapter ui with
           | Some _ =>
               {| scripturePanelEl_hidden := scripturePanelEl_hidden p;
                  worksPanelEl_hidden := worksPanelEl_hidden p;
                  sidebarEl_hidden := sidebarEl_hidden p;
                  vizViewEl_hidden := vizViewEl_hidden p;
                  welcomeEl_hidden := true;
                  verseViewEl_hidden :=
                    match activeVerse ui with None => false | Some _ => true end;
                  chapterViewEl_hidden :=
                    match activeVerse ui with None => true | Some _ => false end;
                  workViewEl_hidden := true |}
           | None =>
               showWelcome
                 {| scripturePanelEl_hidden := scripturePanelEl_hidden p;
                    worksPanelEl_hidden := worksPanelEl_hidden p;
                    sidebarEl_hidden := sidebarEl_hidden p;
                    vizViewEl_hidden := vizViewEl_hidden p;
                    welcomeEl_hidden := welcomeEl_hidden p;
                    verseViewEl_hidden := true;
                    chapterViewEl_hidden := chapterViewEl_hidden p;
                    workViewEl_hidden := true |}
           end |}
  | ModeWorks =>
      {| ui_app := st;
         activeBook := activeBook ui; activeChapter := activeChapter ui;
         activeVerse := activeVerse ui;
         panels :=
           match activeWorkId (ui_app ui) with
           | Some _ =>
               {| scripturePanelEl_hidden := scripturePanelEl_hidden p;
                  worksPanelEl_hidden := worksPanelEl_hidden p;
                  sidebarEl_hidden := sidebarEl_hidden p;
                  vizViewEl_hidden := vizViewEl_hidden p;
                  welcomeEl_hidden := true;
                  verseViewEl_hidden := true;
                  chapterViewEl_hidden := true;
                  workViewEl_hidden := false |}
           | None =>
               showWelcome
                 {| scripturePanelEl_hidden := scripturePanelEl_hidden p;
                    worksPanelEl_hidden := worksPanelEl_hidden p;
                    sidebarEl_hidden := sidebarEl_hidden p;
                    vizViewEl_hidden := vizViewEl_hidden p;
                    welcomeEl_hidden := welcomeEl_hidden p;
                    verseViewEl_hidden := true;
                    chapterViewEl_hidden := true;
                    workViewEl_hidden := workViewEl_hidden p |}
           end |}
  end.

(** [toggleBook(slug)]. *)
Definition toggleBook (slug : jsstring) (ui : Ui) : Ui :=
  if bool_decide (activeBook ui = Some slug) then
    {| ui_app := ui_app ui; activeBook := None; activeChapter := None;
       activeVerse := None; panels := showWelcome (panels ui) |}
  else
    {| ui_app := ui_app ui; activeBook := Some slug; activeChapter := None;
       activeVerse := None; panels := panels ui |}.

(** [showVerseView], [loadChapter] and [loadChapterFiltered] up to their
    first [await]. *)
Definition showVerseView_begin (works : list Work) (cats : gset jsstring)
    (bookSlug : jsstring) (chapter : Z) (ui : Ui) : Ui :=
  setMode works cats ModeScripture
    {| ui_app := ui_app ui; activeBook := Some bookSlug; activeChapter := Some chapter;
       activeVerse := None; panels := panels ui |}.

Definition loadChapter_begin (works : list Work) (cats : gset jsstring)
    (bookSlug : jsstring) (chapter : Z) (ui : Ui) : Ui :=
  setMode works cats ModeScripture
    {| ui_app := ui_app ui; activeBook := Some bookSlug; activeChapter := Some chapter;
       activeVerse := Some (str "all"); panels := panels ui |}.

Definition loadChapterFiltered_begin (verseKey : jsstring) (ui : Ui) : Ui :=
  {| ui_app := ui_app ui; activeBook := activeBook ui; activeChapter := activeChapter ui;
     activeVerse := Some verseKey;
     panels := {| scripturePanelEl_hidden := scripturePanelEl_hidden (panels ui);
                  worksPanelEl_hidden := worksPanelEl_hidden (panels ui);
                  sidebarEl_hidden := sidebarEl_hidden (panels ui);
                  vizViewEl_hidden := vizViewEl_hidden (panels ui);
                  welcomeEl_hidden := welcomeEl_hidden (panels ui);
                  verseViewEl_hidden := true;
                  chapterViewEl_hidden := false;
                  workViewEl_hidden := workViewEl_hidden (panels ui) |} |}.

(** [loadWork(workId)] up to its [await]: the assignment, [setMode('works')]
    and the loading notice. *)
Definition loadWork_ui (works : list Work) (cats : gset jsstring) (workId : Z) (ui : Ui)
    : Ui :=
  let ui1 :=
    setMode works cats ModeWorks
      {| ui_app := set_activeWorkId workId (ui_app ui); activeBook := activeBook ui;
         activeChapter := activeChapter ui; activeVerse := activeVerse ui;
         panels := panels ui |} in
  {| ui_app := loadWork_begin workId (ui_app ui1); activeBook := activeBook ui1;
     activeChapter := activeChapter ui1; activeVerse := activeVerse ui1;
     panels := panels ui1 |}.

(** [navigateToBook(slug)] and [navigateToWork(workId)], up to the [await]
    of the loader they call. *)
Definition navigateToBook (works : list Work) (books : list Book) (cats : gset jsstring)
    (slug : jsstring) (ui : Ui) : Ui :=
  match firstCh books cats slug with
  | Some ch =>
      loadChapter_begin works cats slug (ch_ch ch)
        (setMode works cats ModeScripture
           {| ui_app := ui_app ui; activeBook := Some slug;
              activeChapter := Some (ch_ch ch); activeVerse := activeVerse ui;
              panels := panels ui |})
  | None =>
      setMode works cats ModeScripture
        {| ui_app := ui_app ui; activeBook := Some slug; activeChapter := None;
           activeVerse := activeVerse ui; panels := panels ui |}
  end.

Definition navigateToWork (works : list Work) (cats : gset jsstring) (workId : Z)
    (ui : Ui) : Ui :=
  loadWork_ui works cats workId
    (setMode works cats ModeWorks
       {| ui_app := set_activeWorkId workId (ui_app ui); activeBook := activeBook ui;
          activeChapter := activeChapter ui; activeVerse := activeVerse ui;
          panels := panels ui |}).

(** ** Verse table and citation cards *)

(** A chapter of a book payload: [{ch, refs}]. *)
Record ChapterData := {
  cd_ch : Z;
  cd_refs : list Citation;
}.

(** A row of the verse table: its key, the number of its last cell and
    [dataset.heat].  (The label and the verse text are not part of the
    model.) *)
Record VerseRow := {
  row_key : jsstring;
  row_count : nat;
  row_heat : nat;
}.

Inductive VerseTable :=
| NoReferencesFound
| NoReferencesForCategories
| VerseRows (rows : list VerseRow).

(** [renderVerseTable]; every key of [orderedKeys] is a key of [groups], so
    that [groups.get(key)] is a list. *)
Definition renderVerseTable (worksById : gmap Z Work) (cats : gset jsstring)
    (chData : option ChapterData) : VerseTable :=
  match chData with
  | None => NoReferencesFound
  | Some cd =>
      match cd_refs cd with
      | [] => NoReferencesFound
      | _ =>
          let groups := groupByVerse worksById cats (cd_refs cd) in
          match groups with
          | [] => NoReferencesForCategories
          | g :: gs =>
              let maxCount :=
                list_max (Z.of_nat (length g.2)) ((λ r, Z.of_nat (length r)) <$> gs.*2) in
              VerseRows
                ((λ key, let refs := default [] (group_get key groups) in
                         let count := length refs in
                         {| row_key := key; row_count := count;
                            row_heat := heatLevel (Z.of_nat count) maxCount |})
                 <$> orderedKeys groups)
          end
      end
  end.

(** [[...new Set(l)]]: the elements of [l] in the order of their first
    occurrence; the loop over [seenBooks] in [renderWork] is the same
    function. *)
Definition set_of {A} `{EqDecision A} (l : list A) : list A :=
  foldl (λ seen x, if bool_decide (x ∈ seen) then seen else seen ++ [x]) [] l.

(** The default comparison of [Array.prototype.sort]: strings by their code
    units. *)
Fixpoint str_compare (a b : jsstring) : comparison :=
  match a, b with
  | [], [] => Eq
  | [], _ :: _ => Lt
  | _ :: _, [] => Gt
  | x :: a', y :: b' =>
      match (x ?= y)%N with
      | Eq => str_compare a' b'
      | c => c
      end
  end.

Definition str_gt (a b : jsstring) : bool :=
  match str_compare a b with Gt => true | _ => false end.

(** [[...new Set(l)].sort()]. *)
Definition sorted_set (l : list jsstring) : list jsstring :=
  array_sort str_gt (set_of l).

(** [worksById.get(r.w)?.author ?? "Unknown"]. *)
Definition author_or_unknown (worksById : gmap Z Work) (ref : Citation) : jsstring :=
  match worksById !! ref_w ref with
  | Some work => w_author work
  | None => str "Unknown"
  end.

(** A citation card: [dataset.author], [dataset.category] and the citation
    it shows. *)
Record Card := {
  card_author : jsstring;
  card_category : jsstring;
  card_ref : Citation;
}.

(** The loop that builds the cards; a citation of an unknown work has none. *)
Definition ref_cards (worksById : gmap Z Work) (refs : list Citation) : list Card :=
  omap (λ ref, work ← worksById !! ref_w ref;
               Some {| card_author := w_author work;
                       card_category := category_or_other work;
                       card_ref := ref |}) refs.

(** The options of the author filter after [All authors], and the cards. *)
Record CitationList := {
  cl_authors : list jsstring;
  cl_cards : list Card;
}.

(** [loadChapterFiltered] after its [await]. *)
Definition loadChapterFiltered_end (worksById : gmap Z Work) (chData : ChapterData)
    (verseKey : jsstring) : CitationList :=
  let filteredRefs :=
    filter (λ ref, primaryVerseKey (ref_v ref) = verseKey) (cd_refs chData) in
  {| cl_authors := sorted_set (author_or_unknown worksById <$> filteredRefs);
     cl_cards := ref_cards worksById filteredRefs |}.

(** [renderChapter]; [None] is the notice that no references were found. *)
Definition renderChapter (worksById : gmap Z Work) (chData : option ChapterData)
    : option CitationList :=
  match chData with
  | None => None
  | Some cd =>
      match cd_refs cd with
      | [] => None
      | refs =>
          Some {| cl_authors := sorted_set (author_or_unknown worksById <$> refs);
                  cl_cards := ref_cards worksById refs |}
      end
  end.

(** [applyCombinedFilter]: the [hidden] flag each card gets. *)
Definition card_hidden (authorVal : jsstring) (cats : gset jsstring) (card : Card) : bool :=
  let hiddenByAuthor :=
    negb (bool_decide (authorVal = [])) && negb (bool_decide (card_author card = authorVal)) in
  let hiddenByCat :=
    negb (bool_decide ((match card_category card with
                        | [] => str "Other"
                        | c => c
                        end) ∈ cats)) in
  hiddenByAuthor || hiddenByCat.

Definition applyCombinedFilter (authorVal : jsstring) (cats : gset jsstring)
    (cards : list Card) : list (Card * bool) :=
  (λ card, (card, card_hidden authorVal cats card)) <$> cards.

(** ** Category check boxes and the list of works *)

(** The check boxes [renderCategoryFilters] creates: value and [checked]. *)
Definition renderCategoryFilters (works : list Work) : list (jsstring * bool) :=
  (λ cat, (cat, true)) <$> sorted_set (category_or_other <$> works).

(** [checkedCategories()] for the check boxes of [categoryFiltersEl]. *)
Definition checkedCategories (boxes : list (jsstring * bool)) : gset jsstring :=
  foldl (λ checked cb, if cb.2 : bool then checked ∪ {[ cb.1 ]} else checked) ∅ boxes.

(** [worksById] after the loop of [init]. *)
Definition worksById_of (works : list Work) : gmap Z Work :=
  foldl (λ m w, <[w_id w := w]> m) ∅ works.

(** A button of the list of works: the work and whether it carries the class
    [active].  (The text of the button is not part of the model.) *)
Record WorkButton := {
  wb_work : Work;
  wb_active : bool;
}.

Section WorksList.
Variable toLowerCase : jsstring → jsstring.

Definition renderWorksList (works : list Work) (cats : gset jsstring)
    (activeWorkId : option Z) (filter : jsstring) : list WorkButton :=
  let term := toLowerCase filter in
  omap (λ work,
          if negb (bool_decide (term = []))
             && negb (includes (toLowerCase (w_author work ++ str " " ++ w_title work)) term)
          then None
          else if negb (size cats =? 0) && negb (in_cats cats work) then None
          else Some {| wb_work := work;
                       wb_active := bool_decide (activeWorkId = Some (w_id work)) |})
       works.
End WorksList.

(** ** The citations of a work *)

(** A card of [workRefsListEl]: [dataset.book] and the citation. *)
Record WorkCard := {
  wc_book : jsstring;
  wc_ref : ManuscriptRef;
}.

(** What [renderWork] writes: the options of the book filter after
    [All books], and the cards, or the notice that there are none. *)
Record RenderedWork := {
  wv_books : list jsstring;
  wv_cards : option (list WorkCard);
}.

Definition renderWork (data : WorkData) : RenderedWork :=
  {| wv_books := set_of (mr_book <$> wd_refs data);
     wv_cards := match wd_refs data with
                 | [] => None
                 | refs => Some ((λ ref, {| wc_book := mr_book ref; wc_ref := ref |}) <$> refs)
                 end |}.

(** [applyBookFilter]: the [hidden] flag each card gets. *)
Definition applyBookFilter (val : jsstring) (cards : list WorkCard)
    : list (WorkCard * bool) :=
  (λ card, (card, negb (bool_decide (val = [])) && negb (bool_decide (wc_book card = val))))
  <$> cards.

(** ** Most referenced books, and the corpus by category *)

(** The inner loop of [renderTopBooksChart] and of [renderCategoryDonut] over
    [Object.entries(ch.by_cat || {})]: the counts of the checked categories
    are added to the mapping and to the total. *)
Definition add_by_cat (cats : gset jsstring) (acc : gmap jsstring Z * Z)
    (by_cat : gmap jsstring Z) : gmap jsstring Z * Z :=
  map_fold (λ cat n a, if bool_decide (cat ∈ cats)
                       then (<[cat := (default 0 (a.1 !! cat) + n)%Z]> a.1, (a.2 + n)%Z)
                       else a)
           acc by_cat.

(** An element of [bookData] before the segments are drawn: the book,
    [total] and [byCat]. *)
Record BookTotals := {
  bt_book : Book;
  bt_total : Z;
  bt_byCat : gmap jsstring Z;
}.

Definition book_totals (cats : gset jsstring) (book : Book) : BookTotals :=
  let r := foldl (λ acc ch, add_by_cat cats acc (default ∅ (ch_by_cat ch))) (∅, 0%Z)
                 (b_chapters book) in
  {| bt_book := book; bt_total := r.2; bt_byCat := r.1 |}.

(** [.filter(b => b.total > 0).sort((a, b) => b.total - a.total).slice(0, 20)]. *)
Definition top_books (books : list Book) (cats : gset jsstring) : list BookTotals :=
  take 20 (array_sort (λ a b, (0 <? bt_total b - bt_total a)%Z)
             (filter (λ b, (0 <? bt_total b)%Z) (book_totals cats <$> books))).

(** A bar of the chart: the book, the number at its end and its segments,
    one for each category with a count that is not 0.  (The widths, computed
    in floating point, are left out.) *)
Record BookBar := {
  bb_book : Book;
  bb_total : Z;
  bb_segments : list (jsstring * Z);
}.

Inductive TopBooks :=
| TopBooksNoData
| TopBooksChart (bars : list BookBar) (allCats : list jsstring).

(** [renderTopBooksChart]; [[...cats].sort()] does not depend on the order in
    which the set is iterated. *)
Definition renderTopBooksChart (books : list Book) (cats : gset jsstring) : TopBooks :=
  match top_books books cats with
  | [] => TopBooksNoData
  | bookData =>
      let allCats := array_sort str_gt (elements cats) in
      TopBooksChart
        ((λ b, {| bb_book := bt_book b; bb_total := bt_total b;
                  bb_segments :=
                    omap (λ cat, let n := default 0%Z (bt_byCat b !! cat) in
                                 if (n =? 0)%Z then None else Some (cat, n)) allCats |})
         <$> bookData)
        allCats
  end.

(** [renderCategoryDonut]: the totals of the checked categories over all the
    books and their sum, or the notice when the sum is 0.  (The order of the
    slices among equal totals follows the order of the keys in the JSON
    file, which the model of [by_cat] does not keep; the slices are left
    out.) *)
Inductive Donut :=
| DonutNoData
| DonutChart (catTotals : gmap jsstring Z) (total : Z).

Definition donut_totals (books : list Book) (cats : gset jsstring) : gmap jsstring Z * Z :=
  foldl (λ acc book,
           foldl (λ acc ch, add_by_cat cats acc (default ∅ (ch_by_cat ch))) acc
                 (b_chapters book))
        (∅, 0%Z) books.

Definition renderCategoryDonut (books : list Book) (cats : gset jsstring) : Donut :=
  let catTotals := (donut_totals books cats).1 in
  let total := foldl (λ s e, (s + e.2)%Z) 0%Z (map_to_list catTotals) in
  if (total =? 0)%Z then DonutNoData else DonutChart catTotals total.

(** ** Texts that are loaded once

    [loadKJV] and [loadPassages] keep the payload in a variable and the
    promise of the one fetch in another.  A payload is a JSON object, hence
    truthy. *)

Inductive PromiseState (D : Type) :=
| Pending
| Fulfilled (value : option D)
| RejectedPromise.
Arguments Pending {D}.
Arguments Fulfilled {D} value.
Arguments RejectedPromise {D}.

(** [kjvData] and [kjvLoadPromise], or [passagesData] and
    [passagesLoadPromise]. *)
Record Loader (D : Type) := {
  data : option D;
  loadPromise : option (PromiseState D);
}.
Arguments data {D} _.
Arguments loadPromise {D} _.
Arguments Build_Loader {D} _ _.

(** What a call returns: the payload at once, or the stored promise. *)
Inductive LoadResult (D : Type) :=
| Now (d : D)
| Later.
Arguments Now {D} d.
Arguments Later {D}.

(** [loadKJV()]: the result, the state after the call and whether
    [fetchJSON] was called. *)
Definition loadKJV {D} (st : Loader D) : LoadResult D * Loader D * bool :=
  match data st with
  | Some d => (Now d, st, false)
  | None =>
      match loadPromise st with
      | None => (Later, {| data := None; loadPromise := Some Pending |}, true)
      | Some _ => (Later, st, false)
      end
  end.

(** The fetch of [loadKJV] settles: [.then(d => { kjvData = d; return d; })]
    and [.catch(() => null)]; [None] is a rejected fetch. *)
Definition loadKJV_settle {D} (o : option D) (st : Loader D) : Loader D :=
  match loadPromise st with
  | Some Pending =>
      match o with
      | Some d => {| data := Some d; loadPromise := Some (Fulfilled (Some d)) |}
      | None => {| data := data st; loadPromise := Some (Fulfilled None) |}
      end
  | _ => st
  end.

(** [loadPassages()] is the same function on its own variables; its promise
    has no [catch]. *)
Definition loadPassages {D} (st : Loader D) : LoadResult D * Loader D * bool :=
  match data st with
  | Some d => (Now d, st, false)
  | None =>
      match loadPromise st with
      | None => (Later, {| data := None; loadPromise := Some Pending |}, true)
      | Some _ => (Later, st, false)
      end
  end.

Definition loadPassages_settle {D} (o : option D) (st : Loader D) : Loader D :=
  match loadPromise st with
  | Some Pending =>
      match o with
      | Some d => {| data := Some d; loadPromise := Some (Fulfilled (Some d)) |}
      | None => {| data := data st; loadPromise := Some RejectedPromise |}
      end
  | _ => st
  end.

(** What [await] gives for the result of a call, in a later state. *)
Inductive Awaited (D : Type) :=
| NotYet
| Value (v : option D)
| Throws.
Arguments NotYet {D}.
Arguments Value {D} v.
Arguments Throws {D}.

Definition await {D} (r : LoadResult D) (st : Loader D) : Awaited D :=
  match r with
  | Now d => Value (Some d)
  | Later =>
      match loadPromise st with
      | Some (Fulfilled v) => Value v
      | Some RejectedPromise => Throws
      | Some Pending | None => NotYet
      end
  end.

(** ** The cache of book payloads *)








(** ** Category colours *)

Definition CAT_PALETTE : list jsstring :=
  [str "#7a5c38"; str "#4a8c6a"; str "#5c7aa8"; str "#9a6b4b";
   str "#7a4a6a"; str "#5c8a5c"; str "#8a7a4a"; str "#6a5c8a"].

(** [new Map(cats.map((c, i) => [c, CAT_PALETTE[i % CAT_PALETTE.length]]))]:
    a pair replaces an earlier one with the same key.  The index is always
    within the palette. *)
Definition palette_map (cats : list jsstring) : gmap jsstring jsstring :=
  foldl (λ m p, <[p.1 := p.2]> m) ∅
    (imap (λ i c, (c, default [] (CAT_PALETTE !! (i mod length CAT_PALETTE)))) cats).

(** [getCatColors] on the module variable [_catColorMap]: the map is built
    from the works of the index at the first call and kept.  The result is
    the map and the new value of the variable. *)
Definition getCatColors (works : list Work) (catColorMap : option (gmap jsstring jsstring))
    : gmap jsstring jsstring * option (gmap jsstring jsstring) :=
  match catColorMap with
  | Some m => (m, Some m)
  | None =>
      let cats := sorted_set (category_or_other <$> works) in
      let m := palette_map cats in
      (m, Some m)
  end.

(** [colors.get(cat) || fallback]. *)
Definition color_or (fallback : jsstring) (colors : gmap jsstring jsstring)
    (cat : jsstring) : jsstring :=
  match colors !! cat with
  | Some (c :: s) => c :: s
  | _ => fallback
  end.

(** ** Timeline lanes *)

(** [catList.indexOf(c)]; [None] stands for [-1]. *)
Definition indexOf (c : jsstring) (catList : list jsstring) : option nat :=
  fst <$> list_find (λ x, x = c) catList.

(** [catList] of [renderWorksTimeline]: the lanes, one for each category
    that has a dated work. *)
Definition timeline_catList (withYear : list Work) : list jsstring :=
  sorted_set (category_or_other <$> withYear).

(** A circle of the timeline: its work, the lane [catIdx] it is drawn in and
    its colour [col].  (The coordinates, computed in floating point, are left
    out.) *)
Record TimelineDot := {
  td_work : Work;
  td_catIdx : option nat;
  td_col : jsstring;
}.

Definition timeline_dots (colors : gmap jsstring jsstring) (withYear : list Work)
    : list TimelineDot :=
  let catList := timeline_catList withYear in
  (λ work, {| td_work := work;
              td_catIdx := indexOf (category_or_other work) catList;
              td_col := color_or (str "#7a5c38") colors (category_or_other work) |})
  <$> withYear.

(** ** Start-up *)

(** The module variables as the script sets them; the panes are as the page
    has them. *)
Definition initial_ui (p : Panels) : Ui :=
  {| ui_app := initial; activeBook := None; activeChapter := None; activeVerse := None;
     panels := p |}.

(** What [init] has set up when the index is there: [worksById], the state
    of the passages and whether their fetch was issued, the check boxes of the
    categories, the list of books, the list of works and the panes. *)
Record Startup (P : Type) := {
  su_worksById : gmap Z Work;
  su_passages : Loader P;
  su_passages_fetched : bool;
  su_categoryFilters : list (jsstring * bool);
  su_bookList : list BookEntry;
  su_worksList : list WorkButton;
  su_ui : Ui;
}.
Arguments su_worksById {P} _.
Arguments su_passages {P} _.
Arguments su_passages_fetched {P} _.
Arguments su_categoryFilters {P} _.
Arguments su_bookList {P} _.
Arguments su_worksList {P} _.
Arguments su_ui {P} _.
Arguments Build_Startup {P} _ _ _ _ _ _ _.

Inductive InitResult (P : Type) :=
| CouldNotLoadIndex
| InitDone (s : Startup P).
Arguments CouldNotLoadIndex {P}.
Arguments InitDone {P} s.

Section Init.
Variable toLowerCase : jsstring → jsstring.
Context {P : Type}.

(** [init()]; [index] is what the fetch of the index gives ([None] when it
    fails: the notice is written and nothing else is done).  [renderSidebar()]
    and [renderWorksList()] are called with the default filter. *)
Definition init (index : option (list Work * list Book)) (p : Panels) : InitResult P :=
  match index with
  | None => CouldNotLoadIndex
  | Some (works, books) =>
      let worksById := worksById_of works in
      let l := loadPassages {| data := None; loadPromise := None |} in
      let boxes := renderCategoryFilters works in
      let cats := checkedCategories boxes in
      let ui := initial_ui p in
      InitDone
        {| su_worksById := worksById;
           su_passages := l.1.2;
           su_passages_fetched := l.2;
           su_categoryFilters := boxes;
           su_bookList :=
             renderSidebar toLowerCase books cats (activeBook ui) (activeChapter ui) [];
           su_worksList :=
             renderWorksList toLowerCase works cats (activeWorkId (ui_app ui)) [];
           su_ui := setMode works cats ModeViz ui |}
  end.
End Init.

(** * Vocabulary of the statements

    Predicates and functions the theorems are stated with, and the sample
    index on which they are instantiated. *)

(** ** Sums *)

Definition Zsum (l : list Z) : Z := foldr Z.add 0%Z l.

(** The count a mapping gives to a category, 0 when it has none. *)
Definition count_of (m : gmap jsstring Z) (cat : jsstring) : Z := default 0%Z (m !! cat).

(** ** Regular expressions *)

(** The least number of code units a match of [r] consumes. *)
Fixpoint min_len (r : regex) : nat :=
  match r with
  | Chr _ => 1
  | Seq r1 r2 => min_len r1 + min_len r2
  | Alt r1 r2 => min_len r1 `min` min_len r2
  | Eps | Star _ | WordB | Eol => 0
  end.

(** The leading run of code units of a class, and what follows it. *)
Fixpoint run (p : char → bool) (s : jsstring) : jsstring :=
  match s with
  | c :: s' => if p c then c :: run p s' else []
  | [] => []
  end.

Fixpoint after_run (p : char → bool) (s : jsstring) : jsstring :=
  match s with
  | c :: s' => if p c then after_run p s' else s
  | [] => []
  end.

(** ** Sentence boundaries *)

(** The declarative reading of [re_sentence_follows]: white space, then an
    upper case letter or an opening quote or bracket. *)
Definition sentence_follows (t : jsstring) : Prop :=
  ∃ ws c rest, t = ws ++ c :: rest ∧ ws ≠ [] ∧ Forall (λ x, is_space x = true) ws
               ∧ is_opener c = true.

(** The two conditions on which the backward loop breaks at [s]: the code
    unit before [s] is a newline that starts the text or follows a newline; or
    it is a full stop, an exclamation or a question mark and a sentence
    follows. *)
Definition newline_break (text : jsstring) (s : nat) : Prop :=
  text !! (s - 1) = Some NL ∧ (s < 2 ∨ text !! (s - 2) = Some NL).

Definition sentence_break (text : jsstring) (s : nat) : Prop :=
  (∃ c, text !! (s - 1) = Some c ∧ is_stop c = true) ∧ sentence_follows (drop s text).

(** A paragraph break in the sense of the specification: two consecutive
    newlines before [s]. *)
Definition paragraph_break (text : jsstring) (s : nat) : Prop :=
  2 ≤ s ∧ text !! (s - 1) = Some NL ∧ text !! (s - 2) = Some NL.

(** ** Verse keys *)

(** A citation [renderVerseTable] keeps: its work is known and the work's
    category is checked. *)
Definition kept (worksById : gmap Z Work) (cats : gset jsstring) (ref : Citation) : bool :=
  match worksById !! ref_w ref with
  | Some work => bool_decide (category_or_other work ∈ cats)
  | None => false
  end.


(** ** Generations *)

(** What holds in every state the application can be in: the suspended calls
    carry increasing versions, none larger than the counter, and a section of
    references by date that is in the view belongs to the current version. *)
Definition current_section (st : AppState) (s : VizSection) : Prop :=
  match s with
  | BibleRefsByDate v _ => v = vizVersion st
  | _ => True
  end.

Record generations_ok (st : AppState) : Prop := {
  gen_sorted : StronglySorted lt (t_version <$> pending st);
  gen_bound : Forall (λ t, t_version t ≤ vizVersion st) (pending st);
  gen_view : Forall (current_section st) (vizView st);
}.

(** ** Settled fetches *)

(** The citation list a settled fetch contributes: the cached one, or the
    payload's, or none for a rejected fetch. *)
Definition settled_refs (net : Z → Outcome) (wf : Work * option (list ManuscriptRef))
    : list ManuscriptRef :=
  match wf.2 with
  | Some refs => refs
  | None =>
      match net (w_id wf.1) with
      | Resolved data => wd_refs data
      | Rejected => []
      end
  end.

Definition settled (net : Z → Outcome) (wf : Work * option (list ManuscriptRef))
    : WorkRefs :=
  {| wr_work := wf.1; wr_groupCounts := groupCounts_of (settled_refs net wf) |}.

(** ** Samples

    A passage that starts with a single newline. *)
Definition sample_passage : jsstring := NL :: str "8:13".

(** The sample index.

    Three works, one of them without a year and without a category; a chapter
    with six citations, one of an unknown work; the payloads of two
    manuscripts, the fetch of every other one being rejected. *)

Definition sample_index : list Work :=
  [ {| w_id := 1; w_author := str "Origen"; w_title := str "De Principiis";
       w_year := Some 230%Z; w_category := Some (str "Greek"); w_ref_count := Some 2%Z |};
    {| w_id := 2; w_author := str "Anonymous"; w_title := str "Fragment";
       w_year := None; w_category := None; w_ref_count := None |};
    {| w_id := 3; w_author := str "Luther"; w_title := str "Lectures";
       w_year := Some 1520%Z; w_category := Some (str "Latin"); w_ref_count := Some 1%Z |} ].

(** [worksById] after [init]. *)
Definition sample_works : gmap Z Work :=
  list_to_map ((λ work, (w_id work, work)) <$> sample_index).

Definition sample_active : gset jsstring := {[ str "Greek"; str "Latin"; str "Other" ]}.

Definition sample_chapter : ChapterEntry :=
  {| ch_ch := 8; ch_count := 7;
     ch_by_cat := Some {[ str "Greek" := 4%Z; str "Latin" := 3%Z ]} |}.

Definition sample_refs : list Citation :=
  [ {| ref_w := 1; ref_v := Some (str "10"); ref_p := 0 |};
    {| ref_w := 2; ref_v := Some (str "9-11"); ref_p := 1 |};
    {| ref_w := 7; ref_v := Some (str "3"); ref_p := 2 |};
    {| ref_w := 1; ref_v := None; ref_p := 3 |};
    {| ref_w := 2; ref_v := Some (str "2"); ref_p := 4 |};
    {| ref_w := 3; ref_v := Some (str "9"); ref_p := 5 |} ].

Definition sample_ref : ManuscriptRef :=
  {| mr_book := str "Romans"; mr_book_slug := str "romans"; mr_chapter := 8;
     mr_v := Some (str "13"); mr_p := 0 |}.

Definition sample_data (refs : list ManuscriptRef) : WorkData :=
  {| wd_title := str "De Principiis"; wd_author := str "Origen"; wd_refs := refs |}.

Definition sample_net (workId : Z) : Outcome :=
  if (workId =? 1)%Z then
    Resolved (sample_data
      [ sample_ref;
        {| mr_book := str "Genesis"; mr_book_slug := str "genesis"; mr_chapter := 1;
           mr_v := None; mr_p := 1 |} ])
  else if (workId =? 3)%Z then Resolved (sample_data [sample_ref])
  else Rejected.

(** The call of [renderBibleRefsByDate] that the first [renderVizTab]
    suspends. *)
Definition sample_begin : RefsByDate * option Task :=
  Eval vm_compute in renderBibleRefsByDate_begin sample_index sample_active 1 ∅.

Definition sample_task : Task :=
  Eval vm_compute in default {| t_version := 0; t_works := [] |} sample_begin.2.

(** ** Escaping *)

(** What [esc] writes for one code unit. *)
Definition esc_char (c : char) : jsstring :=
  if (c =? cu "&")%N then str "&amp;"
  else if (c =? cu "<")%N then str "&lt;"
  else if (c =? cu ">")%N then str "&gt;"
  else if (c =? 34)%N then str "&quot;"
  else [c].

(** ** Roman numerals *)

Definition roman_digit (c : char) : N :=
  if (c =? cu "i")%N then 1
  else if (c =? cu "v")%N then 5
  else if (c =? cu "x")%N then 10
  else if (c =? cu "l")%N then 50
  else if (c =? cu "c")%N then 100
  else 0.

(** The number a numeral stands for: a digit smaller than the one after it
    is subtracted, every other one added. *)
Fixpoint roman_value (s : jsstring) : N :=
  match s with
  | [] => 0
  | c :: s' =>
      match s' with
      | d :: _ =>
          if (roman_digit c <? roman_digit d)%N then (roman_value s' - roman_digit c)%N
          else (roman_digit c + roman_value s')%N
      | [] => roman_digit c
      end
  end.

Fixpoint repeat_str (k : nat) (sym : jsstring) : jsstring :=
  match k with
  | 0 => []
  | S k' => sym ++ repeat_str k' sym
  end.

Definition roman_step (rn : jsstring * N) (vs : N * jsstring) : jsstring * N :=
  roman_while (N.to_nat rn.2) vs.1 vs.2 rn.1 rn.2.

(** ** Heat levels in whole numbers *)

(** The scale of [heatLevel] for a positive maximum, without the division. *)
Definition heatLevel_cross (count max : Z) : nat :=
  if (count =? 0)%Z then 0
  else if (100 * count <? 15 * max)%Z then 1
  else if (100 * count <? 40 * max)%Z then 2
  else if (100 * count <? 70 * max)%Z then 3
  else 4.

(** ** Panes *)

(** The five elements of which the page shows one. *)
Inductive Pane := Welcome | VerseView | ChapterView | WorkView | VizView.

(** The panes that are not hidden. *)
Definition visible_panes (p : Panels) : list Pane :=
  (if welcomeEl_hidden p then [] else [Welcome])
  ++ (if verseViewEl_hidden p then [] else [VerseView])
  ++ (if chapterViewEl_hidden p then [] else [ChapterView])
  ++ (if workViewEl_hidden p then [] else [WorkView])
  ++ (if vizViewEl_hidden p then [] else [VizView]).

(** The pane that belongs to a mode and a selection. *)
Definition pane_of (mode : Mode) (chapter : option Z) (verse : option jsstring)
    (workId : option Z) : Pane :=
  match mode with
  | ModeViz => VizView
  | ModeScripture =>
      match chapter, verse with
      | None, _ => Welcome
      | Some _, None => VerseView
      | Some _, Some _ => ChapterView
      end
  | ModeWorks => match workId with None => Welcome | Some _ => WorkView end
  end.

(** A sample index of two books, the second one without citations in the
    sample categories. *)
Definition sample_books : list Book :=
  [ {| b_name := str "Romans"; b_slug := str "romans";
       b_chapters := [ {| ch_ch := 7; ch_count := 0; ch_by_cat := Some ∅ |};
                       sample_chapter ] |};
    {| b_name := str "Jude"; b_slug := str "jude";
       b_chapters := [ {| ch_ch := 1; ch_count := 2;
                          ch_by_cat := Some {[ str "Syriac" := 2%Z ]} |} ] |} ].

Definition sample_ui : Ui :=
  {| ui_app := initial; activeBook := None; activeChapter := None; activeVerse := None;
     panels := {| scripturePanelEl_hidden := false; worksPanelEl_hidden := false;
                  sidebarEl_hidden := false; vizViewEl_hidden := false;
                  welcomeEl_hidden := false; verseViewEl_hidden := false;
                  chapterViewEl_hidden := false; workViewEl_hidden := false |} |}.

(** ** Citation cards *)

(** The cards [applyCombinedFilter] leaves visible. *)
Definition visible_cards (authorVal : jsstring) (cats : gset jsstring) (cards : list Card)
    : list Card :=
  (filter (λ ch, ch.2 = false) (applyCombinedFilter authorVal cats cards)).*1.

(** The order of strings by code units. *)
Definition str_le (a b : jsstring) : Prop := str_compare a b ≠ Gt.
Definition str_lt (a b : jsstring) : Prop := str_compare a b = Lt.

(** The sample chapter with its citations. *)
Definition sample_chData : ChapterData := {| cd_ch := 8; cd_refs := sample_refs |}.

(** ** Filters *)

(** The cards [applyBookFilter] leaves visible. *)
Definition visible_work_cards (val : jsstring) (cards : list WorkCard) : list WorkCard :=
  (filter (λ ch, ch.2 = false) (applyBookFilter val cards)).*1.

(** ** Counts by category *)

(** What a chapter adds to a chart that reads [by_cat] only: a chapter of
    the old format adds nothing. *)
Definition by_cat_count (cats : gset jsstring) (c : ChapterEntry) : Z :=
  match ch_by_cat c with
  | Some m => sum_active cats m
  | None => 0%Z
  end.

(** ** Sections of Scripture *)

(** The section a citation is counted in. *)
Definition ref_group (r : ManuscriptRef) : jsstring := book_group (mr_book_slug r).

(** The works of a suspended call whose year is in the bucket that starts at
    [start]. *)
Definition in_era (start BUCKET : Z) (wf : Work * option (list ManuscriptRef)) : bool :=
  match w_year wf.1 with
  | Some y => (start <=? y)%Z && (y <? start + BUCKET)%Z
  | None => false
  end.

(** The works of a year of [start] or later. *)
Definition year_ge (start : Z) (x : WorkRefs) : bool :=
  from_option (λ y, (start <=? y)%Z) false (w_year (wr_work x)).

(** ** Cached citation lists *)


(** ** Texts that are loaded once *)

(** A call, or the settlement of the fetch. *)
Inductive LoaderEvent (D : Type) :=
| Call
| Settle (o : option D).
Arguments Call {D}.
Arguments Settle {D} o.

(** The state after some events, and the number of fetches they start. *)
Fixpoint run_loadKJV {D} (evs : list (LoaderEvent D)) (st : Loader D) : Loader D * nat :=
  match evs with
  | [] => (st, 0)
  | Call :: evs' =>
      let r := loadKJV st in
      let s := run_loadKJV evs' r.1.2 in
      (s.1, (if r.2 then 1 else 0) + s.2)
  | Settle o :: evs' => run_loadKJV evs' (loadKJV_settle o st)
  end.

Fixpoint run_loadPassages {D} (evs : list (LoaderEvent D)) (st : Loader D)
    : Loader D * nat :=
  match evs with
  | [] => (st, 0)
  | Call :: evs' =>
      let r := loadPassages st in
      let s := run_loadPassages evs' r.1.2 in
      (s.1, (if r.2 then 1 else 0) + s.2)
  | Settle o :: evs' => run_loadPassages evs' (loadPassages_settle o st)
  end.

(** The variables before the first call. *)
Definition not_loaded {D} : Loader D := {| data := None; loadPromise := None |}.

(** A state in which the fetch has been started, and one in which it has
    settled. *)
Definition started {D} (st : Loader D) : Prop := is_Some (loadPromise st).

Definition settled_load {D} (st : Loader D) : Prop :=
  ∃ p, loadPromise st = Some p ∧ p ≠ Pending.

(** ** What a pattern matches

    The code unit before a position after [u] has been read. *)
Definition prev_after (prev : option char) (u : jsstring) : option char :=
  match last u with
  | Some c => Some c
  | None => prev
  end.

(** [matches r prev u rest]: the pattern [r] can match the code units [u]
    when [prev] is the code unit before them and [rest] follows them. *)
Inductive matches : regex → option char → jsstring → jsstring → Prop :=
| matches_Eps prev rest : matches Eps prev [] rest
| matches_Chr p prev c rest : p c = true → matches (Chr p) prev [c] rest
| matches_Seq r1 r2 prev u v rest :
    matches r1 prev u (v ++ rest) → matches r2 (prev_after prev u) v rest →
    matches (Seq r1 r2) prev (u ++ v) rest
| matches_Alt_l r1 r2 prev u rest : matches r1 prev u rest → matches (Alt r1 r2) prev u rest
| matches_Alt_r r1 r2 prev u rest : matches r2 prev u rest → matches (Alt r1 r2) prev u rest
| matches_Star p prev u rest : Forall (λ c, p c = true) u → matches (Star p) prev u rest
| matches_WordB prev rest :
    xorb (opt_word prev) (opt_word (head rest)) = true → matches WordB prev [] rest
| matches_Eol prev : matches Eol prev [] [].

(** Equality of a text with a literal of a pattern under the [i] flag. *)
Definition ci_eq (pattern text : jsstring) : Prop :=
  Forall2 (λ p c, is_char_ci p c = true) pattern text.

(** A citation of a verse of a chapter: the chapter in Arabic or Roman
    numerals, at least one full stop, colon or white space, the verse, and
    then no letter, digit or underscore. *)
Definition cites (chapter : N) (verseStart : jsstring) (u rest : jsstring) : Prop :=
  ∃ c sep,
    u = c ++ sep ++ verseStart
    ∧ (ci_eq (String_of_N chapter) c ∨ ci_eq (toRoman chapter) c)
    ∧ sep ≠ [] ∧ Forall (λ x, is_sep x = true) sep
    ∧ opt_word (head rest) = false.

(** The verse a locator starts with, when it is one. *)
Definition digits_only (s : jsstring) : Prop := s ≠ [] ∧ Forall (λ c, is_digit c = true) s.

(** The two conditions on which the forward loop stops at the code unit at
    [e]: it is a newline and a newline follows it; or it is a full stop, an
    exclamation or a question mark and what follows it, once the closing
    quotes and brackets next to it are skipped, is a sentence or is white
    space up to the end of the text (possibly nothing). *)
Definition paragraph_ahead (text : jsstring) (e : nat) : Prop :=
  text !! e = Some NL ∧ text !! (e + 1) = Some NL.

Definition sentence_stop (text : jsstring) (e : nat) : Prop :=
  (∃ c, text !! e = Some c ∧ is_stop c = true)
  ∧ (sentence_follows (after_run is_closer (drop (e + 1) text))
     ∨ Forall (λ x, is_space x = true) (after_run is_closer (drop (e + 1) text))).

(** A work dated no later than another. *)
Definition year_le (a b : Work) : Prop :=
  match w_year a, w_year b with
  | Some x, Some y => (x ≤ y)%Z
  | _, _ => False
  end.

(** A small index with three categories, one of them missing. *)
Definition sample_color_works : list Work :=
  [ {| w_id := 1; w_author := str "A"; w_title := str "T"; w_year := Some 350%Z;
       w_category := Some (str "Latin"); w_ref_count := Some 3%Z |};
    {| w_id := 2; w_author := str "B"; w_title := str "U"; w_year := Some 200%Z;
       w_category := Some (str "Greek"); w_ref_count := None |};
    {| w_id := 3; w_author := str "C"; w_title := str "V"; w_year := None;
       w_category := None; w_ref_count := Some 1%Z |} ].

(** * Proofs *)

(** ** Heat map scale *)

Lemma js_lt_Fin (q y : Q) : js_lt (Fin q) y = true ↔ (q < y)%Q.
Proof.
  unfold js_lt. rewrite Qlt_alt. destruct (q ?= y)%Q; split; congruence.
Qed.

Lemma js_lt_Fin_false (q y : Q) : js_lt (Fin q) y = false ↔ (y <= q)%Q.
Proof.
  split.
  - intros H. apply Qnot_lt_le. intros Hlt. apply js_lt_Fin in Hlt. congruence.
  - intros H. destruct (js_lt (Fin q) y) eqn:E; [|done].
    apply js_lt_Fin in E. by apply Qlt_not_le in E.
Qed.


(** The literals are the correctly rounded quotients, and on all counts and
    maxima below 100 the rational model returns what the doubles return. *)
Lemma f64_literals :
  f64_div (f64_of_Z 15) (f64_of_Z 100) = f64_0_15
  ∧ f64_div (f64_of_Z 40) (f64_of_Z 100) = f64_0_40
  ∧ f64_div (f64_of_Z 70) (f64_of_Z 100) = f64_0_70.
Proof. by vm_compute. Qed.

Lemma heatLevel_f64_agrees :
  Forall (λ count, Forall (λ max, heatLevel_f64 count max = heatLevel count max)
                          (Z.of_nat <$> seq 0 100))
         (Z.of_nat <$> seq 0 100).
Proof.
  apply Forall_forall. intros count Hc. apply Forall_forall. intros max Hm.
  assert (H : forallb (λ c, forallb (λ m, heatLevel_f64 c m =? heatLevel c m)
                                    (Z.of_nat <$> seq 0 100))
                      (Z.of_nat <$> seq 0 100) = true) by (vm_compute; reflexivity).
  rewrite forallb_forall in H. specialize (H count (proj1 (list_elem_of_In _ _) Hc)).
  rewrite forallb_forall in H. specialize (H max (proj1 (list_elem_of_In _ _) Hm)).
  by apply Nat.eqb_eq.
Qed.



(** ** Category filter *)

Lemma sum_active_empty cats : sum_active cats ∅ = 0%Z.
Proof. apply map_fold_empty. Qed.

Lemma sum_active_insert cats m cat n :
  m !! cat = None →
  sum_active cats (<[cat := n]> m)
  = (sum_active cats m + if bool_decide (cat ∈ cats) then n else 0)%Z.
Proof.
  intros Hm. unfold sum_active.
  rewrite map_fold_insert_L; [| |done].
  - case_bool_decide; lia.
  - intros. repeat case_bool_decide; lia.
Qed.

Lemma Zsum_cons (x : Z) (l : list Z) : Zsum (x :: l) = (x + Zsum l)%Z.
Proof. reflexivity. Qed.

Lemma Zsum_Permutation (l1 l2 : list Z) : l1 ≡ₚ l2 → Zsum l1 = Zsum l2.
Proof. induction 1; rewrite ?Zsum_cons; lia. Qed.

Lemma Zsum_indicator (l : list jsstring) cat n :
  NoDup l →
  Zsum ((λ c, if decide (c = cat) then n else 0%Z) <$> l)
  = if bool_decide (cat ∈ l) then n else 0%Z.
Proof.
  induction 1 as [|c l Hc Hl IH]; [done|].
  rewrite fmap_cons, Zsum_cons, IH. destruct (decide (c = cat)) as [->|Hne].
  - rewrite (bool_decide_eq_false_2 (cat ∈ l)) by done.
    rewrite bool_decide_eq_true_2 by apply list_elem_of_here. lia.
  - destruct (bool_decide_reflect (cat ∈ l)) as [Hin|Hin].
    + rewrite bool_decide_eq_true_2 by (by apply list_elem_of_further). lia.
    + rewrite bool_decide_eq_false_2; [lia|].
      intros [?|?]%elem_of_cons; congruence.
Qed.

Lemma Zsum_fmap_add {A} (f g : A → Z) (l : list A) :
  Zsum ((λ x, f x + g x)%Z <$> l) = (Zsum (f <$> l) + Zsum (g <$> l))%Z.
Proof. induction l as [|x l IH]; [done|]. rewrite !fmap_cons, !Zsum_cons, IH. lia. Qed.

Lemma Zsum_fmap_ext {A} (f g : A → Z) (l : list A) :
  (∀ x, f x = g x) → Zsum (f <$> l) = Zsum (g <$> l).
Proof.
  intros H. induction l as [|x l IH]; [done|].
  by rewrite !fmap_cons, !Zsum_cons, IH, H.
Qed.

Lemma sum_active_sum cats m :
  sum_active cats m = Zsum (count_of m <$> elements cats).
Proof.
  induction m as [|cat n m Hm IH] using map_ind.
  - rewrite sum_active_empty. induction (elements cats) as [|c l IHl]; [done|].
    rewrite fmap_cons, Zsum_cons, <- IHl. unfold count_of. by rewrite lookup_empty.
  - rewrite sum_active_insert by done. rewrite IH.
    rewrite (Zsum_fmap_ext (count_of (<[cat:=n]> m))
               (λ c, count_of m c + if decide (c = cat) then n else 0)%Z).
    + rewrite Zsum_fmap_add, Zsum_indicator by apply NoDup_elements.
      f_equal. rewrite (bool_decide_ext (cat ∈ elements cats) (cat ∈ cats)); [done|].
      apply elem_of_elements.
    + intros c. unfold count_of. destruct (decide (c = cat)) as [->|Hne].
      * rewrite lookup_insert_eq, Hm. simpl. lia.
      * rewrite lookup_insert_ne by done. lia.
Qed.

Lemma sum_active_all cats m :
  dom m ⊆ cats → sum_active cats m = Zsum (map_to_list m).*2.
Proof.
  induction m as [|cat n m Hm IH] using map_ind; intros Hdom.
  - by rewrite sum_active_empty, map_to_list_empty.
  - rewrite sum_active_insert by done.
    rewrite bool_decide_eq_true_2 by set_solver.
    rewrite IH by (rewrite dom_insert in Hdom; set_solver).
    assert (HP : (map_to_list (<[cat:=n]> m)).*2 ≡ₚ n :: (map_to_list m).*2).
    { by rewrite map_to_list_insert. }
    rewrite (Zsum_Permutation _ _ HP), Zsum_cons. lia.
Qed.

Lemma sum_active_none m : sum_active ∅ m = 0%Z.
Proof.
  rewrite sum_active_sum, elements_empty. done.
Qed.

Lemma filteredCount_by_cat c cats m :
  ch_by_cat c = Some m → filteredCount c cats = sum_active cats m.
Proof. intros Hm. unfold filteredCount. by rewrite Hm. Qed.

(** C3. For a chapter with a per-category mapping, [filteredCount] is the sum,
    over the categories of the active set, of the chapter's count for the
    category, a category without a count adding 0; so it is the sum [T] of
    all the counts when every category of the chapter is active (the
    chapter's [count], when that is the sum of its counts), and 0 for the
    empty set.  For a chapter without the mapping it is the chapter's
    [count]. *)
Theorem filteredCount_sum (c : ChapterEntry) (cats : gset jsstring) :
  (∀ m, ch_by_cat c = Some m →
     filteredCount c cats = Zsum (count_of m <$> elements cats)
     ∧ (dom m ⊆ cats → filteredCount c cats = Zsum (map_to_list m).*2)
     ∧ (dom m ⊆ cats → ch_count c = Zsum (map_to_list m).*2 →
        filteredCount c cats = ch_count c)
     ∧ filteredCount c ∅ = 0%Z)
  ∧ (ch_by_cat c = None → filteredCount c cats = ch_count c).
Proof.
  split.
  - intros m Hm. rewrite !(filteredCount_by_cat _ _ m Hm).
    split; [apply sum_active_sum|]. split; [apply sum_active_all|].
    split; [|apply sum_active_none]. intros Hdom ->. by apply sum_active_all.
  - intros Hm. unfold filteredCount. by rewrite Hm.
Qed.

(** With every category active the sample chapter counts its seven citations. *)
Lemma filteredCount_sum_witness : filteredCount sample_chapter sample_active = 7%Z.
Proof.
  destruct (filteredCount_sum sample_chapter sample_active) as [H _].
  destruct (H _ eq_refl) as (_ & Hall & _ & _).
  rewrite Hall; [by vm_compute|].
  apply (bool_decide_unpack _). by vm_compute.
Defined.

(** ** Regular expressions *)

Section MatcherFacts.
Context {A : Type}.
Implicit Types (k : option char → jsstring → option A) (s : jsstring).

(** A successful greedy star consumed a run of the class and handed the
    rest to the continuation. *)
Lemma star_match_Some p prev s k x :
  star_match p prev s k = Some x →
  ∃ ws rest prev', s = ws ++ rest ∧ Forall (λ c, p c = true) ws ∧ k prev' rest = Some x.
Proof.
  revert prev. induction s as [|c s IH]; intros prev H; simpl in H.
  - by exists [], [], prev.
  - destruct (p c) eqn:Hp; [|by exists [], (c :: s), prev].
    destruct (star_match p (Some c) s k) as [y|] eqn:Hrec.
    + inversion H; subst y. destruct (IH _ Hrec) as (ws & rest & prev' & -> & Hws & Hk).
      exists (c :: ws), rest, prev'. by repeat constructor.
    + by exists [], (c :: s), prev.
Qed.

(** The star finds a match whenever the continuation accepts what follows
    some run of the class. *)
Lemma star_match_is_Some p prev ws rest k :
  Forall (λ c, p c = true) ws →
  (∀ prev', is_Some (k prev' rest)) →
  is_Some (star_match p prev (ws ++ rest) k).
Proof.
  intros Hws Hk. revert prev. induction Hws as [|c ws Hc Hws IH]; intros prev; simpl.
  - destruct rest as [|c rest]; simpl; [done|]. destruct (p c); [|done].
    destruct (star_match p (Some c) rest k); [by eexists|done].
  - rewrite Hc. destruct (IH (Some c)) as [y ->]. by eexists.
Qed.

Lemma star_match_stop p prev s k :
  from_option p false (head s) = false → star_match p prev s k = k prev s.
Proof. destruct s as [|c s]; simpl; [done|]. by intros ->. Qed.

(** Every match consumes at least [min_len r] code units of the input. *)
Lemma rematch_min_len r prev s k x :
  rematch r prev s k = Some x →
  ∃ prev' rest, k prev' rest = Some x ∧ length rest + min_len r ≤ length s.
Proof.
  revert prev s k x. induction r as [|p|r1 IH1 r2 IH2|r1 IH1 r2 IH2|p| |];
    intros prev s k x H; simpl in H.
  - exists prev, s. simpl. split; [done|lia].
  - destruct s as [|c s]; [done|]. destruct (p c); [|done].
    exists (Some c), s. simpl. split; [done|lia].
  - apply IH1 in H as (prev1 & rest1 & H & Hl1).
    apply IH2 in H as (prev2 & rest2 & H & Hl2).
    exists prev2, rest2. simpl. split; [done|lia].
  - destruct (rematch r1 prev s k) as [y|] eqn:H1.
    + inversion H; subst y. apply IH1 in H1 as (prev1 & rest1 & Hk & Hl).
      exists prev1, rest1. simpl. split; [done|lia].
    + apply IH2 in H as (prev1 & rest1 & Hk & Hl).
      exists prev1, rest1. simpl. split; [done|lia].
  - apply star_match_Some in H as (ws & rest & prev' & -> & _ & Hk).
    exists prev', rest. rewrite length_app. simpl. split; [done|lia].
  - destruct (xorb _ _); [|done]. exists prev, s. simpl. split; [done|lia].
  - destruct s; [|done]. exists prev, []. simpl. split; [done|lia].
Qed.
End MatcherFacts.

Lemma match_here_bounds r prev s n :
  match_here r prev s = Some n → min_len r ≤ n ≤ length s.
Proof.
  unfold match_here. intros H.
  apply rematch_min_len in H as (prev' & rest & H & Hl).
  inversion H. lia.
Qed.

Lemma exec_from_bounds r prev s i index len :
  exec_from r prev s i = Some (index, len) →
  i ≤ index ∧ min_len r ≤ len ∧ index + len ≤ i + length s.
Proof.
  revert prev i. induction s as [|c s IH]; intros prev i H; simpl in H.
  - destruct (match_here r prev []) as [n|] eqn:Hm; [|done].
    inversion H; subst. apply match_here_bounds in Hm. simpl in *. lia.
  - destruct (match_here r prev (c :: s)) as [n|] eqn:Hm.
    + inversion H; subst. apply match_here_bounds in Hm. simpl in *. lia.
    + apply IH in H. simpl. lia.
Qed.

(** [re.exec(text)] returns a non-empty match that lies within the text. *)
Lemma exec_bounds r text index len :
  exec r text = Some (index, len) → min_len r ≤ len ∧ index + len ≤ length text.
Proof. intros H. apply exec_from_bounds in H. lia. Qed.

Lemma verse_pattern_min_len chapter verseStart :
  1 ≤ min_len (verse_pattern chapter verseStart).
Proof. unfold verse_pattern, Plus. cbn [min_len]. lia. Qed.

Lemma test_sentence_follows t :
  test_prefix re_sentence_follows t = true ↔ sentence_follows t.
Proof.
  unfold test_prefix, match_here, re_sentence_follows, Plus.
  rewrite bool_decide_eq_true. simpl. split.
  - intros [n H]. destruct t as [|c0 t]; [done|].
    destruct (is_space c0) eqn:H0; [|done].
    apply star_match_Some in H as (ws & rest & prev' & -> & Hws & H).
    destruct rest as [|c rest]; [done|]. destruct (is_opener c) eqn:Hc; [|done].
    exists (c0 :: ws), c, rest. repeat split; [done|by constructor|done].
  - intros (ws & c & rest & -> & Hne & Hws & Hc).
    destruct ws as [|c0 ws]; [done|]. inversion Hws; subst. simpl.
    rewrite H1. apply star_match_is_Some; [done|]. intros prev'. rewrite Hc. by eexists.
Qed.

(** ** Passage highlighting *)

(** The loop of [toRoman] stops because its condition fails, not because the
    fuel is used up. *)
Lemma roman_while_done fuel val sym r n :
  (0 < val)%N → N.to_nat n ≤ fuel →
  ((roman_while fuel val sym r n).2 < val)%N.
Proof.
  intros Hval. revert r n. induction fuel as [|fuel IH]; intros r n Hfuel; simpl.
  - lia.
  - destruct (N.leb_spec val n); [|done]. apply IH. lia.
Qed.

Lemma scan_back_step text s :
  scan_back text (S s) =
    if bool_decide (text !! s = Some NL)
       && ((S s <? 2) || bool_decide (text !! (S s - 2) = Some NL))
    then S s
    else if from_option is_stop false (text !! s)
            && test_prefix re_sentence_follows (slice_from (S s) text)
    then S s
    else scan_back text s.
Proof. reflexivity. Qed.

Lemma newline_break_decide text s :
  bool_decide (text !! s = Some NL)
  && ((S s <? 2) || bool_decide (text !! (S s - 2) = Some NL)) = true
  ↔ newline_break text (S s).
Proof.
  unfold newline_break. replace (S s - 1) with s by lia.
  rewrite andb_true_iff, orb_true_iff, !bool_decide_eq_true, Nat.ltb_lt. done.
Qed.

Lemma sentence_break_decide text s :
  from_option is_stop false (text !! s)
  && test_prefix re_sentence_follows (slice_from (S s) text) = true
  ↔ sentence_break text (S s).
Proof.
  unfold sentence_break, slice_from. replace (S s - 1) with s by lia.
  rewrite andb_true_iff, test_sentence_follows. split.
  - intros [H ?]. split; [|done]. destruct (text !! s) as [c|]; [|done]. by exists c.
  - intros [(c & -> & H) ?]. done.
Qed.

Lemma scan_back_le text s : scan_back text s ≤ s.
Proof.
  induction s as [|s IH]; [done|]. rewrite scan_back_step.
  repeat case_match; lia.
Qed.

(** Where the backward loop ends: at the start of the text or at the
    nearest position before [index] at which one of its two tests holds. *)
Lemma scan_back_spec text index :
  let s := scan_back text index in
  (s = 0 ∨ newline_break text s ∨ sentence_break text s)
  ∧ (∀ j, s < j ≤ index → ¬ newline_break text j ∧ ¬ sentence_break text j).
Proof.
  induction index as [|i IH]; [split; [by left|intros; lia]|].
  cbv zeta. rewrite scan_back_step.
  destruct (bool_decide _ && (_ || _)) eqn:E1.
  { apply newline_break_decide in E1. split; [auto|intros; lia]. }
  destruct (from_option _ _ _ && _) eqn:E2.
  { apply sentence_break_decide in E2. split; [auto|intros; lia]. }
  destruct IH as [IH1 IH2]. split; [done|].
  intros j Hj. destruct (decide (j = S i)) as [->|].
  - split; intros H.
    + apply newline_break_decide in H. congruence.
    + apply sentence_break_decide in H. congruence.
  - apply IH2. lia.
Qed.

Lemma skip_spaces_spec gap text s :
  let s' := skip_spaces gap text s in
  s ≤ s' ≤ s + gap
  ∧ (∀ j, s ≤ j < s' → text !! j = Some (cu " "))
  ∧ (s' < s + gap → text !! s' ≠ Some (cu " ")).
Proof.
  revert s. induction gap as [|gap IH]; intros s; simpl.
  { split; [lia|]. split; intros; lia. }
  case_bool_decide as Hs.
  - destruct (IH (S s)) as (H1 & H2 & H3). split; [lia|]. split.
    + intros j Hj. destruct (decide (j = s)) as [->|]; [done|]. apply H2. lia.
    + intros Hlt. apply H3. lia.
  - split; [lia|]. split; [intros; lia|done].
Qed.

Lemma scan_fwd_ge gap text e : e ≤ scan_fwd gap text e.
Proof.
  revert e. induction gap as [|gap IH]; intros e; simpl; [done|].
  repeat case_match; try lia. specialize (IH (e + 1)). lia.
Qed.

Lemma sentence_start_le text index : sentence_start text index ≤ index.
Proof.
  unfold sentence_start.
  pose proof (scan_back_le text index).
  pose proof (skip_spaces_spec (index - scan_back text index) text (scan_back text index)).
  simpl in *. lia.
Qed.

Lemma sentence_end_ge text e : e ≤ sentence_end text e.
Proof. apply scan_fwd_ge. Qed.

Lemma slices_concat (text : jsstring) s e :
  s ≤ e → slice 0 s text ++ slice s e text ++ slice_from e text = text.
Proof.
  intros Hse. unfold slice, slice_from. rewrite drop_0, Nat.sub_0_r.
  rewrite <- (take_drop s text) at 4. f_equal.
  rewrite <- (take_drop (e - s) (drop s text)) at 2. f_equal.
  rewrite drop_drop. f_equal. lia.
Qed.

(** The cases in which [highlightPassage] marks a sentence. *)
Lemma highlightSpans_Marked text chapter verseKey prefix highlighted suffix :
  highlightSpans text chapter verseKey = Marked prefix highlighted suffix →
  ∃ vk index len,
    verseKey = Some vk ∧ vk ≠ [] ∧ vk ≠ str "whole" ∧ text ≠ []
    ∧ exec (verse_pattern chapter (trim (split_head vk))) text = Some (index, len)
    ∧ prefix = slice 0 (sentence_start text index) text
    ∧ highlighted = slice (sentence_start text index) (sentence_end text (index + len)) text
    ∧ suffix = slice_from (sentence_end text (index + len)) text.
Proof.
  unfold highlightSpans. intros H.
  destruct text as [|c text]; [done|].
  destruct verseKey as [[|v vk]|]; [done| |done].
  destruct (decide (v :: vk = str "whole")); [done|].
  destruct (_ || _); [done|].
  destruct (exec _ _) as [[index len]|] eqn:He; [|done].
  inversion H; subst. by exists (v :: vk), index, len.
Qed.

Lemma Marked_nonempty text chapter verseKey prefix highlighted suffix :
  highlightSpans text chapter verseKey = Marked prefix highlighted suffix →
  highlighted ≠ [].
Proof.
  intros H. apply highlightSpans_Marked in H
    as (vk & index & len & _ & _ & _ & _ & He & _ & -> & _).
  apply exec_bounds in He as [Hlen Hend].
  pose proof (verse_pattern_min_len chapter (trim (split_head vk))).
  pose proof (sentence_start_le text index).
  pose proof (sentence_end_ge text (index + len)).
  intros Hnil. apply (f_equal length) in Hnil. revert Hnil.
  unfold slice. rewrite length_take, length_drop. simpl. lia.
Qed.

(** C1. The three parts [highlight] returns concatenate to the passage text;
    when the verse locator is null or [whole], or the text is empty, the
    highlighted part is empty and the prefix is the whole text.  The HTML
    that [highlightPassage] returns is the escaped prefix, the escaped
    highlighted part inside a [mark] element when there is one, and the
    escaped suffix. *)
Theorem highlight_concat (text : jsstring) (chapter : N) (verseLocator : option jsstring)
    (prefix highlighted suffix : jsstring) :
  highlight text chapter verseLocator = (prefix, highlighted, suffix) →
  prefix ++ highlighted ++ suffix = text
  ∧ (verseLocator = None ∨ verseLocator = Some (str "whole") ∨ text = [] →
     highlighted = [] ∧ prefix = text)
  ∧ highlightPassage text chapter verseLocator
    = esc prefix
      ++ (if decide (highlighted = []) then []
          else str "<mark>" ++ esc highlighted ++ str "</mark>")
      ++ esc suffix.
Proof.
  unfold highlight, highlightPassage.
  destruct (highlightSpans text chapter verseLocator) as [t|p h s] eqn:Hs; intros Heq;
    inversion Heq; subst; clear Heq.
  - assert (Ht : prefix = text).
    { revert Hs. unfold highlightSpans. repeat case_match; congruence. }
    subst. split; [by rewrite !app_nil_r|]. split; [done|].
    simpl. by rewrite !app_nil_r.
  - pose proof (Marked_nonempty _ _ _ _ _ _ Hs) as Hne.
    apply highlightSpans_Marked in Hs
      as (vk & index & len & -> & Hvk & Hwhole & Htext & He & -> & -> & ->).
    apply exec_bounds in He as [_ Hend].
    pose proof (sentence_start_le text index).
    pose proof (sentence_end_ge text (index + len)).
    split; [apply slices_concat; lia|]. split.
    + intros [?|[?|?]]; congruence.
    + cbn [render]. destruct (decide _) as [Hnil|_]; [done|]. by rewrite <- !app_assoc.
Qed.

(** With the locator [whole] nothing is highlighted. *)
Lemma highlight_concat_witness :
  highlight (str "See Rom. 8:13 now.") 8 (Some (str "whole"))
  = (str "See Rom. 8:13 now.", [], [])
  ∧ str "See Rom. 8:13 now." ++ [] ++ [] = str "See Rom. 8:13 now.".
Proof.
  assert (H : highlight (str "See Rom. 8:13 now.") 8 (Some (str "whole"))
              = (str "See Rom. 8:13 now.", [], [])) by reflexivity.
  split; [exact H|]. exact (proj1 (highlight_concat _ _ _ _ _ _ H)).
Defined.

(** Against C4 as it is stated: the loop that looks for the start of the
    sentence also breaks at a single newline that is the first code unit of
    the text; the sentence then starts after that newline, at a position that
    is neither the start of the text nor after a paragraph break or a
    sentence end. *)
Lemma scan_back_single_newline :
  exec (verse_pattern 8 (str "13")) sample_passage = Some (1, 4)
  ∧ scan_back sample_passage 1 = 1
  ∧ ¬ paragraph_break sample_passage 1
  ∧ ¬ sentence_break sample_passage 1
  ∧ highlight sample_passage 8 (Some (str "13")) = ([NL], str "8:13", []).
Proof.
  split; [by vm_compute|]. split; [by vm_compute|].
  split; [unfold paragraph_break; lia|]. split; [|by vm_compute].
  intros [(c & Hc & Hstop) _]. simpl in Hc. inversion Hc; subst c.
  by vm_compute in Hstop.
Qed.

(** C4 (amended). When the pattern matches at [index], the backward loop
    ends at the start of the text, or at the nearest position before
    [index] that follows a newline which is the first code unit of the text
    or itself follows a newline, or that follows a [.], [!] or [?] which is
    followed by white space and then an upper case letter or an opening
    quote or bracket; the prefix then grows over the plain spaces found
    there, up to [index].  In the sample sentence the start is put before
    [Rom.], not after its period. *)
Theorem sentence_start_spec :
  (∀ (text : jsstring) (chapter : N) (verseKey : option jsstring)
     (prefix highlighted suffix : jsstring),
     highlightSpans text chapter verseKey = Marked prefix highlighted suffix →
     ∃ vk index len,
       verseKey = Some vk
       ∧ exec (verse_pattern chapter (trim (split_head vk))) text = Some (index, len)
       ∧ let s0 := scan_back text index in
         let s := length prefix in
         (s0 = 0 ∨ newline_break text s0 ∨ sentence_break text s0)
         ∧ (∀ j, s0 < j ≤ index → ¬ newline_break text j ∧ ¬ sentence_break text j)
         ∧ s0 ≤ s ≤ index
         ∧ (∀ j, s0 ≤ j < s → text !! j = Some (cu " "))
         ∧ (s < index → text !! s ≠ Some (cu " "))
         ∧ prefix = take s text)
  ∧ highlight (str "... Rom. viii. 13 says ...") 8 (Some (str "13"))
    = (str "... ", str "Rom. viii. 13 says ...", [])
  ∧ ¬ sentence_break (str "... Rom. viii. 13 says ...") 8.
Proof.
  split; [|split; [by vm_compute|]].
  - intros text chapter verseKey prefix highlighted suffix H.
    apply highlightSpans_Marked in H
      as (vk & index & len & -> & _ & _ & _ & He & -> & _ & _).
    exists vk, index, len. split; [done|]. split; [done|]. cbv zeta.
    pose proof (exec_bounds _ _ _ _ He) as [_ Hend].
    pose proof (sentence_start_le text index) as Hle.
    assert (Hlen : length (slice 0 (sentence_start text index) text)
                   = sentence_start text index).
    { unfold slice. rewrite drop_0, Nat.sub_0_r, length_take. lia. }
    rewrite Hlen. destruct (scan_back_spec text index) as [Hstop Hnear].
    pose proof (scan_back_le text index) as Hback.
    destruct (skip_spaces_spec (index - scan_back text index) text (scan_back text index))
      as (Hb & Hsp & Hend').
    fold (sentence_start text index) in Hb, Hsp, Hend'.
    split; [done|]. split; [done|]. split; [lia|]. split; [done|].
    split; [intros; apply Hend'; lia|].
    unfold slice. by rewrite drop_0, Nat.sub_0_r.
  - intros [_ (ws & c & rest & Heq & Hne & Hws & Hc)].
    destruct ws as [|w0 [|w1 ws]]; [done| |]; vm_compute in Heq;
      inversion Heq; subst; clear Heq.
    + by vm_compute in Hc.
    + inversion Hws as [|? ? _ Hws']; subst. inversion Hws' as [|? ? Hv _]; subst.
      by vm_compute in Hv.
Qed.

(** A passage in which the citation is found. *)
Lemma sentence_start_spec_witness :
  ∃ vk index len,
    Some (str "13") = Some vk
    ∧ exec (verse_pattern 8%N (trim (split_head vk))) (str "Foo. See Rom. 8:13 now.")
      = Some (index, len).
Proof.
  destruct (proj1 sentence_start_spec (str "Foo. See Rom. 8:13 now.") 8%N (Some (str "13"))
              (str "Foo. ") (str "See Rom. 8:13 now.") [] eq_refl)
    as (vk & index & len & H1 & H2 & _).
  exists vk, index, len. split; [exact H1|exact H2].
Defined.

(** ** Verse grouping *)

Lemma run_after_run p s : run p s ++ after_run p s = s.
Proof. induction s as [|c s IH]; simpl; [done|]. destruct (p c); simpl; by rewrite ?IH. Qed.

Lemma star_match_greedy {A} p prev s (f : jsstring → A) :
  star_match p prev s (λ _ rest, Some (f rest)) = Some (f (after_run p s)).
Proof.
  revert prev. induction s as [|c s IH]; intros prev; simpl; [done|].
  destruct (p c); [|done]. by rewrite IH.
Qed.




(** *** The groups *)

Lemma group_step_kept worksById cats groups ref :
  group_step worksById cats groups ref
  = if kept worksById cats ref then group_push (primaryVerseKey (ref_v ref)) ref groups
    else groups.
Proof. unfold group_step, kept. by destruct (worksById !! ref_w ref). Qed.

Lemma group_get_push_eq key ref groups :
  group_get key (group_push key ref groups)
  = Some (default [] (group_get key groups) ++ [ref]).
Proof.
  induction groups as [|[k refs] groups IH]; simpl.
  - by rewrite decide_True.
  - destruct (decide (k = key)) as [->|Hne]; simpl.
    + by rewrite decide_True.
    + by rewrite decide_False.
Qed.

Lemma group_get_push_ne key key' ref groups :
  key' ≠ key → group_get key' (group_push key ref groups) = group_get key' groups.
Proof.
  intros Hne. induction groups as [|[k refs] groups IH]; simpl.
  - by rewrite decide_False.
  - destruct (decide (k = key)) as [->|Hk]; simpl.
    + by rewrite !decide_False.
    + by rewrite IH.
Qed.

Lemma group_push_keys key ref groups :
  (group_push key ref groups).*1
  = if decide (key ∈ groups.*1) then groups.*1 else groups.*1 ++ [key].
Proof.
  induction groups as [|[k refs] groups IH]; [done|]. cbn [group_push].
  destruct (decide (k = key)) as [->|Hk]; rewrite !fmap_cons; cbn [fst].
  - rewrite decide_True; [done|]. apply list_elem_of_here.
  - rewrite IH. destruct (decide (key ∈ groups.*1)) as [Hin|Hin].
    + rewrite decide_True; [done|]. by apply list_elem_of_further.
    + rewrite decide_False; [done|]. intros [?|?]%elem_of_cons; congruence.
Qed.

Lemma group_push_NoDup key ref groups :
  NoDup groups.*1 → NoDup (group_push key ref groups).*1.
Proof.
  intros Hnd. rewrite group_push_keys. destruct (decide _); [done|].
  apply NoDup_app. split; [done|]. split; [|apply NoDup_singleton].
  intros x Hx ->%list_elem_of_singleton. done.
Qed.

Lemma group_push_nonempty key ref groups :
  Forall (λ g, g.2 ≠ []) groups → Forall (λ g, g.2 ≠ []) (group_push key ref groups).
Proof.
  induction 1 as [|[k refs] groups Hk Hg IH]; simpl.
  - by repeat constructor.
  - destruct (decide (k = key)); constructor; simpl; try done.
    by destruct refs.
Qed.

Lemma group_get_nonempty key groups refs :
  Forall (λ g, g.2 ≠ []) groups → group_get key groups = Some refs → refs ≠ [].
Proof.
  induction 1 as [|[k r] groups Hk Hg IH]; simpl; [done|].
  destruct (decide (k = key)); [|done]. by intros [= <-].
Qed.

Section Grouping.
Context (worksById : gmap Z Work) (cats : gset jsstring).

Abbreviation in_group key :=
  (λ ref : Citation, kept worksById cats ref = true ∧ primaryVerseKey (ref_v ref) = key).

Lemma fold_group_get key refs groups :
  default [] (group_get key (fold_left (group_step worksById cats) refs groups))
  = default [] (group_get key groups) ++ filter (in_group key) refs.
Proof.
  revert groups. induction refs as [|ref refs IH]; intros groups; simpl.
  - by rewrite app_nil_r.
  - rewrite IH, group_step_kept. destruct (kept worksById cats ref) eqn:Hk.
    + destruct (decide (primaryVerseKey (ref_v ref) = key)) as [<-|Hne].
      * rewrite group_get_push_eq, filter_cons_True by done. simpl.
        by rewrite <- app_assoc.
      * rewrite group_get_push_ne by congruence.
        rewrite filter_cons_False; [done|]. by intros [_ ?].
    + rewrite filter_cons_False; [done|]. intros [? _]. congruence.
Qed.

Lemma fold_group_invariant refs groups :
  NoDup groups.*1 → Forall (λ g, g.2 ≠ []) groups →
  NoDup (fold_left (group_step worksById cats) refs groups).*1
  ∧ Forall (λ g, g.2 ≠ []) (fold_left (group_step worksById cats) refs groups).
Proof.
  revert groups. induction refs as [|ref refs IH]; intros groups Hnd Hne; simpl; [done|].
  apply IH; rewrite group_step_kept; destruct (kept worksById cats ref);
    auto using group_push_NoDup, group_push_nonempty.
Qed.

Lemma groupByVerse_get key refs :
  group_get key (groupByVerse worksById cats refs)
  = match filter (in_group key) refs with
    | [] => None
    | l => Some l
    end.
Proof.
  pose proof (fold_group_get key refs []) as Hget.
  destruct (fold_group_invariant refs []) as [_ Hne]; [constructor|constructor|].
  fold (groupByVerse worksById cats refs) in Hget, Hne. simpl in Hget.
  destruct (group_get key (groupByVerse worksById cats refs)) as [l|] eqn:Hl; simpl in Hget.
  - rewrite <- Hget. apply (group_get_nonempty _ _ _ Hne) in Hl. by destruct l.
  - by rewrite <- Hget.
Qed.
End Grouping.

(** *** The sort *)

Section Sort.
Context {A : Type} (gt : A → A → bool).

Lemma sort_insert_Permutation x l : sort_insert gt x l ≡ₚ x :: l.
Proof.
  induction l as [|y l IH]; simpl; [done|].
  destruct (gt x y); [|done]. rewrite IH. apply Permutation_swap.
Qed.

Lemma array_sort_Permutation l : array_sort gt l ≡ₚ l.
Proof.
  induction l as [|x l IH]; simpl; [done|].
  by rewrite sort_insert_Permutation, IH.
Qed.

(** On elements that the comparator orders by an integer measure, the sort
    returns them in ascending order of the measure. *)
Context (f : A → Z).

Lemma sort_insert_sorted x l :
  (∀ y, y ∈ l → gt x y = bool_decide (f y < f x)%Z) →
  StronglySorted (λ a b, f a ≤ f b)%Z l →
  StronglySorted (λ a b, f a ≤ f b)%Z (sort_insert gt x l).
Proof.
  intros Hgt Hl. induction Hl as [|y l Hl IH Hy]; simpl.
  - by repeat constructor.
  - rewrite Hgt by apply list_elem_of_here. case_bool_decide as Hyx.
    + constructor.
      * apply IH. intros z Hz. apply Hgt. by apply list_elem_of_further.
      * rewrite sort_insert_Permutation. constructor; [lia|done].
    + constructor; [by constructor|]. constructor; [lia|].
      eapply Forall_impl; [exact Hy|]. simpl. intros z Hz. lia.
Qed.

Lemma array_sort_sorted l :
  (∀ x y, x ∈ l → y ∈ l → gt x y = bool_decide (f y < f x)%Z) →
  StronglySorted (λ a b, f a ≤ f b)%Z (array_sort gt l).
Proof.
  induction l as [|x l IH]; intros Hgt; simpl; [constructor|].
  apply sort_insert_sorted.
  - intros y Hy. rewrite array_sort_Permutation in Hy.
    apply Hgt; [apply list_elem_of_here|by apply list_elem_of_further].
  - apply IH. intros y z Hy Hz. apply Hgt; by apply list_elem_of_further.
Qed.
End Sort.

(** *** The order of the verse keys *)


Lemma StronglySorted_lookup {A} (R : A → A → Prop) (l : list A) i j a b :
  StronglySorted R l → i < j → l !! i = Some a → l !! j = Some b → R a b.
Proof.
  intros Hl. revert i j. induction Hl as [|x l Hl IH Hx]; intros i j Hij Hi Hj; [done|].
  destruct j as [|j]; [lia|]. destruct i as [|i]; simpl in *.
  - inversion Hi; subst. rewrite Forall_forall in Hx. apply Hx.
    by eapply list_elem_of_lookup_2.
  - eapply IH; [|done..]. lia.
Qed.

Section Keys.
Context (groups : list (jsstring * list Citation)).
Let keys := groups.*1.
Let others := array_sort key_gt (filter (λ k, k ≠ str "whole") keys).

Lemma orderedKeys_eq :
  orderedKeys groups
  = (if bool_decide (str "whole" ∈ keys) then [str "whole"] else []) ++ others.
Proof. reflexivity. Qed.


Lemma orderedKeys_Permutation : NoDup keys → orderedKeys groups ≡ₚ keys.
Proof.
  intros Hnd. rewrite orderedKeys_eq. unfold others.
  rewrite array_sort_Permutation. clearbody keys.
  induction Hnd as [|k l Hk Hnd IH]; [done|].
  rewrite filter_cons. destruct (decide (k = str "whole")) as [->|Hne].
  - rewrite decide_False by (by intros []).
    rewrite bool_decide_eq_true_2 by apply list_elem_of_here.
    rewrite (bool_decide_eq_false_2 (str "whole" ∈ l)) in IH by done.
    apply Permutation_cons; [done|exact IH].
  - rewrite decide_True by done.
    rewrite (bool_decide_ext (str "whole" ∈ k :: l) (str "whole" ∈ l)).
    + etrans; [symmetry; apply Permutation_middle|].
      apply Permutation_cons; [done|exact IH].
    + rewrite elem_of_cons. split; [intros [?|?]; congruence|by right].
Qed.


End Keys.

Lemma group_get_is_Some key groups : is_Some (group_get key groups) ↔ key ∈ groups.*1.
Proof.
  induction groups as [|[k refs] groups IH]; simpl.
  - split; [by intros []|by intros ?%elem_of_nil].
  - rewrite elem_of_cons. destruct (decide (k = key)) as [->|Hne].
    + split; [by left|by eexists].
    + rewrite IH. split; [by right|intros [Heq|?]; [simpl in Heq; congruence|done]].
Qed.

Lemma kept_true worksById cats ref :
  kept worksById cats ref = true
  ↔ ∃ work, worksById !! ref_w ref = Some work ∧ category_or_other work ∈ cats.
Proof.
  unfold kept. destruct (worksById !! ref_w ref) as [work|].
  - rewrite bool_decide_eq_true. split; [by exists work|by intros (? & [= <-] & ?)].
  - split; [done|by intros (? & ? & _)].
Qed.



(** ** Era buckets *)

Lemma list_min_spec y ys :
  list_min y ys ∈ y :: ys ∧ Forall (λ z, list_min y ys ≤ z)%Z (y :: ys).
Proof.
  unfold list_min. induction ys as [|x ys [IH1 IH2]]; simpl.
  - split; [apply list_elem_of_here|]. by repeat constructor.
  - inversion IH2 as [|? ? Hy Hys]; subst. split.
    + destruct (Z.min_spec x (foldr Z.min y ys)) as [[_ ->]|[_ ->]].
      * apply list_elem_of_further, list_elem_of_here.
      * apply elem_of_cons in IH1 as [->|?]; [apply list_elem_of_here|].
        by do 2 apply list_elem_of_further.
    + constructor; [lia|]. constructor; [lia|].
      eapply Forall_impl; [exact Hys|]. simpl. lia.
Qed.

Lemma list_max_spec y ys :
  list_max y ys ∈ y :: ys ∧ Forall (λ z, z ≤ list_max y ys)%Z (y :: ys).
Proof.
  unfold list_max. induction ys as [|x ys [IH1 IH2]]; simpl.
  - split; [apply list_elem_of_here|]. by repeat constructor.
  - inversion IH2 as [|? ? Hy Hys]; subst. split.
    + destruct (Z.max_spec x (foldr Z.max y ys)) as [[_ ->]|[_ ->]].
      * apply elem_of_cons in IH1 as [->|?]; [apply list_elem_of_here|].
        by do 2 apply list_elem_of_further.
      * apply list_elem_of_further, list_elem_of_here.
    + constructor; [lia|]. constructor; [lia|].
      eapply Forall_impl; [exact Hys|]. simpl. lia.
Qed.

Lemma BUCKET_of_cases span :
  ((span < 200)%Z → BUCKET_of span = 25%Z)
  ∧ ((200 ≤ span < 500)%Z → BUCKET_of span = 50%Z)
  ∧ ((500 ≤ span < 1000)%Z → BUCKET_of span = 100%Z)
  ∧ ((1000 ≤ span < 2000)%Z → BUCKET_of span = 200%Z)
  ∧ ((2000 ≤ span)%Z → BUCKET_of span = 500%Z).
Proof.
  unfold BUCKET_of.
  repeat match goal with
  | |- context [(?a <? ?b)%Z] => destruct (Z.ltb_spec a b)
  end; repeat split; intros; lia.
Qed.

Lemma BUCKET_of_pos span : (0 < BUCKET_of span)%Z.
Proof. unfold BUCKET_of. repeat case_match; lia. Qed.

(** The loop over the bucket starts ends before its fuel does. *)
Lemma bucket_loop_fuel fuel start maxYear BUCKET d :
  (0 < BUCKET)%Z → (maxYear - start < Z.of_nat fuel)%Z →
  is_Some (bucket_loop fuel start maxYear BUCKET d).
Proof.
  intros HB. revert start. induction fuel as [|fuel IH]; intros start Hfuel; simpl.
  - destruct (Z.leb_spec start maxYear); [lia|by eexists].
  - destruct (Z.leb_spec start maxYear) as [Hle|Hgt]; [|by eexists].
    destruct (IH (start + BUCKET)%Z) as [rest ->]; [lia|]. simpl. by eexists.
Qed.

Lemma make_bucket_Some start BUCKET d bk :
  make_bucket start BUCKET d = Some bk →
  bk_b bk = start
  ∧ bk_worksCount bk = length (filter (λ x, in_bucket start BUCKET x) d)
  ∧ 0 < bk_worksCount bk.
Proof.
  unfold make_bucket. destruct (filter _ d) as [|x l] eqn:Hf; [done|].
  intros [= <-]. simpl. split; [done|]. split; [done|lia].
Qed.

(** The buckets come out in ascending order of their start, each start a
    multiple of the width away from the first one and not after [maxYear]. *)
Lemma bucket_loop_spec fuel start maxYear BUCKET d buckets :
  (0 < BUCKET)%Z →
  bucket_loop fuel start maxYear BUCKET d = Some buckets →
  StronglySorted Z.lt (bk_b <$> buckets)
  ∧ Forall (λ bk, (start ≤ bk_b bk ≤ maxYear)%Z
                  ∧ (∃ k : nat, bk_b bk = start + Z.of_nat k * BUCKET)%Z
                  ∧ make_bucket (bk_b bk) BUCKET d = Some bk) buckets.
Proof.
  intros HB. revert start buckets.
  induction fuel as [|fuel IH]; intros start buckets; simpl.
  - destruct (Z.leb_spec start maxYear); [done|]. intros [= <-]. by repeat constructor.
  - destruct (Z.leb_spec start maxYear) as [Hle|Hgt];
      [|intros [= <-]; by repeat constructor].
    destruct (bucket_loop fuel (start + BUCKET)%Z maxYear BUCKET d) as [rest|] eqn:Hrest;
      [|done]. simpl. intros [= <-].
    destruct (IH _ _ Hrest) as [Hsorted Hall].
    assert (Hall' : Forall (λ bk, (start ≤ bk_b bk ≤ maxYear)%Z
                  ∧ (∃ k : nat, bk_b bk = start + Z.of_nat k * BUCKET)%Z
                  ∧ make_bucket (bk_b bk) BUCKET d = Some bk) rest).
    { eapply Forall_impl; [exact Hall|]. simpl. intros bk (Hr & [k Hk] & Hm).
      split; [lia|]. split; [|done]. exists (S k). lia. }
    destruct (make_bucket start BUCKET d) as [bk|] eqn:Hbk; [|done].
    destruct (make_bucket_Some _ _ _ _ Hbk) as (Hb & _).
    split.
    + rewrite fmap_cons. constructor; [done|]. rewrite Forall_fmap.
      eapply Forall_impl; [exact Hall|]. simpl. intros bk' (Hr & _). lia.
    + constructor; [|done]. rewrite Hb. split; [lia|]. split; [|done].
      exists 0. lia.
Qed.

Lemma omap_sublist {A B} (f : A → option B) (g : B → A) (l : list A) :
  (∀ x y, f x = Some y → g y = x) → g <$> omap f l `sublist_of` l.
Proof.
  intros Hfg. induction l as [|x l IH]; simpl; [constructor|].
  destruct (f x) as [y|] eqn:Hy; simpl.
  - rewrite (Hfg _ _ Hy). by constructor.
  - by constructor.
Qed.


(** What a chart was computed from. *)
Lemma refs_by_date_chart_Chart d B bars legend :
  refs_by_date_chart d = Chart B bars legend →
  ∃ y ys buckets,
    omap (λ x, w_year (wr_work x)) d = y :: ys
    ∧ B = BUCKET_of (list_max y ys - list_min y ys)
    ∧ legend = filter (λ g, existsb (λ x, bool_decide (is_Some (wr_groupCounts x !! g))) d)
                      BOOK_GROUP_ORDER
    ∧ bucket_loop (Z.to_nat (list_max y ys - list_min y ys `div` B * B) + 1)
                  (list_min y ys `div` B * B) (list_max y ys) B d = Some buckets
    ∧ bars = (λ bk, {| bar_start := bk_b bk;
                       bar_segments_of := bar_segments legend bk |}) <$> buckets.
Proof.
  unfold refs_by_date_chart.
  destruct (filter _ BOOK_GROUP_ORDER) as [|g gs] eqn:Hg; [done|].
  destruct (omap _ d) as [|y ys] eqn:Hy; [done|].
  destruct (bucket_loop _ _ _ _ _) as [[|bk buckets]|] eqn:Hb; [done| |done].
  intros [= <- <- <-]. by exists y, ys, (bk :: buckets).
Qed.

Lemma in_bucket_true start BUCKET x :
  in_bucket start BUCKET x = true
  ↔ ∃ y, w_year (wr_work x) = Some y ∧ (start ≤ y < start + BUCKET)%Z.
Proof.
  unfold in_bucket. destruct (w_year (wr_work x)) as [y|].
  - rewrite andb_true_iff, Z.leb_le, Z.ltb_lt. split; [by exists y|].
    by intros (? & [= <-] & ?).
  - split; [done|by intros (? & ? & _)].
Qed.

(** *** The suspended call and its works *)

Lemma settle_works net l acc :
  wr_work <$> (fold_left (settle_work net) l acc).1 = (wr_work <$> acc.1) ++ l.*1.
Proof.
  revert acc. induction l as [|wf l IH]; intros acc; simpl.
  - by rewrite app_nil_r.
  - rewrite IH. simpl. rewrite fmap_app. simpl. by rewrite <- app_assoc.
Qed.

Lemma fmap_fst_pair {A B} (f : A → B) (l : list A) : ((λ x, (x, f x)) <$> l).*1 = l.
Proof. induction l as [|x l IH]; [done|]. rewrite !fmap_cons. simpl. by rewrite IH. Qed.

Lemma renderBibleRefsByDate_begin_task works cats version cache body t :
  renderBibleRefsByDate_begin works cats version cache = (body, Some t) →
  t_version t = version
  ∧ (t_works t).*1 = filter (λ w, has_year w && in_cats cats w) works
  ∧ (t_works t).*1 ≠ [].
Proof.
  unfold renderBibleRefsByDate_begin.
  destruct (filter _ works) as [|w0 ws] eqn:Hf; [done|].
  intros [= _ <-]. cbn [t_version t_works]. split; [done|].
  pose proof (fmap_fst_pair (λ w, fetchWorkRefs_begin cache (w_id w)) (w0 :: ws)) as E.
  split; [exact E|]. intros E'. discriminate E'.
Qed.

(** The citation lists the chart is drawn from belong to the dated works of
    the active categories, in the order of the index. *)
Lemma settle_dated works cats version cache body t net cache' :
  renderBibleRefsByDate_begin works cats version cache = (body, Some t) →
  wr_work <$> (settle net t cache').1
  = filter (λ w, has_year w && in_cats cats w) works.
Proof.
  intros (_ & <- & _)%renderBibleRefsByDate_begin_task.
  unfold settle. by rewrite settle_works.
Qed.

Lemma dated_years (ws : list Work) :
  Forall (λ w, is_Some (w_year w)) ws → Some <$> omap w_year ws = w_year <$> ws.
Proof.
  induction 1 as [|w ws [y Hy] Hws IH]; [done|]. cbn. rewrite Hy. cbn.
  f_equal. exact IH.
Qed.

Lemma omap_years (d : list WorkRefs) :
  omap (λ x, w_year (wr_work x)) d = omap w_year (wr_work <$> d).
Proof.
  induction d as [|x d IH]; [done|]. cbn. destruct (w_year (wr_work x)); cbn; by rewrite IH.
Qed.

Lemma filter_dated works cats :
  Forall (λ w, is_Some (w_year w)) (filter (λ w, has_year w && in_cats cats w) works).
Proof.
  apply Forall_forall. intros w [Hw _]%list_elem_of_filter.
  apply andb_prop_elim in Hw as [Hy _]. by apply bool_decide_unpack in Hy.
Qed.

(** C9. The width of the era buckets is decided by the span between the
    earliest and the latest year of the dated works of the active categories:
    25 years for a span below 200, 50 below 500, 100 below 1000, 200 below
    2000 and 500 from there on.  Every bar of the chart starts a whole number
    of widths after the first bucket, which starts at a multiple of the
    width, and counts the works whose year lies in the width from its
    start. *)
Theorem bucket_width_by_span (works : list Work) (cats : gset jsstring) (version : nat)
    (cache cache' : gmap Z (list ManuscriptRef)) (net : Z → Outcome)
    (body : RefsByDate) (t : Task) (B : Z) (bars : list Bar) (legend : list jsstring) :
  renderBibleRefsByDate_begin works cats version cache = (body, Some t) →
  refs_by_date_chart (settle net t cache').1 = Chart B bars legend →
  ∃ y ys,
    w_year <$> filter (λ w, has_year w && in_cats cats w) works = Some <$> y :: ys
    ∧ let minYear := list_min y ys in
      let maxYear := list_max y ys in
      let span := (maxYear - minYear)%Z in
      minYear ∈ y :: ys ∧ maxYear ∈ y :: ys
      ∧ Forall (λ z, minYear ≤ z ≤ maxYear)%Z (y :: ys)
      ∧ ((span < 200)%Z → B = 25%Z)
      ∧ ((200 ≤ span < 500)%Z → B = 50%Z)
      ∧ ((500 ≤ span < 1000)%Z → B = 100%Z)
      ∧ ((1000 ≤ span < 2000)%Z → B = 200%Z)
      ∧ ((2000 ≤ span)%Z → B = 500%Z)
      ∧ Forall (λ bar,
                  (∃ k : nat, bar_start bar = minYear `div` B * B + Z.of_nat k * B)%Z
                  ∧ Forall (λ seg, seg_works seg
                                   = length (filter (λ x, in_bucket (bar_start bar) B x)
                                                    (settle net t cache').1))
                           (bar_segments_of bar)) bars.
Proof.
  intros Hbegin Hchart.
  apply refs_by_date_chart_Chart in Hchart as (y & ys & buckets & Hy & HB & -> & Hloop & ->).
  exists y, ys. split.
  { rewrite <- (settle_dated _ _ _ _ _ _ net cache' Hbegin).
    rewrite <- dated_years.
    - by rewrite omap_years in Hy; rewrite <- Hy.
    - rewrite (settle_dated _ _ _ _ _ _ net cache' Hbegin). apply filter_dated. }
  cbv zeta. destruct (list_min_spec y ys) as [Hmin1 Hmin2].
  destruct (list_max_spec y ys) as [Hmax1 Hmax2].
  split; [done|]. split; [done|]. split.
  { apply Forall_forall. intros z Hz. rewrite Forall_forall in Hmin2, Hmax2.
    split; [by apply Hmin2|by apply Hmax2]. }
  rewrite HB at 1 2 3 4 5.
  destruct (BUCKET_of_cases (list_max y ys - list_min y ys)) as (H1 & H2 & H3 & H4 & H5).
  do 5 (split; [done|]).
  assert (HBpos : (0 < B)%Z) by (rewrite HB; apply BUCKET_of_pos).
  apply bucket_loop_spec in Hloop as [_ Hall]; [|done].
  rewrite Forall_fmap. eapply Forall_impl; [exact Hall|]. simpl.
  intros bk (_ & Hk & Hbk). split; [done|].
  apply make_bucket_Some in Hbk as (_ & Hcount & _).
  apply Forall_forall. intros seg Hseg. unfold bar_segments in Hseg.
  apply list_elem_of_omap in Hseg as (g & _ & Hseg). case_match; [done|].
  injection Hseg as <-. simpl. done.
Qed.

(** The sample index spans the years 230 to 1520: buckets of 200 years. *)
Lemma bucket_width_by_span_witness :
  ∃ bars legend,
    refs_by_date_chart (settle sample_net sample_task ∅).1 = Chart 200 bars legend.
Proof.
  assert (Hbegin : renderBibleRefsByDate_begin sample_index sample_active 1 ∅
                   = (sample_begin.1, Some sample_task)) by (by vm_compute).
  destruct (refs_by_date_chart (settle sample_net sample_task ∅).1)
    as [| | | |B bars legend] eqn:Hchart; try (by vm_compute in Hchart).
  destruct (bucket_width_by_span _ _ _ _ ∅ sample_net _ _ _ _ _ Hbegin Hchart)
    as (y & ys & Hyears & _ & _ & _ & _ & _ & _ & H200 & _).
  assert (Hy : y :: ys = [230; 1520]%Z).
  { apply (inj (fmap Some)). rewrite <- Hyears. by vm_compute. }
  injection Hy as -> ->. rewrite H200 by (cbn; lia).
  by exists bars, legend.
Defined.

(** The chart is drawn whenever a dated work has a citation: the loop over
    the bucket starts has fuel to spare and the first bucket is not empty. *)
Lemma refs_by_date_chart_produced d x g n :
  Forall (λ x, is_Some (w_year (wr_work x))) d →
  x ∈ d → wr_groupCounts x !! g = Some n → g ∈ BOOK_GROUP_ORDER →
  ∃ B bars legend, refs_by_date_chart d = Chart B bars legend ∧ bars ≠ [].
Proof.
  intros Hyears Hx Hg Hord. unfold refs_by_date_chart.
  destruct (filter _ BOOK_GROUP_ORDER) as [|g0 gs] eqn:Hf.
  { exfalso. apply (elem_of_nil g). rewrite <- Hf. apply list_elem_of_filter.
    split; [|done]. apply Is_true_true, existsb_exists. exists x.
    split; [by apply list_elem_of_In|]. apply bool_decide_eq_true. by eexists. }
  destruct (omap (λ x, w_year (wr_work x)) d) as [|y ys] eqn:Hy.
  { exfalso. rewrite Forall_forall in Hyears. destruct (Hyears x Hx) as [y0 Hy0].
    apply (elem_of_nil y0). rewrite <- Hy. apply list_elem_of_omap. by exists x. }
  set (minYear := list_min y ys). set (maxYear := list_max y ys).
  set (B := BUCKET_of (maxYear - minYear)).
  set (firstBucket := (minYear `div` B * B)%Z).
  assert (HB : (0 < B)%Z) by apply BUCKET_of_pos.
  assert (Hfirst : (firstBucket ≤ minYear < firstBucket + B)%Z).
  { unfold firstBucket. pose proof (Z.mul_div_le minYear B HB).
    pose proof (Z.mul_succ_div_gt minYear B HB). lia. }
  destruct (list_min_spec y ys) as [Hmin Hminle], (list_max_spec y ys) as [Hmax Hmaxle].
  fold minYear in Hmin, Hminle. fold maxYear in Hmax, Hmaxle.
  assert (Hle : (minYear ≤ maxYear)%Z).
  { rewrite Forall_forall in Hmaxle. by apply Hmaxle. }
  rewrite <- Hy in Hmin. apply list_elem_of_omap in Hmin as (x0 & Hx0 & Hyear0).
  assert (Hin : in_bucket firstBucket B x0 = true).
  { apply in_bucket_true. by exists minYear. }
  rewrite Nat.add_1_r. cbn [bucket_loop].
  destruct (Z.leb_spec firstBucket maxYear) as [_|?]; [|lia].
  destruct (bucket_loop_fuel (Z.to_nat (maxYear - firstBucket)) (firstBucket + B) maxYear B d)
    as [rest ->]; [done|lia|]. simpl.
  unfold make_bucket.
  destruct (filter (λ x, in_bucket firstBucket B x) d) as [|x1 l] eqn:Hfilter.
  { exfalso. apply (elem_of_nil x0). rewrite <- Hfilter. apply list_elem_of_filter.
    split; [by apply Is_true_true|done]. }
  by eexists _, _, _.
Qed.

(** *** Independence of the order of the input *)





(** What the two nested loops add to the totals. *)
Lemma add_groupCounts_spec acc d :
  (∀ g, (add_groupCounts acc d).1 !! g
        = match wr_groupCounts d !! g with
          | Some n => Some (default 0 (acc.1 !! g) + n)%Z
          | None => acc.1 !! g
          end)
  ∧ (add_groupCounts acc d).2 = (acc.2 + Zsum (map_to_list (wr_groupCounts d)).*2)%Z.
Proof.
  unfold add_groupCounts.
  apply (map_fold_weak_ind
    (λ r m, (∀ g, r.1 !! g = match m !! g with
                             | Some n => Some (default 0 (acc.1 !! g) + n)%Z
                             | None => acc.1 !! g
                             end)
            ∧ r.2 = (acc.2 + Zsum (map_to_list m).*2)%Z)).
  - split; [intros g; by rewrite lookup_empty|].
    rewrite map_to_list_empty. simpl. lia.
  - intros g n m r Hm [Hr1 Hr2]. simpl. split.
    + intros g'. destruct (decide (g = g')) as [<-|Hne].
      * rewrite !lookup_insert_eq. by rewrite Hr1, Hm.
      * rewrite !lookup_insert_ne by done. apply Hr1.
    + rewrite Hr2.
      assert (Hp : (map_to_list (<[g:=n]> m)).*2 ≡ₚ n :: (map_to_list m).*2)
        by (by rewrite map_to_list_insert).
      rewrite (Zsum_Permutation _ _ Hp), Zsum_cons. lia.
Qed.








Lemma has_year_false w : negb (has_year w) = true ↔ w_year w = None.
Proof.
  unfold has_year. rewrite negb_true_iff, bool_decide_eq_false.
  destruct (w_year w); split; try done. by intros [].
Qed.

Lemma array_sort_nil {A} (gt : A → A → bool) l : array_sort gt l = [] → l = [].
Proof.
  destruct l as [|x l]; [done|]. simpl. intros H. exfalso.
  destruct (array_sort gt l) as [|y l']; simpl in H; [done|].
  by destruct (gt x y).
Qed.

(** C7. A work without a year is in no bucket: the chart is drawn from the
    dated works of the active categories only, and a bucket counts works
    whose year lies in its range.  The works of the active categories that
    have no year are counted, apart from the buckets, by the timeline that
    [renderVizTab] puts into the same view; each such work is in that
    count. *)
Theorem undated_works_counted (works : list Work) (cats : gset jsstring) :
  let undated := filter (λ w, negb (has_year w) && in_cats cats w) works in
  (∀ version cache body t net cache',
     renderBibleRefsByDate_begin works cats version cache = (body, Some t) →
     Forall (λ x, is_Some (w_year (wr_work x))) (settle net t cache').1)
  ∧ (∀ start BUCKET d bk,
       make_bucket start BUCKET d = Some bk →
       bk_worksCount bk = length (filter (λ x, in_bucket start BUCKET x) d)
       ∧ ∀ x, in_bucket start BUCKET x = true → is_Some (w_year (wr_work x)))
  ∧ (∀ w, w ∈ works → w_year w = None → in_cats cats w = true → w ∈ undated)
  ∧ (undated ≠ [] →
     ∃ dots, renderWorksTimeline works cats = TimelineChart dots (Some (length undated))
             ∧ Forall (λ w, is_Some (w_year w)) dots)
  ∧ (∀ st, size cats ≠ 0 →
       WorksByDate (renderWorksTimeline works cats) ∈ vizView (renderVizTab works cats st)).
Proof.
  cbv zeta. split; [|split; [|split; [|split]]].
  - intros version cache body t net cache' Hbegin.
    rewrite <- (Forall_fmap wr_work (λ w, is_Some (w_year w))).
    rewrite (settle_dated _ _ _ _ _ _ net cache' Hbegin). apply filter_dated.
  - intros start BUCKET d bk Hbk. apply make_bucket_Some in Hbk as (_ & Hc & _).
    split; [done|]. intros x (y & Hy & _)%in_bucket_true. by exists y.
  - intros w Hw Hy Hc. apply list_elem_of_filter. split; [|done].
    apply andb_prop_intro. split; apply Is_true_true; [by apply has_year_false|done].
  - intros Hne. unfold renderWorksTimeline.
    set (withYear := array_sort year_gt _).
    destruct (filter (λ w, negb (has_year w) && in_cats cats w) works) as [|w0 ws] eqn:Hf;
      [done|].
    assert (Hdots : Forall (λ w, is_Some (w_year w)) withYear).
    { apply Forall_forall. intros w Hw. unfold withYear in Hw.
      rewrite array_sort_Permutation in Hw. revert w Hw.
      apply Forall_forall, filter_dated. }
    exists withYear. split; [|done]. rewrite bool_decide_eq_false_2 by done.
    by destruct withYear.
  - intros st Hsize. unfold renderVizTab.
    destruct (Nat.eqb_spec (size cats) 0); [done|]. simpl.
    do 2 apply list_elem_of_further. apply list_elem_of_here.
Qed.

(** The sample index has one work without a year, and the timeline says so. *)
Lemma undated_works_counted_witness :
  ∃ dots, renderWorksTimeline sample_index sample_active = TimelineChart dots (Some 1).
Proof.
  destruct (undated_works_counted sample_index sample_active) as (_ & _ & _ & H & _).
  destruct H as (dots & Hdots & _); [by vm_compute|].
  exists dots. rewrite Hdots. by vm_compute.
Defined.

(** ** Generations of the visualisation tab *)

Lemma StronglySorted_delete {A} (R : A → A → Prop) (l : list A) i :
  StronglySorted R l → StronglySorted R (delete i l).
Proof.
  intros Hl. revert i. induction Hl as [|x l Hl IH Hx]; intros i; [destruct i; constructor|].
  destruct i as [|i]; simpl; [done|]. constructor; [apply IH|by apply Forall_delete].
Qed.

Lemma fmap_delete {A B} (f : A → B) (l : list A) i : f <$> delete i l = delete i (f <$> l).
Proof.
  revert i. induction l as [|x l IH]; intros [|i]; simpl; try done. by rewrite IH.
Qed.

Lemma renderVizTab_version works cats st :
  vizVersion (renderVizTab works cats st) = S (vizVersion st).
Proof. unfold renderVizTab. by destruct (size cats =? 0). Qed.

Lemma renderVizTab_pending works cats st :
  pending (renderVizTab works cats st) = pending st
  ∨ ∃ t, pending (renderVizTab works cats st) = pending st ++ [t]
         ∧ t_version t = S (vizVersion st).
Proof.
  unfold renderVizTab. destruct (size cats =? 0); simpl; [by left|].
  unfold renderBibleRefsByDate_begin. destruct (filter _ works); simpl.
  - left. by rewrite app_nil_r.
  - right. by eexists.
Qed.

Lemma renderVizTab_view works cats st :
  Forall (current_section (renderVizTab works cats st))
         (vizView (renderVizTab works cats st)).
Proof.
  unfold renderVizTab. destruct (size cats =? 0); simpl; by repeat constructor.
Qed.

Lemma renderVizTab_ok works cats st :
  generations_ok st → generations_ok (renderVizTab works cats st).
Proof.
  intros [Hs Hb Hv]. split; [| |apply renderVizTab_view].
  - destruct (renderVizTab_pending works cats st) as [->|(t & -> & Ht)]; [done|].
    rewrite fmap_app. apply StronglySorted_app. split; [|split; [done|]].
    + intros v1 v2 (t1 & -> & Ht1)%list_elem_of_fmap Hv2. simpl in Hv2.
      apply list_elem_of_singleton in Hv2 as ->. rewrite Forall_forall in Hb.
      specialize (Hb _ Ht1). lia.
    + by repeat constructor.
  - rewrite renderVizTab_version.
    assert (Hb' : Forall (λ t, t_version t ≤ S (vizVersion st)) (pending st)).
    { eapply Forall_impl; [exact Hb|]. simpl. lia. }
    destruct (renderVizTab_pending works cats st) as [->|(t & -> & Ht)]; [done|].
    apply Forall_app. split; [done|]. constructor; [lia|done].
Qed.

Lemma fill_section_current st version body s :
  current_section st s → current_section st (fill_section version body s).
Proof.
  destruct s; simpl; try done. intros ->. by destruct (vizVersion st =? version).
Qed.

Lemma renderBibleRefsByDate_end_version net i st :
  vizVersion (renderBibleRefsByDate_end net i st) = vizVersion st.
Proof. unfold renderBibleRefsByDate_end. by destruct (pending st !! i). Qed.

Lemma renderBibleRefsByDate_end_ok net i st :
  generations_ok st → generations_ok (renderBibleRefsByDate_end net i st).
Proof.
  intros [Hs Hb Hv]. unfold renderBibleRefsByDate_end.
  destruct (pending st !! i) as [t|]; [|done]. split; simpl.
  - rewrite fmap_delete. by apply StronglySorted_delete.
  - by apply Forall_delete.
  - case_bool_decide; [done|]. rewrite Forall_fmap.
    eapply Forall_impl; [exact Hv|]. intros s Hs'. simpl.
    by apply (fill_section_current st).
Qed.

Lemma loadWork_begin_ok workId st : generations_ok st → generations_ok (loadWork_begin workId st).
Proof. by intros [Hs Hb Hv]. Qed.

Lemma loadWork_end_ok o i st : generations_ok st → generations_ok (loadWork_end o i st).
Proof.
  intros [Hs Hb Hv]. unfold loadWork_end. by destruct (loading st !! i).
Qed.

Lemma step_ok works st st' : step works st st' → generations_ok st → generations_ok st'.
Proof.
  destruct 1; auto using renderVizTab_ok, renderBibleRefsByDate_end_ok,
    loadWork_begin_ok, loadWork_end_ok.
Qed.

Lemma reachable_ok works st : reachable works st → generations_ok st.
Proof.
  induction 1 as [|st st' _ IH Hstep]; [|by eapply step_ok].
  split; simpl; constructor.
Qed.

Lemma step_version works st st' : step works st st' → vizVersion st ≤ vizVersion st'.
Proof.
  destruct 1 as [cats st|net i st _|workId st|o i st _].
  - rewrite renderVizTab_version. lia.
  - by rewrite renderBibleRefsByDate_end_version.
  - done.
  - unfold loadWork_end. by destruct (loading st !! i).
Qed.

Lemma steps_version works st st' :
  rtc (step works) st st' → vizVersion st ≤ vizVersion st'.
Proof.
  induction 1 as [|st1 st2 st3 H12 _ IH]; [done|].
  apply step_version in H12. lia.
Qed.

(** The check [if (_vizVersion !== version) return;]. *)
Lemma stale_end_view net i t st :
  pending st !! i = Some t → t_version t ≠ vizVersion st →
  vizView (renderBibleRefsByDate_end net i st) = vizView st.
Proof.
  intros Hi Hne. unfold renderBibleRefsByDate_end. rewrite Hi. simpl.
  by rewrite bool_decide_eq_true_2.
Qed.

(** The call of the current generation does fill its section in. *)
Lemma current_end_view net i t st :
  pending st !! i = Some t → t_version t = vizVersion st →
  vizView (renderBibleRefsByDate_end net i st)
  = fill_section (t_version t)
      (refs_by_date_chart (settle net t (workRefsCache st)).1) <$> vizView st.
Proof.
  intros Hi Heq. unfold renderBibleRefsByDate_end. rewrite Hi. simpl.
  by rewrite bool_decide_eq_false_2 by (by intros Hne; apply Hne).
Qed.

(** C8. Every call of [renderVizTab] takes the next generation number, and
    the number never decreases; the suspended calls carry strictly increasing
    numbers, none above the counter, and the section of references by date
    in the view is the one of the current generation.  A suspended call
    whose number is not the current one leaves the view as it is when it
    resumes, while the call of the current generation writes its chart; so a
    call that was suspended when a later [renderVizTab] started leaves the
    view as it is whenever it resumes after that. *)
Theorem stale_results_discarded (works : list Work) :
  (∀ cats st, vizVersion (renderVizTab works cats st) = S (vizVersion st))
  ∧ (∀ st st', step works st st' → vizVersion st ≤ vizVersion st')
  ∧ (∀ st, reachable works st →
       StronglySorted lt (t_version <$> pending st)
       ∧ Forall (λ t, t_version t ≤ vizVersion st) (pending st)
       ∧ Forall (λ s, ∀ v body, s = BibleRefsByDate v body → v = vizVersion st)
                (vizView st))
  ∧ (∀ net i t st,
       pending st !! i = Some t → t_version t ≠ vizVersion st →
       vizView (renderBibleRefsByDate_end net i st) = vizView st)
  ∧ (∀ net i t st,
       pending st !! i = Some t → t_version t = vizVersion st →
       vizView (renderBibleRefsByDate_end net i st)
       = fill_section (t_version t)
           (refs_by_date_chart (settle net t (workRefsCache st)).1) <$> vizView st)
  ∧ (∀ st1 cats st3 t net j,
       reachable works st1 → t ∈ pending st1 →
       rtc (step works) (renderVizTab works cats st1) st3 →
       pending st3 !! j = Some t →
       vizView (renderBibleRefsByDate_end net j st3) = vizView st3).
Proof.
  split; [apply renderVizTab_version|]. split; [apply step_version|].
  split; [|split; [|split]].
  - intros st [Hs Hb Hv]%reachable_ok. split; [done|]. split; [done|].
    eapply Forall_impl; [exact Hv|]. intros s Hcur v body ->. exact Hcur.
  - apply stale_end_view.
  - apply current_end_view.
  - intros st1 cats st3 t net j [_ Hb _]%reachable_ok Ht Hsteps Hj.
    apply (stale_end_view _ _ t); [done|].
    rewrite Forall_forall in Hb. specialize (Hb _ Ht).
    apply steps_version in Hsteps. rewrite renderVizTab_version in Hsteps. lia.
Qed.

(** Two calls of [renderVizTab] in a row: the first call of
    [renderBibleRefsByDate] resumes without changing the view. *)
Lemma stale_results_discarded_witness :
  vizView (renderBibleRefsByDate_end sample_net 0
             (renderVizTab sample_index sample_active
                (renderVizTab sample_index sample_active initial)))
  = vizView (renderVizTab sample_index sample_active
               (renderVizTab sample_index sample_active initial)).
Proof.
  destruct (stale_results_discarded sample_index) as (_ & _ & _ & _ & _ & H).
  apply (H (renderVizTab sample_index sample_active initial) sample_active _ sample_task).
  - eapply reachable_step; [apply reachable_initial|apply step_renderVizTab].
  - vm_compute. apply list_elem_of_here.
  - apply rtc_refl.
  - by vm_compute.
Defined.

(** ** Fetch failures *)

Lemma fetchWorkRefs_end_refs cache workId o :
  (fetchWorkRefs_end cache workId o).1
  = match o with Resolved data => wd_refs data | Rejected => [] end.
Proof. by destruct o. Qed.

Lemma fetchWorkRefs_end_other cache workId o k :
  k ≠ workId → (fetchWorkRefs_end cache workId o).2 !! k = cache !! k.
Proof. intros Hne. destruct o; simpl; by rewrite lookup_insert_ne. Qed.

Lemma settle_work_list net l acc :
  (fold_left (settle_work net) l acc).1 = acc.1 ++ (settled net <$> l).
Proof.
  revert acc. induction l as [|wf l IH]; intros acc; simpl.
  - by rewrite app_nil_r.
  - rewrite IH. simpl. rewrite <- app_assoc. simpl. do 2 f_equal.
    unfold settled, settled_refs. destruct wf as [w [refs|]]; simpl; [done|].
    by rewrite fetchWorkRefs_end_refs.
Qed.

Lemma settle_work_cache net l acc k :
  (∀ wf, wf ∈ l → wf.2 = None → w_id wf.1 ≠ k) →
  (fold_left (settle_work net) l acc).2 !! k = acc.2 !! k.
Proof.
  revert acc. induction l as [|wf l IH]; intros acc Hk; simpl; [done|].
  rewrite IH by (intros wf' Hwf'; apply Hk; by apply list_elem_of_further).
  simpl. destruct wf as [w [refs|]]; simpl; [done|].
  apply fetchWorkRefs_end_other. intros ->.
  by apply (Hk (w, None) (list_elem_of_here _ _)).
Qed.

(** Against C2 as it is stated: a rejected fetch is answered like a work
    without citations, the empty list it leaves in the cache is what later
    calls return, also when the fetch would succeed by then, and the chart of
    a work whose fetch was rejected shows the no-data message of an empty
    chart. *)
Lemma fetch_failure_cached :
  fetchWorkRefs ∅ 7 Rejected = ([], {[ 7%Z := [] ]})
  ∧ fetchWorkRefs ∅ 7 Rejected = fetchWorkRefs ∅ 7 (Resolved (sample_data []))
  ∧ (fetchWorkRefs ∅ 7 Rejected).2 ≠ ∅
  ∧ (fetchWorkRefs (fetchWorkRefs ∅ 7 Rejected).2 7 (Resolved (sample_data [sample_ref]))).1
    = []
  ∧ (fetchWorkRefs ∅ 7 (Resolved (sample_data [sample_ref]))).1 = [sample_ref]
  ∧ vizView (renderBibleRefsByDate_end (λ _, Rejected) 0
               (renderVizTab sample_index {[ str "Greek" ]} initial))
    = [ BibleCoverage; MostReferencedBooks;
        WorksByDate (renderWorksTimeline sample_index {[ str "Greek" ]});
        BibleRefsByDate 1 NoData; CorpusByCategory ].
Proof.
  split; [|split; [|split; [|split; [|split]]]]; try (vm_compute; reflexivity).
  unfold fetchWorkRefs, fetchWorkRefs_begin. rewrite lookup_empty. simpl.
  intros H. apply (f_equal (λ m : gmap Z (list ManuscriptRef), m !! 7%Z)) in H.
  by rewrite lookup_insert_eq, lookup_empty in H.
Qed.

(** C2 (amended). A rejected fetch in [fetchWorkRefs] is not passed on: the
    call returns the empty citation list and stores it in the cache under the
    failed id, leaving the entry of every other id as it was; a suspended
    chart still gets one entry for each of its works, each computed from that
    work's own list, and its fetches change the cache only at the ids it had
    to fetch.  A rejected fetch in [loadWork] puts the could-not-load message
    into the work pane and changes nothing else. *)
Theorem fetch_failure_contained :
  (∀ cache workId,
     fetchWorkRefs_end cache workId Rejected = ([], <[workId := []]> cache))
  ∧ (∀ cache workId k,
       k ≠ workId → (fetchWorkRefs_end cache workId Rejected).2 !! k = cache !! k)
  ∧ (∀ net t cache, (settle net t cache).1 = settled net <$> t_works t)
  ∧ (∀ net t cache k,
       (∀ wf, wf ∈ t_works t → wf.2 = None → w_id wf.1 ≠ k) →
       (settle net t cache).2 !! k = cache !! k)
  ∧ (∀ i st, i < length (loading st) →
       let st' := loadWork_end Rejected i st in
       workRefsList st' = PaneCouldNotLoad
       ∧ workRefsCache st' = workRefsCache st
       ∧ vizView st' = vizView st
       ∧ pending st' = pending st
       ∧ vizVersion st' = vizVersion st).
Proof.
  split; [done|]. split; [intros; by apply fetchWorkRefs_end_other|].
  split; [intros; unfold settle; by rewrite settle_work_list|].
  split; [intros net t cache k Hk; unfold settle; by rewrite settle_work_cache|].
  intros i st Hi. cbv zeta. unfold loadWork_end.
  destruct (lookup_lt_is_Some_2 (loading st) i Hi) as [workId ->]. done.
Qed.

(** A rejected [loadWork] and a rejected [fetchWorkRefs] next to a cached work. *)
Lemma fetch_failure_contained_witness :
  workRefsList (loadWork_end Rejected 0 (loadWork_begin 7 initial)) = PaneCouldNotLoad
  ∧ (fetchWorkRefs_end {[ 3%Z := [sample_ref] ]} 7 Rejected).2 !! 3%Z = Some [sample_ref].
Proof.
  destruct fetch_failure_contained as (_ & Hother & _ & _ & Hload). split.
  - apply (Hload 0 (loadWork_begin 7 initial)). simpl. lia.
  - rewrite (Hother {[ 3%Z := [sample_ref] ]} 7%Z 3%Z) by lia.
    apply lookup_singleton_eq.
Defined.

(** ** Escaping and Roman numerals *)

Lemma replace_all_app c by_ s t :
  replace_all c by_ (s ++ t) = replace_all c by_ s ++ replace_all c by_ t.
Proof.
  induction s as [|x s IH]; [done|]. cbn [replace_all app]. by rewrite IH, app_assoc.
Qed.

Lemma esc_cons x s : esc (x :: s) = esc_char x ++ esc s.
Proof.
  unfold esc. cbn [replace_all]. rewrite !replace_all_app. f_equal.
  unfold esc_char.
  destruct (N.eqb_spec x (cu "&")) as [->|H1]; [by vm_compute|].
  destruct (N.eqb_spec x (cu "<")) as [->|H2]; [by vm_compute|].
  destruct (N.eqb_spec x (cu ">")) as [->|H3]; [by vm_compute|].
  destruct (N.eqb_spec x 34%N) as [->|H4]; [by vm_compute|].
  cbn [replace_all app].
  rewrite (proj2 (N.eqb_neq x (cu "<"))) by done. cbn [replace_all app].
  rewrite (proj2 (N.eqb_neq x (cu ">"))) by done. cbn [replace_all app].
  by rewrite (proj2 (N.eqb_neq x 34%N)) by done.
Qed.

Lemma esc_app s t : esc (s ++ t) = esc s ++ esc t.
Proof.
  induction s as [|x s IH]; [done|].
  by rewrite <- app_comm_cons, !esc_cons, IH, app_assoc.
Qed.

Lemma esc_char_cases x :
  (x = 38%N ∧ esc_char x = str "&amp;")
  ∨ (x = 60%N ∧ esc_char x = str "&lt;")
  ∨ (x = 62%N ∧ esc_char x = str "&gt;")
  ∨ (x = 34%N ∧ esc_char x = str "&quot;")
  ∨ (x ≠ 38%N ∧ x ≠ 60%N ∧ x ≠ 62%N ∧ x ≠ 34%N ∧ esc_char x = [x]).
Proof.
  unfold esc_char.
  change (cu "&") with 38%N. change (cu "<") with 60%N. change (cu ">") with 62%N.
  destruct (N.eqb_spec x 38) as [->|H1]; [by left|].
  destruct (N.eqb_spec x 60) as [->|H2]; [by right; left|].
  destruct (N.eqb_spec x 62) as [->|H3]; [by right; right; left|].
  destruct (N.eqb_spec x 34) as [->|H4]; [by right; right; right; left|].
  by right; right; right; right.
Qed.

(** X1. The markup characters do not survive: what [esc] returns holds no [<],
    no [>] and no double quote. *)
Theorem esc_no_markup (s : jsstring) :
  Forall (λ c, c ≠ cu "<" ∧ c ≠ cu ">" ∧ c ≠ 34%N) (esc s).
Proof.
  induction s as [|x s IH]; [constructor|]. rewrite esc_cons. apply Forall_app.
  split; [|done]. change (cu "<") with 60%N. change (cu ">") with 62%N.
  destruct (esc_char_cases x) as [[_ ->]|[[_ ->]|[[_ ->]|[[_ ->]|(?&?&?&?& ->)]]]];
    try (by vm_compute; repeat constructor).
Qed.

(** X2. Escaping loses nothing: distinct strings are escaped to distinct
    strings. *)
Theorem esc_inj (s t : jsstring) : esc s = esc t → s = t.
Proof.
  revert t. induction s as [|x s IH]; intros [|y t]; rewrite ?esc_cons.
  - done.
  - intros H. exfalso. destruct (esc_char_cases y)
      as [[_ E]|[[_ E]|[[_ E]|[[_ E]|(?&?&?&?& E)]]]]; rewrite E in H; discriminate H.
  - intros H. exfalso. destruct (esc_char_cases x)
      as [[_ E]|[[_ E]|[[_ E]|[[_ E]|(?&?&?&?& E)]]]]; rewrite E in H; discriminate H.
  - intros H. remember (esc s) as es eqn:Hes. remember (esc t) as et eqn:Het.
    assert (IH' : es = et → s = t) by (subst; apply IH).
    destruct (esc_char_cases x)
      as [[Hx E]|[[Hx E]|[[Hx E]|[[Hx E]|(?&?&?&?& E)]]]]; rewrite E in H; clear E;
    destruct (esc_char_cases y)
      as [[Hy E]|[[Hy E]|[[Hy E]|[[Hy E]|(?&?&?&?& E)]]]]; rewrite E in H; clear E;
    vm_compute in H; try discriminate H;
    try (subst x y; injection H as H; f_equal; by apply IH');
    try (injection H as ? H; congruence).
    injection H as Hxy H. subst y. f_equal. by apply IH'.
Qed.

Lemma esc_inj_witness :
  esc (str "a<b") = esc (str "a<b") ∧ str "a<b" = str "a<b".
Proof.
  split; [reflexivity|]. apply (esc_inj (str "a<b") (str "a<b")). reflexivity.
Defined.

(** X3. What [highlightPassage] returns is the escaped text, with at most one
    pair of mark tags put around a non-empty part of it. *)
Theorem highlightPassage_escaped (text : jsstring) (chapter : N)
    (verseKey : option jsstring) :
  let out := highlightPassage text chapter verseKey in
  out = esc text
  ∨ ∃ a b c, a ++ b ++ c = text ∧ b ≠ []
             ∧ esc a ++ esc b ++ esc c = esc text
             ∧ out = esc a ++ str "<mark>" ++ esc b ++ str "</mark>" ++ esc c.
Proof.
  unfold highlightPassage.
  destruct (highlightSpans text chapter verseKey) as [t|a b c] eqn:E.
  - left. simpl. f_equal. unfold highlightSpans in E.
    destruct text as [|x text]; [by inversion E|].
    destruct verseKey as [[|v vk]|]; try by inversion E.
    repeat case_match; by inversion E.
  - right. exists a, b, c.
    pose proof (Marked_nonempty _ _ _ _ _ _ E) as Hb.
    apply highlightSpans_Marked in E as (vk & index & len & _ & _ & _ & _ & He & -> & -> & ->).
    assert (Hc : slice 0 (sentence_start text index) text
                 ++ slice (sentence_start text index) (sentence_end text (index + len)) text
                 ++ slice_from (sentence_end text (index + len)) text = text).
    { apply slices_concat. pose proof (sentence_start_le text index).
      pose proof (sentence_end_ge text (index + len)). lia. }
    split; [exact Hc|]. split; [exact Hb|]. split; [|done].
    by rewrite <- !esc_app, Hc.
Qed.

Lemma roman_while_closed fuel val sym r n :
  (0 < val)%N → N.to_nat n ≤ fuel →
  roman_while fuel val sym r n
  = (r ++ repeat_str (N.to_nat (n / val)) sym, (n mod val)%N).
Proof.
  intros Hv. revert r n. induction fuel as [|fuel IH]; intros r n Hn.
  - assert (n = 0%N) as -> by lia. cbn [roman_while].
    rewrite N.Div0.div_0_l, N.Div0.mod_0_l. simpl. by rewrite app_nil_r.
  - cbn [roman_while]. destruct (N.leb_spec val n) as [Hle|Hlt].
    + rewrite IH by lia.
      assert (Hd : (n / val = N.succ ((n - val) / val))%N).
      { replace n with ((n - val) + 1 * val)%N at 1 by lia.
        rewrite N.div_add by lia. lia. }
      assert (Hm : (n mod val = (n - val) mod val)%N).
      { replace n with ((n - val) + 1 * val)%N at 1 by lia.
        by rewrite N.Div0.mod_add. }
      rewrite Hd, Hm, N2Nat.inj_succ. simpl. by rewrite <- app_assoc.
    + rewrite N.div_small, N.mod_small by done. simpl. by rewrite app_nil_r.
Qed.

Lemma roman_fold_cons val sym (l : list (N * jsstring)) r n :
  (0 < val)%N →
  foldl roman_step (r, n) ((val, sym) :: l)
  = foldl roman_step (r ++ repeat_str (N.to_nat (n / val)) sym, (n mod val)%N) l.
Proof.
  intros Hv. cbn [foldl]. f_equal. unfold roman_step. cbn [fst snd].
  by apply roman_while_closed.
Qed.

Lemma roman_fold_prefix (l : list (N * jsstring)) r n :
  Forall (λ vs, (0 < vs.1)%N) l →
  (foldl roman_step (r, n) l).1 = r ++ (foldl roman_step ([], n) l).1.
Proof.
  intros Hl. revert r n. induction Hl as [|[val sym] l Hv _ IH]; intros r n.
  - cbn [foldl fst]. by rewrite app_nil_r.
  - rewrite !roman_fold_cons by done. rewrite IH, (IH ([] ++ _)).
    by rewrite app_nil_l, app_assoc.
Qed.

Lemma toRoman_hundreds n :
  toRoman n = repeat_str (N.to_nat (n / 100)) (str "c") ++ toRoman (n mod 100).
Proof.
  unfold toRoman. change (λ rn vs, roman_while (N.to_nat rn.2) vs.1 vs.2 rn.1 rn.2)
    with roman_step.
  assert (Ht : Forall (λ vs : N * jsstring, (0 < vs.1)%N) (tail roman_table)).
  { repeat constructor. }
  change roman_table with ((100%N, str "c") :: tail roman_table).
  rewrite !roman_fold_cons by lia.
  rewrite (N.mod_small (n mod 100)) by (apply N.mod_upper_bound; lia).
  rewrite (N.div_small (n mod 100)) by (apply N.mod_upper_bound; lia).
  cbn [N.to_nat repeat_str]. rewrite app_nil_r.
  rewrite (roman_fold_prefix _ (_ ++ _)) by done. by rewrite app_nil_l.
Qed.

Lemma roman_digit_le c : (roman_digit c ≤ 100)%N.
Proof. unfold roman_digit. repeat case_match; lia. Qed.

Lemma roman_value_hundreds k s :
  roman_value (repeat_str k (str "c") ++ s) = (100 * N.of_nat k + roman_value s)%N.
Proof.
  induction k as [|k IH]; [simpl; lia|].
  change (repeat_str (S k) (str "c") ++ s) with (cu "c" :: (repeat_str k (str "c") ++ s)).
  remember (repeat_str k (str "c") ++ s) as t eqn:Et.
  change (roman_value (cu "c" :: t))
    with (match t with
          | d :: _ => if (roman_digit (cu "c") <? roman_digit d)%N
                      then (roman_value t - roman_digit (cu "c"))%N
                      else (roman_digit (cu "c") + roman_value t)%N
          | [] => roman_digit (cu "c")
          end).
  change (roman_digit (cu "c")) with 100%N.
  destruct t as [|d t'].
  - destruct k; [|discriminate Et]. simpl in Et. subst s. simpl. lia.
  - pose proof (roman_digit_le d). destruct (N.ltb_spec 100 (roman_digit d)); [lia|].
    rewrite IH. lia.
Qed.

Lemma toRoman_small :
  forallb (λ k, (roman_value (toRoman (N.of_nat k)) =? N.of_nat k)%N) (seq 0 100) = true.
Proof. vm_compute. reflexivity. Qed.

(** X4. Reading the numeral [toRoman] writes gives the number back. *)
Theorem toRoman_value (n : N) : roman_value (toRoman n) = n.
Proof.
  rewrite toRoman_hundreds, roman_value_hundreds.
  assert (Hs : roman_value (toRoman (n mod 100)) = (n mod 100)%N).
  { pose proof toRoman_small as H. rewrite forallb_forall in H.
    specialize (H (N.to_nat (n mod 100))). rewrite N2Nat.id in H.
    apply N.eqb_eq, H, in_seq. assert (n mod 100 < 100)%N by (apply N.mod_upper_bound; lia).
    clear H. remember (n `mod` 100)%N as m. clear Heqm. simpl. lia. }
  rewrite Hs, N2Nat.id. pose proof (N.div_mod n 100). lia.
Qed.

(** ** The heat scale is monotone *)

Lemma js_lt_ratio (count max a : Z) :
  (0 < max)%Z → (0 < a)%Z →
  js_lt (js_div count max) (a # 100) = (100 * count <? a * max)%Z.
Proof.
  intros Hm Ha. unfold js_div. destruct (Z.eqb_spec max 0) as [|_]; [lia|].
  destruct (100 * count <? a * max)%Z eqn:E.
  - apply js_lt_Fin. apply Z.ltb_lt in E.
    destruct max as [|p|p]; try lia. destruct a as [|q|q]; try lia.
    unfold Qlt, Qdiv, Qmult, Qinv, inject_Z. simpl. lia.
  - apply js_lt_Fin_false. apply Z.ltb_ge in E.
    destruct max as [|p|p]; try lia. destruct a as [|q|q]; try lia.
    unfold Qle, Qdiv, Qmult, Qinv, inject_Z. simpl. lia.
Qed.

Lemma heatLevel_cross_eq (count max : Z) :
  (0 < max)%Z → heatLevel count max = heatLevel_cross count max.
Proof.
  intros Hm. unfold heatLevel, heatLevel_cross. cbv zeta.
  by rewrite !js_lt_ratio by lia.
Qed.

Lemma heatLevel_le_4 (count max : Z) : heatLevel count max ≤ 4.
Proof. unfold heatLevel. cbv zeta. repeat case_match; lia. Qed.

Lemma heatLevel_ge_1 (count max : Z) : count ≠ 0%Z → 1 ≤ heatLevel count max.
Proof.
  intros Hc. unfold heatLevel. cbv zeta.
  destruct (Z.eqb_spec count 0); [done|]. repeat case_match; lia.
Qed.

Lemma heatLevel_top (max : Z) : (0 < max)%Z → heatLevel max max = 4.
Proof.
  intros Hm. rewrite heatLevel_cross_eq by done. unfold heatLevel_cross.
  destruct (Z.eqb_spec max 0); [lia|].
  destruct (Z.ltb_spec (100 * max) (15 * max)); [lia|].
  destruct (Z.ltb_spec (100 * max) (40 * max)); [lia|].
  destruct (Z.ltb_spec (100 * max) (70 * max)); [lia|]. done.
Qed.

(** X5. For a positive maximum the heat level never decreases when the count
    grows, it is at least 1 for a count that is not 0, never more than 4, and
    the maximum itself gets level 4. *)
Theorem heatLevel_monotone (c1 c2 max : Z) :
  (0 ≤ c1 ≤ c2)%Z → (0 < max)%Z →
  heatLevel c1 max ≤ heatLevel c2 max
  ∧ heatLevel c2 max ≤ 4
  ∧ (c1 ≠ 0%Z → 1 ≤ heatLevel c1 max)
  ∧ heatLevel max max = 4.
Proof.
  intros Hc Hm. split; [|split; [apply heatLevel_le_4|split; [apply heatLevel_ge_1|by apply heatLevel_top]]].
  rewrite !heatLevel_cross_eq by done. unfold heatLevel_cross.
  destruct (Z.eqb_spec c1 0); [lia|]. destruct (Z.eqb_spec c2 0); [lia|].
  destruct (Z.ltb_spec (100 * c1) (15 * max)), (Z.ltb_spec (100 * c1) (40 * max)),
    (Z.ltb_spec (100 * c1) (70 * max)), (Z.ltb_spec (100 * c2) (15 * max)),
    (Z.ltb_spec (100 * c2) (40 * max)), (Z.ltb_spec (100 * c2) (70 * max)); lia.
Qed.

Lemma heatLevel_monotone_witness :
  heatLevel 3 10 ≤ heatLevel 8 10 ∧ heatLevel 8 10 ≤ 4
  ∧ (3%Z ≠ 0%Z → 1 ≤ heatLevel 3 10) ∧ heatLevel 10 10 = 4.
Proof. apply (heatLevel_monotone 3 8 10); lia. Defined.

(** ** Sidebar and coverage heat map *)

Lemma includes_spec (s term : jsstring) :
  includes s term = true ↔ ∃ a b, s = a ++ term ++ b.
Proof.
  induction s as [|x s IH]; cbn [includes].
  - rewrite orb_false_r, bool_decide_eq_true. split.
    + intros [b Hb]. destruct term; [|discriminate Hb]. by exists [], [].
    + intros (a & b & H). destruct a, term; try discriminate H. by exists [].
  - rewrite orb_true_iff, bool_decide_eq_true, IH. split.
    + intros [[b Hb]|(a & b & H)].
      * by exists [], b.
      * exists (x :: a), b. by rewrite H.
    + intros (a & b & H). destruct a as [|y a].
      * left. by exists b.
      * right. exists a, b. by inversion H.
Qed.

Lemma foldl_add_Zsum {A} (f : A → Z) (l : list A) (a : Z) :
  foldl (λ s x, (s + f x)%Z) a l = (a + Zsum (f <$> l))%Z.
Proof.
  revert a. induction l as [|x l IH]; intros a; [unfold Zsum; simpl; lia|].
  rewrite fmap_cons, Zsum_cons. cbn [foldl]. rewrite IH. lia.
Qed.

Lemma list_max_cons y ys : list_max y ys ∈ y :: ys ∧ ∀ z, z ∈ y :: ys → (z ≤ list_max y ys)%Z.
Proof.
  destruct (list_max_spec y ys) as [H1 H2]. split; [done|].
  intros z Hz. by rewrite Forall_forall in H2; apply H2.
Qed.

Section SidebarFacts.
Variable toLowerCase : jsstring → jsstring.

Lemma sidebar_entry_Some cats ab ac term book e :
  sidebar_entry toLowerCase cats ab ac term book = Some e →
  be_book e = book
  ∧ (term = [] ∨ includes (toLowerCase (b_name book)) term = true)
  ∧ (λ d, (dot_ch d, dot_count d)) <$> be_dots e
    = filter (λ c, (0 <? c.2)%Z)
             ((λ ch, (ch_ch ch, filteredCount ch cats)) <$> b_chapters book)
  ∧ be_dots e ≠ []
  ∧ Forall (λ d, (0 < dot_count d)%Z ∧ 1 ≤ dot_heat d ≤ 4) (be_dots e)
  ∧ Exists (λ d, dot_heat d = 4) (be_dots e)
  ∧ be_totalRefs e = Zsum (dot_count <$> be_dots e).
Proof.
  unfold sidebar_entry.
  destruct (negb (bool_decide (term = [])) && negb _) eqn:Ht; [done|].
  remember (filter (λ c : Z * Z, (0 <? c.2)%Z) _) as chs eqn:Hchs.
  assert (Hpos : Forall (λ c : Z * Z, (0 < c.2)%Z) chs).
  { subst chs. apply Forall_forall. intros c [Hc _]%list_elem_of_filter.
    by apply Is_true_true, Z.ltb_lt in Hc. }
  clear Hchs. destruct chs as [|c cs] eqn:Ec; [done|]. rewrite <- Ec in *.
  intros [= <-]. cbn [be_book be_dots be_totalRefs].
  set (maxCount := list_max c.2 cs.*2).
  assert (Hmax : maxCount ∈ chs.*2 ∧ ∀ z, z ∈ chs.*2 → (z ≤ maxCount)%Z).
  { subst chs. rewrite fmap_cons. apply list_max_cons. }
  destruct Hmax as [Hmax1 Hmax2].
  assert (Hmpos : (0 < maxCount)%Z).
  { apply list_elem_of_fmap in Hmax1 as (c' & -> & Hc').
    rewrite Forall_forall in Hpos. by apply Hpos. }
  split; [done|]. split.
  { apply andb_false_iff in Ht as [Ht|Ht].
    - left. apply negb_false_iff in Ht. by apply bool_decide_eq_true in Ht.
    - right. by apply negb_false_iff in Ht. }
  split.
  { rewrite <- list_fmap_compose. clear. induction chs as [|[a b] chs IH]; [done|].
    rewrite fmap_cons. cbn. by rewrite IH. }
  split; [by rewrite Ec|]. split; [|split].
  - apply Forall_fmap. eapply Forall_impl; [exact Hpos|]. intros [a b] Hc'. cbn in *.
    split; [done|]. split; [apply heatLevel_ge_1; lia|apply heatLevel_le_4].
  - apply list_elem_of_fmap in Hmax1 as (c' & Hc'eq & Hc').
    apply Exists_exists. exists {| dot_ch := c'.1; dot_count := c'.2;
      dot_heat := heatLevel c'.2 maxCount;
      dot_active := bool_decide (ab = Some (b_slug book)) && bool_decide (ac = Some c'.1) |}.
    split.
    + apply list_elem_of_fmap. by exists c'.
    + cbn. rewrite <- Hc'eq. by apply heatLevel_top.
  - rewrite (foldl_add_Zsum snd). rewrite <- list_fmap_compose. simpl.
    f_equal.
Qed.

Lemma sidebar_entry_is_Some cats ab ac term book :
  is_Some (sidebar_entry toLowerCase cats ab ac term book)
  ↔ (term = [] ∨ ∃ a b, toLowerCase (b_name book) = a ++ term ++ b)
    ∧ ∃ ch, ch ∈ b_chapters book ∧ (0 < filteredCount ch cats)%Z.
Proof.
  split.
  - intros [e He]. pose proof (sidebar_entry_Some _ _ _ _ _ _ He)
      as (_ & Ht & Hd & Hne & _). split.
    + destruct Ht as [Ht|Ht]; [by left|right; by apply includes_spec].
    + destruct (be_dots e) as [|d ds]; [done|]. rewrite fmap_cons in Hd.
      assert (Hin : (dot_ch d, dot_count d) ∈ filter (λ c : Z * Z, (0 <? c.2)%Z)
                ((λ ch, (ch_ch ch, filteredCount ch cats)) <$> b_chapters book)).
      { rewrite <- Hd. left. }
      apply list_elem_of_filter in Hin as [Hp Hin].
      apply list_elem_of_fmap in Hin as (ch & Heq & Hch). exists ch. split; [done|].
      apply Is_true_true, Z.ltb_lt in Hp. by inversion Heq; subst.
  - intros [Ht (ch & Hch & Hp)]. unfold sidebar_entry.
    assert (negb (bool_decide (term = []))
            && negb (includes (toLowerCase (b_name book)) term) = false) as ->.
    { apply andb_false_iff. destruct Ht as [->|Ht]; [by left|right].
      apply negb_false_iff. by apply includes_spec. }
    destruct (filter _ _) as [|c cs] eqn:E; [|by eexists].
    exfalso. assert (Hin : (ch_ch ch, filteredCount ch cats)
      ∈ filter (λ c : Z * Z, (0 <? c.2)%Z)
           ((λ ch, (ch_ch ch, filteredCount ch cats)) <$> b_chapters book)).
    { apply list_elem_of_filter. split; [by apply Is_true_true, Z.ltb_lt|].
      apply list_elem_of_fmap. by exists ch. }
    rewrite E in Hin. by apply elem_of_nil in Hin.
Qed.

(** X6. The sidebar lists the books in the order of the index, a book exactly
    when its name matches the search term and a chapter of it has a positive
    count in the checked categories.  A listed book has a dot for each such
    chapter and no other; every dot has a heat between 1 and 4, one of them
    4; and the number of the badge is the sum of the counts of the dots. *)
Theorem renderSidebar_entries (books : list Book) (cats : gset jsstring)
    (activeBook : option jsstring) (activeChapter : option Z) (filter_ : jsstring) :
  let entries := renderSidebar toLowerCase books cats activeBook activeChapter filter_ in
  be_book <$> entries `sublist_of` books
  ∧ (∀ book, book ∈ be_book <$> entries
             ↔ book ∈ books
               ∧ (toLowerCase filter_ = []
                  ∨ ∃ a b, toLowerCase (b_name book) = a ++ toLowerCase filter_ ++ b)
               ∧ ∃ ch, ch ∈ b_chapters book ∧ (0 < filteredCount ch cats)%Z)
  ∧ Forall (λ e,
      (λ d, (dot_ch d, dot_count d)) <$> be_dots e
      = filter (λ c, (0 <? c.2)%Z)
               ((λ ch, (ch_ch ch, filteredCount ch cats)) <$> b_chapters (be_book e))
      ∧ be_dots e ≠ []
      ∧ Forall (λ d, (0 < dot_count d)%Z ∧ 1 ≤ dot_heat d ≤ 4) (be_dots e)
      ∧ Exists (λ d, dot_heat d = 4) (be_dots e)
      ∧ be_totalRefs e = Zsum (dot_count <$> be_dots e)) entries.
Proof.
  cbv zeta. unfold renderSidebar. split; [|split].
  - apply omap_sublist. intros book e He. by apply sidebar_entry_Some in He as [? _].
  - intros book. rewrite list_elem_of_fmap. split.
    + intros (e & -> & He). apply list_elem_of_omap in He as (book & Hb & He).
      pose proof (sidebar_entry_Some _ _ _ _ _ _ He) as [-> _].
      split; [done|].
      apply (proj1 (sidebar_entry_is_Some cats activeBook activeChapter
                      (toLowerCase filter_) book)). by eexists.
    + intros (Hb & Ht & Hch).
      destruct (proj2 (sidebar_entry_is_Some cats activeBook activeChapter
                         (toLowerCase filter_) book)) as [e He]; [done|].
      exists e. split; [by apply sidebar_entry_Some in He as [? _]|].
      apply list_elem_of_omap. by exists book.
  - apply Forall_forall. intros e He. apply list_elem_of_omap in He as (book & Hb & He).
    apply sidebar_entry_Some in He as (-> & _ & ? & ? & ? & ? & ?). done.
Qed.
End SidebarFacts.

Lemma Zsum_pos_exists (l : list Z) : (0 < Zsum l)%Z → ∃ z, z ∈ l ∧ (0 < z)%Z.
Proof.
  induction l as [|x l IH]; [unfold Zsum; simpl; lia|]. rewrite Zsum_cons. intros H.
  destruct (decide (0 < x)%Z) as [Hx|Hx].
  - exists x. split; [left|done].
  - destruct IH as (z & Hz & Hp); [lia|]. exists z. split; [by right|done].
Qed.

Lemma book_total_Zsum cats book :
  book_total cats book = Zsum ((λ ch, filteredCount ch cats) <$> b_chapters book).
Proof. unfold book_total. rewrite (foldl_add_Zsum (λ ch, filteredCount ch cats)). lia. Qed.

Lemma book_total_pos cats book :
  (0 < book_total cats book)%Z →
  ∃ ch, ch ∈ b_chapters book ∧ (0 < filteredCount ch cats)%Z.
Proof.
  rewrite book_total_Zsum. intros (z & Hz & Hp)%Zsum_pos_exists.
  apply list_elem_of_fmap in Hz as (ch & -> & Hch). by exists ch.
Qed.

(** X7. The coverage heat map has one cell for each book of the index, in
    that order, with the sum of the filtered counts of its chapters.  A cell
    can be clicked exactly when that sum is positive, and the book then has a
    chapter with a positive count; its heat is 0 exactly when the sum is 0
    and never more than 4; and when some cell can be clicked, a cell with the
    largest sum has heat 4. *)
Theorem renderBibleHeatmap_cells (books : list Book) (cats : gset jsstring) :
  let cells := renderBibleHeatmap books cats in
  cell_book <$> cells = books
  ∧ Forall (λ c,
      cell_total c = Zsum ((λ ch, filteredCount ch cats) <$> b_chapters (cell_book c))
      ∧ (cell_enabled c = true ↔ (0 < cell_total c)%Z)
      ∧ (cell_enabled c = true →
         ∃ ch, ch ∈ b_chapters (cell_book c) ∧ (0 < filteredCount ch cats)%Z)
      ∧ (cell_heat c = 0 ↔ cell_total c = 0%Z)
      ∧ cell_heat c ≤ 4) cells
  ∧ (Exists (λ c, cell_enabled c = true) cells →
     Exists (λ c, cell_heat c = 4 ∧ Forall (λ c', (cell_total c' ≤ cell_total c)%Z) cells)
            cells).
Proof.
  cbv zeta. unfold renderBibleHeatmap.
  set (maxTotal := list_max 1%Z (book_total cats <$> books)).
  split; [|split].
  - rewrite <- list_fmap_compose. generalize maxTotal. intros m.
    induction books as [|b l IH]; [done|]. rewrite fmap_cons. cbn. by rewrite IH.
  - apply Forall_fmap, Forall_forall. intros book _. cbn.
    split; [apply book_total_Zsum|]. split; [apply Z.ltb_lt|].
    split; [intros H%Z.ltb_lt; by apply book_total_pos|]. split; [|apply heatLevel_le_4].
    split.
    + intros H. destruct (decide (book_total cats book = 0%Z)) as [|Hne]; [done|].
      pose proof (heatLevel_ge_1 _ maxTotal Hne). lia.
    + intros ->. done.
  - intros (c & Hc & He)%Exists_exists.
    apply list_elem_of_fmap in Hc as (book & -> & Hbook). cbn in He. apply Z.ltb_lt in He.
    destruct (list_max_cons 1%Z (book_total cats <$> books)) as [Hin Hle].
    fold maxTotal in Hin, Hle.
    assert (Hge : (book_total cats book ≤ maxTotal)%Z).
    { apply Hle. right. by apply list_elem_of_fmap_2. }
    apply elem_of_cons in Hin as [Hone|Hin].
    + (* the maximum is the 1 of [Math.max(1, ...)] *)
      apply Exists_exists.
      exists {| cell_book := book; cell_total := book_total cats book;
                cell_heat := heatLevel (book_total cats book) maxTotal;
                cell_enabled := (0 <? book_total cats book)%Z |}.
      split; [apply list_elem_of_fmap; by exists book|]. cbn.
      assert (book_total cats book = maxTotal) as -> by lia.
      split; [apply heatLevel_top; lia|].
      apply Forall_fmap, Forall_forall. intros b' Hb'. cbn. apply Hle. right.
      by apply list_elem_of_fmap_2.
    + apply list_elem_of_fmap in Hin as (bmax & Hmax & Hbmax).
      apply Exists_exists.
      exists {| cell_book := bmax; cell_total := book_total cats bmax;
                cell_heat := heatLevel (book_total cats bmax) maxTotal;
                cell_enabled := (0 <? book_total cats bmax)%Z |}.
      split; [apply list_elem_of_fmap; by exists bmax|]. cbn. rewrite <- Hmax.
      split; [apply heatLevel_top; lia|].
      apply Forall_fmap, Forall_forall. intros b' Hb'. cbn. apply Hle. right.
      by apply list_elem_of_fmap_2.
Qed.

Lemma find_book_Some books slug book :
  find_book books slug = Some book →
  book ∈ books ∧ b_slug book = slug.
Proof.
  unfold find_book. destruct (list_find _ books) as [[i b]|] eqn:E; [|done].
  intros [= <-]. apply list_find_Some in E as (Hi & Hs & _).
  split; [by eapply list_elem_of_lookup_2|done].
Qed.

Lemma find_book_NoDup books book :
  NoDup (b_slug <$> books) → book ∈ books → find_book books (b_slug book) = Some book.
Proof.
  intros Hnd Hb. unfold find_book.
  destruct (list_find (λ b, b_slug b = b_slug book) books) as [[i b]|] eqn:E.
  - apply list_find_Some in E as (Hi & Hs & _). simpl. f_equal.
    apply list_elem_of_lookup_1 in Hb as [j Hj].
    assert (i = j) as ->.
    { eapply NoDup_lookup; [exact Hnd| |]; rewrite list_lookup_fmap.
      - by rewrite Hi.
      - by rewrite Hj, Hs. }
    by rewrite Hi in Hj; inversion Hj.
  - exfalso. apply list_find_None in E. rewrite Forall_forall in E. by apply (E book).
Qed.

Lemma firstCh_Some books cats slug ch :
  firstCh books cats slug = Some ch →
  ∃ book before after,
    find_book books slug = Some book
    ∧ b_chapters book = before ++ ch :: after
    ∧ (0 < filteredCount ch cats)%Z
    ∧ Forall (λ c, (filteredCount c cats ≤ 0)%Z) before.
Proof.
  unfold firstCh. destruct (find_book books slug) as [book|]; [|done]. cbn.
  destruct (list_find _ (b_chapters book)) as [[i c]|] eqn:E; [|done].
  intros [= <-]. apply list_find_Some in E as (Hi & Hp & Hbefore).
  exists book, (take i (b_chapters book)), (drop (S i) (b_chapters book)).
  split; [done|]. split; [by rewrite take_drop_middle|]. split; [done|].
  apply Forall_forall. intros c' Hc'. apply list_elem_of_lookup_1 in Hc' as [j Hj].
  pose proof (lookup_lt_Some _ _ _ Hj) as Hlt. rewrite length_take in Hlt.
  rewrite lookup_take in Hj by lia. case_decide; [|lia].
  specialize (Hbefore j c' Hj ltac:(lia)). lia.
Qed.

Lemma firstCh_is_Some books cats slug book :
  find_book books slug = Some book →
  (0 < book_total cats book)%Z →
  is_Some (firstCh books cats slug).
Proof.
  intros Hf (ch & Hch & Hp)%book_total_pos. unfold firstCh. rewrite Hf. cbn.
  destruct (list_find _ (b_chapters book)) as [[i c]|] eqn:E; [by eexists|].
  exfalso. apply list_find_None in E. rewrite Forall_forall in E. by apply (E ch).
Qed.

(** ** Modes and panes *)

Lemma renderVizTab_mode works cats st :
  activeMode (renderVizTab works cats st) = activeMode st
  ∧ activeWorkId (renderVizTab works cats st) = activeWorkId st.
Proof. unfold renderVizTab. by destruct (size cats =? 0). Qed.

Lemma setMode_spec works cats mode ui :
  let ui' := setMode works cats mode ui in
  activeMode (ui_app ui') = mode
  ∧ activeWorkId (ui_app ui') = activeWorkId (ui_app ui)
  ∧ activeBook ui' = activeBook ui
  ∧ activeChapter ui' = activeChapter ui
  ∧ activeVerse ui' = activeVerse ui
  ∧ visible_panes (panels ui')
    = [pane_of mode (activeChapter ui) (activeVerse ui) (activeWorkId (ui_app ui))]
  ∧ sidebarEl_hidden (panels ui') = match mode with ModeViz => true | _ => false end
  ∧ scripturePanelEl_hidden (panels ui')
    = match mode with ModeScripture => false | _ => true end
  ∧ worksPanelEl_hidden (panels ui') = match mode with ModeWorks => false | _ => true end.
Proof.
  cbv zeta. destruct ui as [st ab ac av p].
  destruct mode; cbn [setMode ui_app activeBook activeChapter activeVerse panels].
  - destruct ac, av; split_and!; reflexivity.
  - destruct st as [v c vv pe m [w|] wl lo]; split_and!; reflexivity.
  - destruct (renderVizTab_mode works cats (set_activeMode ModeViz st)) as [-> ->].
    split_and!; reflexivity.
Qed.

(** X8. Whatever was shown before, [setMode] leaves exactly one of the five
    panes visible: the charts in the visualisation mode; in the scripture
    mode the welcome pane when no chapter is selected, else the verse table
    or, when a verse is selected, the citations; in the works mode the work
    when one is selected, else the welcome pane.  The selection is not
    changed, the sidebar is hidden exactly in the visualisation mode and each
    of its two panels is shown exactly in its own mode. *)
Theorem setMode_one_pane (works : list Work) (cats : gset jsstring) (mode : Mode)
    (ui : Ui) :
  let ui' := setMode works cats mode ui in
  visible_panes (panels ui')
  = [pane_of mode (activeChapter ui) (activeVerse ui) (activeWorkId (ui_app ui))]
  ∧ activeMode (ui_app ui') = mode
  ∧ (activeBook ui', activeChapter ui', activeVerse ui', activeWorkId (ui_app ui'))
    = (activeBook ui, activeChapter ui, activeVerse ui, activeWorkId (ui_app ui))
  ∧ sidebarEl_hidden (panels ui') = match mode with ModeViz => true | _ => false end
  ∧ scripturePanelEl_hidden (panels ui')
    = match mode with ModeScripture => false | _ => true end
  ∧ worksPanelEl_hidden (panels ui') = match mode with ModeWorks => false | _ => true end
  ∧ (mode ≠ ModeViz → setMode works cats mode ui' = ui').
Proof.
  cbv zeta.
  destruct (setMode_spec works cats mode ui) as (H1 & H2 & H3 & H4 & H5 & H6 & H7 & H8 & H9).
  split; [done|]. split; [done|]. split; [by rewrite H2, H3, H4, H5|].
  split; [done|]. split; [done|]. split; [done|].
  intros Hm. destruct mode; [| |done].
  - unfold setMode. cbn [ui_app activeBook activeChapter activeVerse panels].
    destruct ui as [st ab ac av p]. cbn. destruct ac, av; done.
  - unfold setMode. cbn [ui_app activeBook activeChapter activeVerse panels].
    destruct ui as [st ab ac av p]. cbn. destruct (activeWorkId st); done.
Qed.

Lemma setMode_panes works cats mode ui :
  visible_panes (panels (setMode works cats mode ui))
  = [pane_of mode (activeChapter ui) (activeVerse ui) (activeWorkId (ui_app ui))].
Proof. by destruct (setMode_spec works cats mode ui) as (_ & _ & _ & _ & _ & H & _). Qed.

(** X9. Each way into a view leaves exactly one pane visible, whatever was
    shown before: the verse table after [showVerseView], the citations after
    [loadChapter], the work after [loadWork] and [navigateToWork].
    [loadChapterFiltered] turns the visible verse table into the citations.
    [toggleBook] shows the welcome pane when it closes the open book; when it
    opens another book it clears the selected chapter and leaves the panes as
    they are, so that a later [setMode] of the scripture mode shows the
    welcome pane. *)
Theorem navigation_one_pane (works : list Work) (cats : gset jsstring) (ui : Ui) :
  (∀ slug ch, visible_panes (panels (showVerseView_begin works cats slug ch ui))
              = [VerseView])
  ∧ (∀ slug ch, visible_panes (panels (loadChapter_begin works cats slug ch ui))
                = [ChapterView])
  ∧ (∀ workId, visible_panes (panels (loadWork_ui works cats workId ui)) = [WorkView]
               ∧ visible_panes (panels (navigateToWork works cats workId ui)) = [WorkView]
               ∧ activeWorkId (ui_app (navigateToWork works cats workId ui)) = Some workId
               ∧ activeMode (ui_app (navigateToWork works cats workId ui)) = ModeWorks)
  ∧ (∀ key, visible_panes (panels ui) = [VerseView] →
            visible_panes (panels (loadChapterFiltered_begin key ui)) = [ChapterView])
  ∧ (∀ slug, activeBook ui = Some slug → vizViewEl_hidden (panels ui) = true →
             visible_panes (panels (toggleBook slug ui)) = [Welcome]
             ∧ activeBook (toggleBook slug ui) = None)
  ∧ (∀ slug, activeBook ui ≠ Some slug →
             panels (toggleBook slug ui) = panels ui
             ∧ activeBook (toggleBook slug ui) = Some slug
             ∧ activeChapter (toggleBook slug ui) = None
             ∧ visible_panes
                 (panels (setMode works cats ModeScripture (toggleBook slug ui)))
               = [Welcome]).
Proof.
  split_and!.
  - intros slug ch. unfold showVerseView_begin. by rewrite setMode_panes.
  - intros slug ch. unfold loadChapter_begin. by rewrite setMode_panes.
  - intros workId. unfold navigateToWork, loadWork_ui.
    cbn [panels ui_app activeBook activeChapter activeVerse].
    rewrite !setMode_panes. cbn [ui_app]. split_and!; try done.
  - intros key. destruct ui as [st ab ac av [p1 p2 p3 p4 p5 p6 p7 p8]].
    unfold visible_panes. cbn. destruct p5, p6, p7, p8, p4; by intros [=].
  - intros slug Hs Hv. unfold toggleBook. rewrite bool_decide_eq_true_2 by done.
    cbn. unfold visible_panes. cbn. by rewrite Hv.
  - intros slug Hs. unfold toggleBook. rewrite bool_decide_eq_false_2 by done.
    split_and!; done.
Qed.

Lemma navigation_one_pane_witness :
  visible_panes
    (panels (loadChapterFiltered_begin (str "13")
               (showVerseView_begin sample_index sample_active (str "romans") 8 sample_ui)))
  = [ChapterView].
Proof.
  apply (proj1 (proj2 (proj2 (proj2
           (navigation_one_pane sample_index sample_active
              (showVerseView_begin sample_index sample_active (str "romans") 8
                 sample_ui)))))).
  vm_compute. reflexivity.
Defined.

Lemma navigateToBook_Some works books cats slug ui ch :
  firstCh books cats slug = Some ch →
  let ui' := navigateToBook works books cats slug ui in
  visible_panes (panels ui') = [ChapterView]
  ∧ activeBook ui' = Some slug
  ∧ activeChapter ui' = Some (ch_ch ch)
  ∧ activeVerse ui' = Some (str "all")
  ∧ activeMode (ui_app ui') = ModeScripture.
Proof.
  intros Hf. cbv zeta. unfold navigateToBook. rewrite Hf. unfold loadChapter_begin.
  rewrite setMode_panes. split; [done|].
  match goal with |- context [setMode works cats ModeScripture ?u] =>
    destruct (setMode_spec works cats ModeScripture u) as (-> & _ & -> & -> & -> & _) end.
  done.
Qed.

Lemma navigateToBook_None works books cats slug ui :
  firstCh books cats slug = None →
  let ui' := navigateToBook works books cats slug ui in
  visible_panes (panels ui') = [Welcome]
  ∧ activeBook ui' = Some slug
  ∧ activeChapter ui' = None
  ∧ activeMode (ui_app ui') = ModeScripture.
Proof.
  intros Hf. cbv zeta. unfold navigateToBook. rewrite Hf.
  rewrite setMode_panes. split; [done|].
  match goal with |- context [setMode works cats ModeScripture ?u] =>
    destruct (setMode_spec works cats ModeScripture u) as (-> & _ & -> & -> & _) end.
  done.
Qed.

(** X10. In an index without two books of the same slug, a click on a cell
    of the heat map that can be clicked opens the citations of a chapter:
    [navigateToBook] selects the book, its first chapter with a positive
    count in the checked categories and the verse key [all], switches to the
    scripture mode and leaves the citations as the one visible pane. *)
Theorem heatmap_click_opens_chapter (works : list Work) (books : list Book)
    (cats : gset jsstring) (c : Cell) (ui : Ui) :
  NoDup (b_slug <$> books) →
  c ∈ renderBibleHeatmap books cats →
  cell_enabled c = true →
  ∃ before ch after,
    b_chapters (cell_book c) = before ++ ch :: after
    ∧ (0 < filteredCount ch cats)%Z
    ∧ Forall (λ c', (filteredCount c' cats ≤ 0)%Z) before
    ∧ let ui' := navigateToBook works books cats (b_slug (cell_book c)) ui in
      visible_panes (panels ui') = [ChapterView]
      ∧ activeBook ui' = Some (b_slug (cell_book c))
      ∧ activeChapter ui' = Some (ch_ch ch)
      ∧ activeVerse ui' = Some (str "all")
      ∧ activeMode (ui_app ui') = ModeScripture.
Proof.
  intros Hnd Hc He. unfold renderBibleHeatmap in Hc.
  apply list_elem_of_fmap in Hc as (book & -> & Hbook). cbn in *.
  apply Z.ltb_lt in He.
  pose proof (find_book_NoDup _ _ Hnd Hbook) as Hfind.
  destruct (firstCh_is_Some books cats _ _ Hfind He) as [ch Hch].
  destruct (firstCh_Some _ _ _ _ Hch) as (book' & before & after & Hf' & Hsplit & Hpos & Hbefore).
  rewrite Hfind in Hf'. injection Hf' as <-.
  exists before, ch, after. split; [done|]. split; [done|]. split; [done|].
  by apply navigateToBook_Some.
Qed.

Lemma heatmap_click_opens_chapter_witness :
  ∃ before ch after,
    b_chapters (hd (Build_Book [] [] []) sample_books) = before ++ ch :: after
    ∧ (0 < filteredCount ch sample_active)%Z
    ∧ Forall (λ c', (filteredCount c' sample_active ≤ 0)%Z) before
    ∧ visible_panes (panels (navigateToBook sample_index sample_books sample_active
                               (str "romans") sample_ui)) = [ChapterView]
    ∧ activeBook (navigateToBook sample_index sample_books sample_active
                    (str "romans") sample_ui) = Some (str "romans")
    ∧ activeChapter (navigateToBook sample_index sample_books sample_active
                       (str "romans") sample_ui) = Some (ch_ch ch)
    ∧ activeVerse (navigateToBook sample_index sample_books sample_active
                     (str "romans") sample_ui) = Some (str "all")
    ∧ activeMode (ui_app (navigateToBook sample_index sample_books sample_active
                            (str "romans") sample_ui)) = ModeScripture.
Proof.
  assert (Hnd : NoDup (b_slug <$> sample_books)).
  { apply (bool_decide_unpack (NoDup (b_slug <$> sample_books))). vm_compute. exact I. }
  assert (Hc : {| cell_book := hd (Build_Book [] [] []) sample_books; cell_total := 7;
                  cell_heat := 4; cell_enabled := true |}
               ∈ renderBibleHeatmap sample_books sample_active).
  { assert (E : renderBibleHeatmap sample_books sample_active
              = [ {| cell_book := hd (Build_Book [] [] []) sample_books; cell_total := 7;
                     cell_heat := 4; cell_enabled := true |};
                  {| cell_book := {| b_name := str "Jude"; b_slug := str "jude";
                       b_chapters := [ {| ch_ch := 1; ch_count := 2;
                          ch_by_cat := Some {[ str "Syriac" := 2%Z ]} |} ] |};
                     cell_total := 0; cell_heat := 0; cell_enabled := false |} ])
      by (vm_compute; reflexivity).
    rewrite E. left. }
  exact (heatmap_click_opens_chapter sample_index sample_books sample_active _ sample_ui
           Hnd Hc eq_refl).
Defined.

(** ** Verse table *)

Lemma group_push_lengths key ref groups :
  sum_list (length <$> (group_push key ref groups).*2) = S (sum_list (length <$> groups.*2)).
Proof.
  induction groups as [|[k refs] groups IH]; [done|]. cbn [group_push].
  destruct (decide (k = key)); rewrite !fmap_cons; cbn [snd].
  - rewrite ?fmap_cons, length_app. cbn. lia.
  - rewrite ?fmap_cons. cbn. rewrite IH. lia.
Qed.

Lemma groupByVerse_lengths worksById cats refs groups :
  sum_list (length <$> (fold_left (group_step worksById cats) refs groups).*2)
  = sum_list (length <$> groups.*2)
    + length (filter (λ ref, kept worksById cats ref = true) refs).
Proof.
  revert groups. induction refs as [|ref refs IH]; intros groups; [simpl; lia|].
  cbn [fold_left]. rewrite IH, group_step_kept.
  destruct (kept worksById cats ref) eqn:Hk.
  - rewrite group_push_lengths, filter_cons_True by done. simpl. lia.
  - rewrite filter_cons_False by congruence. lia.
Qed.

Lemma group_get_lengths (groups : list (jsstring * list Citation)) :
  NoDup groups.*1 →
  sum_list ((λ key, length (default [] (group_get key groups))) <$> groups.*1)
  = sum_list (length <$> groups.*2).
Proof.
  induction groups as [|[k refs] groups IH]; [done|].
  rewrite !fmap_cons. cbn [fst snd]. intros [Hk Hnd]%NoDup_cons.
  cbn [sum_list sum_list_with fmap list_fmap group_get]. rewrite decide_True by done.
  cbn. f_equal. rewrite <- IH by done. f_equal.
  apply list_fmap_ext. intros i k' Hk'. cbn. rewrite decide_False; [done|].
  intros ->. apply Hk. by eapply list_elem_of_lookup_2.
Qed.

Lemma sum_list_Permutation (l1 l2 : list nat) : l1 ≡ₚ l2 → sum_list l1 = sum_list l2.
Proof. intros H. by rewrite H. Qed.

Lemma groupByVerse_invariant worksById cats refs :
  NoDup (groupByVerse worksById cats refs).*1
  ∧ Forall (λ g, g.2 ≠ []) (groupByVerse worksById cats refs).
Proof. apply fold_group_invariant; constructor. Qed.

Lemma list_max_fmap_nat (n : nat) (ns : list nat) :
  ∃ m, m ∈ n :: ns ∧ list_max (Z.of_nat n) (Z.of_nat <$> ns) = Z.of_nat m
       ∧ ∀ k, k ∈ n :: ns → k ≤ m.
Proof.
  destruct (list_max_cons (Z.of_nat n) (Z.of_nat <$> ns)) as [Hin Hle].
  rewrite <- fmap_cons in Hin. apply list_elem_of_fmap in Hin as (m & Hm & Hin).
  exists m. split; [done|]. split; [done|]. intros k Hk.
  assert (Z.of_nat k ≤ list_max (Z.of_nat n) (Z.of_nat <$> ns))%Z.
  { apply Hle. rewrite <- fmap_cons. by apply list_elem_of_fmap_2. }
  lia.
Qed.

Lemma group_get_elem (groups : list (jsstring * list Citation)) k r :
  NoDup groups.*1 → (k, r) ∈ groups → group_get k groups = Some r.
Proof.
  induction groups as [|[k' r'] groups IH]; intros Hnd Hin; [by apply elem_of_nil in Hin|].
  rewrite fmap_cons in Hnd. apply NoDup_cons in Hnd as [Hk Hnd]. cbn.
  apply elem_of_cons in Hin as [[= <- <-]|Hin]; [by rewrite decide_True|].
  rewrite decide_False; [by apply IH|]. intros ->. apply Hk.
  apply list_elem_of_fmap. by exists (k, r).
Qed.

(** X11. The verse table has one row for each key of [orderedKeys], in that
    order and without repetition.  The count of a row is the number of
    citations of the chapter that are kept (known work, checked category) and
    have the row's key as primary verse key; it is at least 1, the counts add
    up to the number of kept citations, every heat is between 1 and 4 and
    some row has heat 4.  The notice for the categories is shown exactly when
    the chapter has citations and none is kept. *)
Theorem renderVerseTable_rows (worksById : gmap Z Work) (cats : gset jsstring)
    (cd : ChapterData) :
  let groups := groupByVerse worksById cats (cd_refs cd) in
  let keptRefs := filter (λ ref, kept worksById cats ref = true) (cd_refs cd) in
  (renderVerseTable worksById cats (Some cd) = NoReferencesFound ↔ cd_refs cd = [])
  ∧ (renderVerseTable worksById cats (Some cd) = NoReferencesForCategories
     ↔ cd_refs cd ≠ [] ∧ keptRefs = [])
  ∧ (keptRefs ≠ [] →
     ∃ rows,
       renderVerseTable worksById cats (Some cd) = VerseRows rows
       ∧ row_key <$> rows = orderedKeys groups
       ∧ NoDup (row_key <$> rows)
       ∧ Forall (λ r,
           row_count r
           = length (filter (λ ref, kept worksById cats ref = true
                                    ∧ primaryVerseKey (ref_v ref) = row_key r)
                            (cd_refs cd))
           ∧ 1 ≤ row_count r ∧ 1 ≤ row_heat r ≤ 4) rows
       ∧ Exists (λ r, row_heat r = 4) rows
       ∧ sum_list (row_count <$> rows) = length keptRefs).
Proof.
  cbv zeta. unfold renderVerseTable.
  pose proof (groupByVerse_invariant worksById cats (cd_refs cd)) as [Hnd Hne].
  pose proof (groupByVerse_lengths worksById cats (cd_refs cd) []) as Hsum.
  fold (groupByVerse worksById cats (cd_refs cd)) in Hsum. simpl in Hsum.
  assert (Hget : ∀ key, group_get key (groupByVerse worksById cats (cd_refs cd))
            = match filter (λ ref, kept worksById cats ref = true
                                   ∧ primaryVerseKey (ref_v ref) = key) (cd_refs cd) with
              | [] => None
              | l => Some l
              end) by (intros; apply groupByVerse_get).
  remember (groupByVerse worksById cats (cd_refs cd)) as groups eqn:Hg. clear Hg.
  remember (filter (λ ref, kept worksById cats ref = true) (cd_refs cd)) as keptRefs.
  assert (Hempty : groups = [] ↔ keptRefs = []).
  { split.
    - intros ->. simpl in Hsum. by destruct keptRefs.
    - intros ->. simpl in Hsum. destruct groups as [|[k refs] groups]; [done|].
      exfalso. apply Forall_cons in Hne as [Hr _]. simpl in Hr.
      rewrite !fmap_cons in Hsum. cbn in Hsum. destruct refs; [done|]. simpl in Hsum. lia. }
  destruct (cd_refs cd) as [|ref refs] eqn:Hrefs.
  { split; [done|]. split; [split; [done|by intros [? _]]|].
    intros Hk. exfalso. apply Hk. by subst keptRefs. }
  rewrite <- Hrefs in *.
  destruct groups as [|g gs] eqn:Egroups.
  { split; [split; [done|by rewrite Hrefs]|]. split.
    - split; [|done]. intros _. split; [by rewrite Hrefs|]. by apply Hempty.
    - intros Hk. exfalso. by apply Hk, Hempty. }
  rewrite <- Egroups in *.
  split; [split; [done|by rewrite Hrefs]|]. split.
  { split; [done|]. intros [_ Hk]. apply Hempty in Hk. by rewrite Egroups in Hk. }
  intros _. eexists. split; [reflexivity|].
  set (maxCount := list_max (Z.of_nat (length g.2)) ((λ r, Z.of_nat (length r)) <$> gs.*2)).
  assert (Hperm : orderedKeys groups ≡ₚ groups.*1) by by apply orderedKeys_Permutation.
  assert (Hcount : ∀ key, key ∈ groups.*1 →
            ∃ refs', group_get key groups = Some refs' ∧ refs' ≠ []
                     ∧ refs' = filter (λ ref, kept worksById cats ref = true
                                   ∧ primaryVerseKey (ref_v ref) = key) (cd_refs cd)).
  { intros key Hkey. apply group_get_is_Some in Hkey as [refs' Hget'].
    exists refs'. split; [done|]. split; [by eapply group_get_nonempty|].
    rewrite Hget in Hget'.
    remember (filter (λ ref, kept worksById cats ref = true
                             ∧ primaryVerseKey (ref_v ref) = key) (cd_refs cd)) as fl.
    destruct fl; by inversion Hget'. }
  destruct (list_max_fmap_nat (length g.2) (length <$> gs.*2)) as (m & Hm & Hmax & Hmle).
  rewrite <- list_fmap_compose in Hmax.
  change (list_max (Z.of_nat (length g.2)) ((Z.of_nat ∘ length) <$> gs.*2))
    with maxCount in Hmax.
  assert (Hm' : ∃ gm, gm ∈ groups ∧ length gm.2 = m).
  { rewrite Egroups. rewrite <- fmap_cons, <- fmap_cons in Hm.
    apply list_elem_of_fmap in Hm as (r & -> & Hr).
    apply list_elem_of_fmap in Hr as (gm & -> & Hgm). by exists gm. }
  destruct Hm' as ([km rm] & Hgm & Hlen). simpl in Hlen.
  assert (Hmpos : 0 < m).
  { rewrite Forall_forall in Hne. specialize (Hne _ Hgm). simpl in Hne.
    destruct rm; [done|]. simpl in Hlen. lia. }
  assert (Hkeys : row_key <$> ((λ key, {| row_key := key;
              row_count := length (default [] (group_get key groups));
              row_heat := heatLevel (Z.of_nat (length (default [] (group_get key groups))))
                            maxCount |}) <$> orderedKeys groups) = orderedKeys groups).
  { rewrite <- list_fmap_compose. generalize (orderedKeys groups). intros l.
    induction l as [|x l IH]; [done|]. rewrite fmap_cons. cbn. by rewrite IH. }
  split; [exact Hkeys|]. split; [|split; [|split]].
  - rewrite Hkeys, Hperm. done.
  - apply Forall_fmap, Forall_forall. intros key Hkey. rewrite Hperm in Hkey. cbn.
    destruct (Hcount key Hkey) as (refs' & -> & Hne' & Heq). cbn. rewrite <- Heq.
    assert (0 < length refs') by (destruct refs'; [done|simpl; lia]).
    split; [done|]. split; [lia|]. split; [apply heatLevel_ge_1; lia|apply heatLevel_le_4].
  - apply Exists_exists. eexists. split.
    + apply list_elem_of_fmap. exists km. split; [reflexivity|]. rewrite Hperm.
      apply list_elem_of_fmap. by exists (km, rm).
    + cbn. rewrite (group_get_elem groups km rm) by done.
      cbn. rewrite Hlen, <- Hmax. apply heatLevel_top. lia.
  - rewrite <- list_fmap_compose.
    rewrite (sum_list_Permutation _ ((λ key, length (default [] (group_get key groups)))
                                       <$> groups.*1)).
    + by rewrite group_get_lengths.
    + apply fmap_Permutation. exact Hperm.
Qed.

Lemma renderVerseTable_rows_witness :
  ∃ rows,
    renderVerseTable sample_works sample_active (Some sample_chData) = VerseRows rows
    ∧ row_key <$> rows = [str "whole"; str "2"; str "9"; str "10"]
    ∧ sum_list (row_count <$> rows) = 5.
Proof.
  destruct (proj2 (proj2 (renderVerseTable_rows sample_works sample_active sample_chData)))
    as (rows & H1 & H2 & _ & _ & _ & H6); [vm_compute; discriminate|].
  exists rows. split; [exact H1|]. split.
  - rewrite H2. vm_compute. reflexivity.
  - rewrite H6. vm_compute. reflexivity.
Defined.


(** ** Citation cards and their filters *)

Lemma category_or_other_nonempty w : category_or_other w ≠ [].
Proof. unfold category_or_other. by destruct (w_category w) as [[|c s]|]. Qed.


Lemma card_hidden_author a cats card :
  a ≠ [] → card_category card ≠ [] →
  card_hidden a cats card
  = negb (bool_decide (card_author card = a) && bool_decide (card_category card ∈ cats)).
Proof.
  intros Ha H. unfold card_hidden. cbv zeta. rewrite (bool_decide_eq_false_2 (a = [])) by done.
  destruct (card_category card) eqn:E; [done|]. cbn.
  by destruct (bool_decide (card_author card = a)), (bool_decide (_ ∈ cats)).
Qed.

Lemma ref_cards_category worksById refs :
  Forall (λ c, card_category c ≠ []
               ∧ ∃ work, worksById !! ref_w (card_ref c) = Some work
                         ∧ card_author c = w_author work
                         ∧ card_category c = category_or_other work)
         (ref_cards worksById refs).
Proof.
  apply Forall_forall. intros c (ref & _ & Hc)%list_elem_of_omap.
  destruct (worksById !! ref_w ref) as [work|] eqn:Hw; [|done]. cbn in Hc.
  injection Hc as <-. cbn. split; [apply category_or_other_nonempty|]. by exists work.
Qed.

Lemma visible_cards_filter (P : Card → Prop) `{∀ c, Decision (P c)} a cats cards :
  Forall (λ c, card_hidden a cats c = false ↔ P c) cards →
  visible_cards a cats cards = filter P cards.
Proof.
  unfold visible_cards, applyCombinedFilter.
  induction 1 as [|c cards Hc _ IH]; [done|]. rewrite fmap_cons.
  destruct (card_hidden a cats c) eqn:E.
  - rewrite filter_cons_False by (cbn; congruence).
    rewrite filter_cons_False; [done|]. intros HP. apply Hc in HP. congruence.
  - rewrite filter_cons_True by done. rewrite filter_cons_True by by apply Hc.
    rewrite fmap_cons. cbn. by rewrite IH.
Qed.





(** ** Sets of strings in sorted order *)

Lemma str_compare_refl a : str_compare a a = Eq.
Proof. induction a as [|x a IH]; [done|]. cbn. by rewrite N.compare_refl. Qed.

Lemma str_compare_eq a b : str_compare a b = Eq → a = b.
Proof.
  revert b. induction a as [|x a IH]; intros [|y b]; cbn; try done.
  destruct (N.compare_spec x y) as [->|?|?]; try done. intros H. f_equal. by apply IH.
Qed.

Lemma str_compare_antisym a b : str_compare b a = CompOpp (str_compare a b).
Proof.
  revert b. induction a as [|x a IH]; intros [|y b]; cbn; try done.
  rewrite (N.compare_antisym x y). destruct (x ?= y)%N; cbn; [apply IH|done..].
Qed.

Lemma str_compare_trans a b c :
  str_compare a b = Lt → str_compare b c = Lt → str_compare a c = Lt.
Proof.
  revert b c. induction a as [|x a IH]; intros [|y b] [|z c]; cbn; try done.
  destruct (N.compare_spec x y) as [->|Hxy|Hxy]; try done.
  - destruct (N.compare_spec y z) as [->|Hyz|Hyz]; try done. apply IH.
  - intros _. destruct (N.compare_spec y z) as [->|Hyz|Hyz]; try done.
    + intros _. by apply N.compare_lt_iff in Hxy as ->.
    + intros _. assert (x < z)%N as ->%N.compare_lt_iff by lia. done.
Qed.

Lemma str_le_trans a b c : str_le a b → str_le b c → str_le a c.
Proof.
  unfold str_le. intros Hab Hbc.
  destruct (str_compare a b) eqn:E1; [|clear Hab|done].
  - by apply str_compare_eq in E1 as ->.
  - destruct (str_compare b c) eqn:E2; [| |done].
    + apply str_compare_eq in E2 as <-. by rewrite E1.
    + by rewrite (str_compare_trans a b c).
Qed.

Section SortTotal.
Context {A : Type} (gt : A → A → bool) (le : A → A → Prop).
Hypothesis gt_false : ∀ x y, gt x y = false → le x y.
Hypothesis gt_true : ∀ x y, gt x y = true → le y x.
Hypothesis le_trans : ∀ x y z, le x y → le y z → le x z.

Lemma sort_insert_sorted_total x l :
  StronglySorted le l → StronglySorted le (sort_insert gt x l).
Proof.
  induction 1 as [|y l Hl IH Hy]; cbn.
  - by repeat constructor.
  - destruct (gt x y) eqn:E.
    + constructor; [done|]. rewrite sort_insert_Permutation. constructor; [|done].
      by apply gt_true.
    + constructor; [by constructor|]. constructor; [by apply gt_false|].
      eapply Forall_impl; [exact Hy|]. intros z Hz. eapply le_trans; [|exact Hz].
      by apply gt_false.
Qed.

Lemma array_sort_sorted_total l : StronglySorted le (array_sort gt l).
Proof.
  induction l as [|x l IH]; cbn; [constructor|]. by apply sort_insert_sorted_total.
Qed.
End SortTotal.

Lemma set_of_spec {A} `{EqDecision A} (l : list A) :
  NoDup (set_of l) ∧ ∀ x, x ∈ set_of l ↔ x ∈ l.
Proof.
  unfold set_of.
  assert (G : ∀ seen, NoDup seen →
            NoDup (foldl (λ seen x, if bool_decide (x ∈ seen) then seen else seen ++ [x])
                         seen l)
            ∧ ∀ x, x ∈ foldl (λ seen x, if bool_decide (x ∈ seen) then seen else seen ++ [x])
                              seen l ↔ x ∈ seen ∨ x ∈ l).
  { induction l as [|y l IH]; intros seen Hnd; cbn [foldl].
    - split; [done|]. intros x. rewrite elem_of_nil. tauto.
    - case_bool_decide as Hy.
      + destruct (IH seen Hnd) as [H1 H2]. split; [done|]. intros x.
        rewrite H2, elem_of_cons. split; [tauto|]. intros [?|[->|?]]; tauto.
      + destruct (IH (seen ++ [y])) as [H1 H2].
        { apply NoDup_app. split; [done|]. split; [|apply NoDup_singleton].
          intros z Hz ->%list_elem_of_singleton. done. }
        split; [done|]. intros x.
        rewrite H2, elem_of_app, list_elem_of_singleton, elem_of_cons. tauto. }
  destruct (G [] (NoDup_nil_2)) as [H1 H2]. split; [done|].
  intros x. rewrite H2, elem_of_nil. tauto.
Qed.

Lemma sorted_set_spec (l : list jsstring) :
  StronglySorted str_lt (sorted_set l)
  ∧ NoDup (sorted_set l)
  ∧ ∀ x, x ∈ sorted_set l ↔ x ∈ l.
Proof.
  destruct (set_of_spec l) as [Hnd Hin]. unfold sorted_set.
  assert (Hnd' : NoDup (array_sort str_gt (set_of l))) by by rewrite array_sort_Permutation.
  split; [|split; [done|]].
  - assert (Hs : StronglySorted str_le (array_sort str_gt (set_of l))).
    { apply array_sort_sorted_total.
      - intros x y H. unfold str_gt in H. unfold str_le. by destruct (str_compare x y).
      - intros x y H. unfold str_gt in H. unfold str_le.
        rewrite str_compare_antisym. by destruct (str_compare x y).
      - apply str_le_trans. }
    revert Hnd' Hs. generalize (array_sort str_gt (set_of l)). clear. intros l.
    induction l as [|x l IH]; intros Hnd Hs; [constructor|].
    apply NoDup_cons in Hnd as [Hx Hnd]. apply StronglySorted_inv in Hs as [Hs Hle].
    constructor; [by apply IH|]. rewrite Forall_forall in *. intros y Hy.
    specialize (Hle y Hy). unfold str_le in Hle. unfold str_lt.
    destruct (str_compare x y) eqn:E; [|done..].
    apply str_compare_eq in E as ->. done.
  - intros x. by rewrite array_sort_Permutation.
Qed.

Lemma author_options worksById cats refs :
  let authors := sorted_set (author_or_unknown worksById <$> refs) in
  let cards := ref_cards worksById refs in
  StronglySorted str_lt authors
  ∧ NoDup authors
  ∧ (∀ a, a ∈ authors ↔ ∃ ref, ref ∈ refs ∧ author_or_unknown worksById ref = a)
  ∧ Forall (λ c, card_author c ∈ authors) cards
  ∧ (∀ a, a ≠ [] →
       visible_cards a cats cards
       = filter (λ c, card_author c = a ∧ card_category c ∈ cats) cards)
  ∧ (∀ a, a ∈ authors → (∀ c, c ∈ cards → card_author c ≠ a) →
       a = str "Unknown" ∧ ∃ ref, ref ∈ refs ∧ worksById !! ref_w ref = None).
Proof.
  cbv zeta. destruct (sorted_set_spec (author_or_unknown worksById <$> refs))
    as (Hs & Hnd & Hin).
  assert (Hin' : ∀ a, a ∈ sorted_set (author_or_unknown worksById <$> refs)
                      ↔ ∃ ref, ref ∈ refs ∧ author_or_unknown worksById ref = a).
  { intros a. rewrite Hin, list_elem_of_fmap. split.
    - intros (ref & -> & Href). by exists ref.
    - intros (ref & Href & <-). by exists ref. }
  split; [done|]. split; [done|]. split; [done|]. split; [|split].
  - apply Forall_forall. intros c (ref & Href & Hc)%list_elem_of_omap.
    apply Hin'. exists ref. split; [done|]. unfold author_or_unknown.
    destruct (worksById !! ref_w ref) as [work|]; [|done]. cbn in Hc. by injection Hc as <-.
  - intros a Ha. apply visible_cards_filter.
    eapply Forall_impl; [apply ref_cards_category|]. intros c [Hc _]. cbv beta.
    rewrite card_hidden_author by done. rewrite negb_false_iff, andb_true_iff.
    by rewrite !bool_decide_eq_true.
  - intros a (ref & Href & Ha)%Hin' Hnone. unfold author_or_unknown in Ha.
    destruct (worksById !! ref_w ref) as [work|] eqn:Hw.
    + exfalso. apply (Hnone {| card_author := w_author work;
                               card_category := category_or_other work;
                               card_ref := ref |}); [|done].
      apply list_elem_of_omap. exists ref. split; [done|]. by rewrite Hw.
    + split; [done|]. by exists ref.
Qed.

(** X13. The options of the author filter, for the citations of a verse
    ([loadChapterFiltered]) as for those of a chapter ([renderChapter]), are
    the authors of the citations shown, without repetition and in ascending
    order of their code units, with [Unknown] standing for a citation whose
    work is not in the index.  Every card's author is an option; choosing an
    option shows exactly the cards of that author whose category is checked;
    and an option that shows no card of its own is [Unknown], there being a
    citation of an unknown work. *)
Theorem author_filter_options (worksById : gmap Z Work) (cats : gset jsstring)
    (cd : ChapterData) (verseKey : jsstring) (cl : CitationList) (refs : list Citation) :
  (cl = loadChapterFiltered_end worksById cd verseKey
   ∧ refs = filter (λ ref, primaryVerseKey (ref_v ref) = verseKey) (cd_refs cd))
  ∨ (renderChapter worksById (Some cd) = Some cl ∧ refs = cd_refs cd) →
  StronglySorted str_lt (cl_authors cl)
  ∧ NoDup (cl_authors cl)
  ∧ (∀ a, a ∈ cl_authors cl ↔ ∃ ref, ref ∈ refs ∧ author_or_unknown worksById ref = a)
  ∧ Forall (λ c, card_author c ∈ cl_authors cl) (cl_cards cl)
  ∧ (∀ a, a ≠ [] →
       visible_cards a cats (cl_cards cl)
       = filter (λ c, card_author c = a ∧ card_category c ∈ cats) (cl_cards cl))
  ∧ (∀ a, a ∈ cl_authors cl → (∀ c, c ∈ cl_cards cl → card_author c ≠ a) →
       a = str "Unknown" ∧ ∃ ref, ref ∈ refs ∧ worksById !! ref_w ref = None).
Proof.
  intros H.
  assert (E : cl = {| cl_authors := sorted_set (author_or_unknown worksById <$> refs);
                      cl_cards := ref_cards worksById refs |}).
  { destruct H as [[-> ->]|[H ->]]; [done|]. unfold renderChapter in H.
    destruct (cd_refs cd); [done|]. by injection H as <-. }
  rewrite E. cbn [cl_authors cl_cards]. apply author_options.
Qed.

Lemma author_filter_options_witness :
  StronglySorted str_lt
    (cl_authors (loadChapterFiltered_end sample_works sample_chData (str "9")))
  ∧ cl_authors (loadChapterFiltered_end sample_works sample_chData (str "9"))
    = [str "Anonymous"; str "Luther"].
Proof.
  destruct (author_filter_options sample_works sample_active sample_chData (str "9")
              (loadChapterFiltered_end sample_works sample_chData (str "9"))
              (filter (λ ref, primaryVerseKey (ref_v ref) = str "9") (cd_refs sample_chData)))
    as (H1 & _).
  - left. split; reflexivity.
  - split; [exact H1|]. vm_compute. reflexivity.
Defined.

(** ** Category check boxes and the list of works *)

Lemma checkedCategories_spec boxes c :
  c ∈ checkedCategories boxes ↔ (c, true) ∈ boxes.
Proof.
  unfold checkedCategories.
  assert (G : ∀ acc : gset jsstring,
            c ∈ foldl (λ checked cb, if cb.2 : bool then checked ∪ {[ cb.1 ]} else checked)
                      acc boxes ↔ c ∈ acc ∨ (c, true) ∈ boxes).
  { induction boxes as [|[v b] boxes IH]; intros acc; cbn [foldl].
    - rewrite elem_of_nil. tauto.
    - rewrite IH, elem_of_cons. destruct b; cbn.
      + rewrite elem_of_union, elem_of_singleton. split.
        * intros [[?| ->]|?]; tauto.
        * intros [?|[H|?]]; [tauto| |tauto]. injection H as ->. tauto.
      + split; [tauto|]. intros [?|[H|?]]; [tauto|discriminate H|tauto]. }
  rewrite G, elem_of_empty. tauto.
Qed.

Lemma worksById_of_elem works k w : worksById_of works !! k = Some w → w ∈ works ∧ w_id w = k.
Proof.
  unfold worksById_of.
  assert (G : ∀ m : gmap Z Work,
            foldl (λ m w, <[w_id w := w]> m) m works !! k = Some w →
            m !! k = Some w ∨ (w ∈ works ∧ w_id w = k)).
  { induction works as [|x works IH]; intros m; cbn [foldl]; [by left|].
    intros [H|[H1 H2]]%IH.
    - destruct (decide (w_id x = k)) as [E|E].
      + rewrite <- E, lookup_insert_eq in H. injection H as ->. right. split; [left|done].
      + rewrite lookup_insert_ne in H by done. by left.
    - right. split; [by right|done]. }
  intros [H|H]%G; [by rewrite lookup_empty in H|done].
Qed.

(** X14. [renderCategoryFilters] makes one checked box for each category of
    the index (with [Other] for a work without one), in ascending order and
    without repetition, so that [checkedCategories] then holds the category
    of every work: no work is filtered out, and a citation is kept exactly
    when its work is in the index. *)
Theorem all_categories_checked (works : list Work) :
  let boxes := renderCategoryFilters works in
  let cats := checkedCategories boxes in
  StronglySorted str_lt boxes.*1
  ∧ Forall (λ cb, cb.2 = true) boxes
  ∧ (∀ c, c ∈ cats ↔ ∃ w, w ∈ works ∧ category_or_other w = c)
  ∧ Forall (λ w, in_cats cats w = true) works
  ∧ (∀ ref, kept (worksById_of works) cats ref = true
            ↔ is_Some (worksById_of works !! ref_w ref)).
Proof.
  cbv zeta. unfold renderCategoryFilters.
  destruct (sorted_set_spec (category_or_other <$> works)) as (Hs & Hnd & Hin).
  assert (Hcats : ∀ c, c ∈ checkedCategories ((λ cat, (cat, true))
                           <$> sorted_set (category_or_other <$> works))
                       ↔ ∃ w, w ∈ works ∧ category_or_other w = c).
  { intros c. rewrite checkedCategories_spec, list_elem_of_fmap. split.
    - intros (c' & Hc & Hc'). injection Hc as ->. apply Hin, list_elem_of_fmap in Hc' as (w & -> & Hw).
      by exists w.
    - intros (w & Hw & <-). exists (category_or_other w). split; [done|].
      apply Hin, list_elem_of_fmap. by exists w. }
  split_and!.
  - rewrite <- list_fmap_compose.
    assert (E : ∀ l : list jsstring, (fst ∘ (λ cat, (cat, true))) <$> l = l).
    { induction l as [|x l IH]; [done|]. rewrite fmap_cons. cbn. by rewrite IH. }
    by rewrite E.
  - by apply Forall_fmap, Forall_forall.
  - exact Hcats.
  - apply Forall_forall. intros w Hw. unfold in_cats. apply bool_decide_eq_true, Hcats.
    by exists w.
  - intros ref. rewrite kept_true. split.
    + intros (work & Hw & _). by exists work.
    + intros [work Hw]. exists work. split; [done|]. apply Hcats. exists work.
      split; [|done]. by apply worksById_of_elem in Hw as [? _].
Qed.

Section WorksListFacts.
Variable toLowerCase : jsstring → jsstring.

(** X15. The list of works holds, in the order of the index, the works whose
    author and title match the search term and whose category is checked;
    but when no category is checked it holds every work that matches the
    term, the category test being skipped for an empty set. *)
Theorem renderWorksList_listed (works : list Work) (cats : gset jsstring)
    (activeWorkId : option Z) (filter_ : jsstring) :
  let matches w :=
    toLowerCase filter_ = []
    ∨ ∃ a b, toLowerCase (w_author w ++ str " " ++ w_title w)
             = a ++ toLowerCase filter_ ++ b in
  let listed := wb_work <$> renderWorksList toLowerCase works cats activeWorkId filter_ in
  listed `sublist_of` works
  ∧ (∀ w, w ∈ listed ↔ w ∈ works ∧ matches w ∧ (cats = ∅ ∨ category_or_other w ∈ cats))
  ∧ (cats = ∅ → ∀ w, w ∈ listed ↔ w ∈ works ∧ matches w)
  ∧ Forall (λ b, wb_active b = true ↔ activeWorkId = Some (w_id (wb_work b)))
           (renderWorksList toLowerCase works cats activeWorkId filter_).
Proof.
  cbv zeta. unfold renderWorksList.
  set (f := λ work, if negb (bool_decide (toLowerCase filter_ = []))
             && negb (includes (toLowerCase (w_author work ++ str " " ++ w_title work))
                        (toLowerCase filter_))
          then None
          else if negb (size cats =? 0) && negb (in_cats cats work) then None
          else Some {| wb_work := work;
                       wb_active := bool_decide (activeWorkId = Some (w_id work)) |}).
  assert (Hf : ∀ w b, f w = Some b →
            wb_work b = w ∧ (wb_active b = true ↔ activeWorkId = Some (w_id w))).
  { intros w b. unfold f. repeat case_match; try done. intros [= <-]. cbn.
    split; [done|]. apply bool_decide_eq_true. }
  assert (Hsome : ∀ w, is_Some (f w)
            ↔ (toLowerCase filter_ = []
               ∨ ∃ a b, toLowerCase (w_author w ++ str " " ++ w_title w)
                        = a ++ toLowerCase filter_ ++ b)
              ∧ (cats = ∅ ∨ category_or_other w ∈ cats)).
  { intros w. unfold f.
    assert (Hsize : (size cats =? 0) = true ↔ cats = ∅).
    { rewrite Nat.eqb_eq, size_empty_iff. split; [by intros ?%leibniz_equiv|by intros ->]. }
    destruct (bool_decide (toLowerCase filter_ = [])) eqn:Ht;
      [apply bool_decide_eq_true in Ht|apply bool_decide_eq_false in Ht]; cbn [negb andb].
    - destruct (size cats =? 0) eqn:Hz; cbn [negb andb].
      + split; [|by eexists]. intros _. split; [by left|]. left. by apply Hsize.
      + unfold in_cats. case_bool_decide as Hin; cbn [negb].
        * split; [|by eexists]. intros _. split; [by left|by right].
        * split; [by intros [? ?]|]. intros [_ [->|?]]; [|done].
          rewrite size_empty in Hz. done.
    - destruct (includes _ (toLowerCase filter_)) eqn:Hi; cbn [negb].
      + apply includes_spec in Hi. destruct (size cats =? 0) eqn:Hz; cbn [negb andb].
        * split; [|by eexists]. intros _. split; [by right|]. left. by apply Hsize.
        * unfold in_cats. case_bool_decide as Hin; cbn [negb].
          -- split; [|by eexists]. intros _. split; [by right|by right].
          -- split; [by intros [? ?]|]. intros [_ [->|?]]; [|done].
             rewrite size_empty in Hz. done.
      + split; [by intros [? ?]|]. intros [[?|Hm] _]; [done|].
        apply includes_spec in Hm. congruence. }
  assert (Hin : ∀ w, w ∈ wb_work <$> omap f works ↔ w ∈ works ∧ is_Some (f w)).
  { intros w. rewrite list_elem_of_fmap. split.
    - intros (b & -> & (w' & Hw & Hb)%list_elem_of_omap).
      destruct (Hf _ _ Hb) as [-> _]. split; [done|by eexists].
    - intros (Hw & [b Hb]). exists b. destruct (Hf _ _ Hb) as [E _]. split; [done|].
      apply list_elem_of_omap. by exists w. }
  split_and!.
  - apply omap_sublist. intros w b Hb. by apply Hf in Hb as [? _].
  - intros w. rewrite Hin, Hsome. tauto.
  - intros -> w. rewrite Hin, Hsome. split; [tauto|]. intros [? ?]. split; [done|].
    split; [done|by left].
  - apply Forall_forall. intros b (w & _ & Hb)%list_elem_of_omap.
    destruct (Hf _ _ Hb) as [-> H]. done.
Qed.
End WorksListFacts.

(** ** The citations of a work *)

Lemma sum_list_indicator (bs : list jsstring) (k : jsstring) :
  NoDup bs → k ∈ bs →
  sum_list ((λ b, if decide (k = b) then 1 else 0) <$> bs) = 1.
Proof.
  induction 1 as [|b bs Hb Hnd IH]; intros Hk; [by apply elem_of_nil in Hk|].
  rewrite fmap_cons. cbn. destruct (decide (k = b)) as [->|Hne].
  - assert (sum_list ((λ b0, if decide (b = b0) then 1 else 0) <$> bs) = 0) as ->; [|done].
    clear IH Hk Hnd. induction bs as [|c bs IH]; [done|]. rewrite fmap_cons. cbn.
    rewrite decide_False.
    + apply IH. intros ?. apply Hb. by right.
    + intros ->. apply Hb. left.
  - apply elem_of_cons in Hk as [?|Hk]; [done|]. by rewrite IH.
Qed.

Lemma sum_list_fmap_add {A} (f g : A → nat) (l : list A) :
  sum_list ((λ x, f x + g x) <$> l) = sum_list (f <$> l) + sum_list (g <$> l).
Proof. induction l as [|x l IH]; [done|]. rewrite !fmap_cons. cbn. rewrite IH. lia. Qed.

Lemma filter_by_key_partition {A} (key : A → jsstring) (l : list A) (bs : list jsstring) :
  NoDup bs → (∀ x, x ∈ l → key x ∈ bs) →
  sum_list ((λ b, length (filter (λ x, key x = b) l)) <$> bs) = length l.
Proof.
  intros Hnd. induction l as [|x l IH]; intros Hin.
  - clear Hin Hnd. cbn. induction bs as [|b bs IHb]; [done|]. rewrite fmap_cons. cbn.
    by rewrite IHb.
  - assert (E : (λ b, length (filter (λ x, key x = b) (x :: l))) <$> bs
               = (λ b, (if decide (key x = b) then 1 else 0)
                       + length (filter (λ x, key x = b) l)) <$> bs).
    { apply list_fmap_ext. intros i b _. destruct (decide (key x = b)) as [E|E].
      - by rewrite filter_cons_True.
      - by rewrite filter_cons_False. }
    rewrite E, sum_list_fmap_add.
    rewrite sum_list_indicator; [|done|apply Hin; left].
    rewrite IH; [done|]. intros y Hy. apply Hin. by right.
Qed.

Lemma visible_work_cards_filter val cards :
  visible_work_cards val cards
  = filter (λ c, val = [] ∨ wc_book c = val) cards.
Proof.
  unfold visible_work_cards, applyBookFilter.
  induction cards as [|c cards IH]; [done|]. rewrite fmap_cons.
  destruct (negb (bool_decide (val = [])) && negb (bool_decide (wc_book c = val))) eqn:E.
  - rewrite filter_cons_False by (cbn [snd]; congruence).
    rewrite IH, filter_cons_False; [done|].
    apply andb_true_iff in E as [E1%negb_true_iff%bool_decide_eq_false
                                 E2%negb_true_iff%bool_decide_eq_false].
    by intros [?|?].
  - rewrite filter_cons_True by done. rewrite fmap_cons, IH. cbn [fst].
    rewrite filter_cons_True; [done|].
    apply andb_false_iff in E as [E%negb_false_iff%bool_decide_eq_true
                                 |E%negb_false_iff%bool_decide_eq_true]; [by left|by right].
Qed.

(** X16. The options of the book filter of a work are the books of its
    citations, each once.  With the filter on all books every card is shown;
    an option shows exactly the cards of its book, of which there is at least
    one; and, no book having the empty name, every card is shown under
    exactly one option. *)
Theorem book_filter_partition (data : WorkData) :
  let view := renderWork data in
  NoDup (wv_books view)
  ∧ (∀ b, b ∈ wv_books view ↔ ∃ ref, ref ∈ wd_refs data ∧ mr_book ref = b)
  ∧ (wv_cards view = None ↔ wd_refs data = [])
  ∧ (∀ cards, wv_cards view = Some cards →
       wc_ref <$> cards = wd_refs data
       ∧ visible_work_cards [] cards = cards
       ∧ (∀ b, b ≠ [] →
            wc_ref <$> visible_work_cards b cards
            = filter (λ ref, mr_book ref = b) (wd_refs data))
       ∧ (∀ b, b ∈ wv_books view → visible_work_cards b cards ≠ [])
       ∧ ([] ∉ wv_books view →
          sum_list ((λ b, length (visible_work_cards b cards)) <$> wv_books view)
          = length cards)).
Proof.
  cbv zeta. unfold renderWork. cbn [wv_books wv_cards].
  destruct (set_of_spec (mr_book <$> wd_refs data)) as [Hnd Hin].
  assert (Hin' : ∀ b, b ∈ set_of (mr_book <$> wd_refs data)
                      ↔ ∃ ref, ref ∈ wd_refs data ∧ mr_book ref = b).
  { intros b. rewrite Hin, list_elem_of_fmap. split.
    - intros (ref & -> & Href). by exists ref.
    - intros (ref & Href & <-). by exists ref. }
  split; [done|]. split; [done|]. split.
  { destruct (wd_refs data); split; done. }
  intros cards Hcards.
  assert (E : cards = (λ ref, {| wc_book := mr_book ref; wc_ref := ref |}) <$> wd_refs data).
  { destruct (wd_refs data) eqn:Hr; [done|]. by injection Hcards as <-. }
  clear Hcards. subst cards.
  assert (Hid : ∀ l : list ManuscriptRef,
            wc_ref <$> ((λ ref, {| wc_book := mr_book ref; wc_ref := ref |}) <$> l) = l).
  { induction l as [|x l IH]; [done|]. rewrite !fmap_cons. cbn. by rewrite IH. }
  assert (Hvis : ∀ b, b ≠ [] →
            wc_ref <$> visible_work_cards b
              ((λ ref, {| wc_book := mr_book ref; wc_ref := ref |}) <$> wd_refs data)
            = filter (λ ref, mr_book ref = b) (wd_refs data)).
  { intros b Hb. rewrite visible_work_cards_filter. generalize (wd_refs data). intros l.
    induction l as [|x l IH]; [done|]. rewrite fmap_cons.
    destruct (decide (mr_book x = b)) as [Hx|Hx].
    - rewrite filter_cons_True by (by right). rewrite (filter_cons_True _ x) by done.
      rewrite fmap_cons. cbn. by rewrite IH.
    - rewrite filter_cons_False by (intros [?|?]; done).
      by rewrite (filter_cons_False _ x). }
  split_and!.
  - apply Hid.
  - rewrite visible_work_cards_filter. generalize (wd_refs data). intros l.
    induction l as [|x l IH]; [done|]. rewrite fmap_cons, filter_cons_True by (by left).
    by rewrite IH.
  - exact Hvis.
  - intros b (ref & Href & Hb)%Hin'. rewrite visible_work_cards_filter.
    intros Hnil.
    assert (Hc : {| wc_book := mr_book ref; wc_ref := ref |}
                 ∈ filter (λ c, b = [] ∨ wc_book c = b)
                     ((λ ref, {| wc_book := mr_book ref; wc_ref := ref |}) <$> wd_refs data)).
    { apply list_elem_of_filter. split; [by right|]. apply list_elem_of_fmap. by exists ref. }
    rewrite Hnil in Hc. by apply elem_of_nil in Hc.
  - intros Hempty.
    assert (E : (λ b, length (visible_work_cards b
                   ((λ ref, {| wc_book := mr_book ref; wc_ref := ref |}) <$> wd_refs data)))
                <$> set_of (mr_book <$> wd_refs data)
                = (λ b, length (filter (λ ref, mr_book ref = b) (wd_refs data)))
                  <$> set_of (mr_book <$> wd_refs data)).
    { apply list_fmap_ext. intros i b Hb. rewrite <- Hvis; [by rewrite length_fmap|].
      intros ->. apply Hempty. by eapply list_elem_of_lookup_2. }
    rewrite E, length_fmap. apply filter_by_key_partition; [done|].
    intros ref Href. apply Hin'. by exists ref.
Qed.

Lemma book_filter_partition_witness :
  sum_list ((λ b, length (visible_work_cards b
                            ((λ ref, {| wc_book := mr_book ref; wc_ref := ref |})
                             <$> [sample_ref; sample_ref])))
            <$> wv_books (renderWork (sample_data [sample_ref; sample_ref])))
  = 2.
Proof.
  apply (proj2 (proj2 (proj2 (book_filter_partition
           (sample_data [sample_ref; sample_ref]))))
           ((λ ref, {| wc_book := mr_book ref; wc_ref := ref |})
            <$> [sample_ref; sample_ref]) eq_refl).
  apply (bool_decide_unpack
           ([] ∉ wv_books (renderWork (sample_data [sample_ref; sample_ref])))).
  vm_compute. exact I.
Defined.

(** ** Most referenced books, and the corpus by category *)

Lemma add_by_cat_spec cats acc m :
  (∀ c, (add_by_cat cats acc m).1 !! c
        = match m !! c with
          | Some n => if bool_decide (c ∈ cats) then Some (default 0 (acc.1 !! c) + n)%Z
                      else acc.1 !! c
          | None => acc.1 !! c
          end)
  ∧ (add_by_cat cats acc m).2 = (acc.2 + sum_active cats m)%Z.
Proof.
  unfold add_by_cat.
  apply (map_fold_weak_ind
    (λ r m, (∀ c, r.1 !! c
                  = match m !! c with
                    | Some n => if bool_decide (c ∈ cats)
                                then Some (default 0 (acc.1 !! c) + n)%Z else acc.1 !! c
                    | None => acc.1 !! c
                    end)
            ∧ r.2 = (acc.2 + sum_active cats m)%Z)).
  - split; [intros c; by rewrite lookup_empty|]. rewrite sum_active_empty. lia.
  - intros c n m' r Hm [Hr1 Hr2]. rewrite sum_active_insert by done.
    case_bool_decide as Hc; cbn [fst snd].
    + split; [|lia]. intros c'. destruct (decide (c = c')) as [<-|Hne].
      * rewrite !lookup_insert_eq, bool_decide_eq_true_2 by done.
        by rewrite Hr1, Hm.
      * rewrite !lookup_insert_ne by done. apply Hr1.
    + split; [|lia]. intros c'. destruct (decide (c = c')) as [<-|Hne].
      * rewrite lookup_insert_eq, bool_decide_eq_false_2 by done. by rewrite Hr1, Hm.
      * rewrite lookup_insert_ne by done. apply Hr1.
Qed.

Lemma add_by_cat_count cats acc m c :
  count_of (add_by_cat cats acc m).1 c
  = (count_of acc.1 c + if bool_decide (c ∈ cats) then count_of m c else 0)%Z.
Proof.
  unfold count_of. destruct (add_by_cat_spec cats acc m) as [H _]. rewrite H.
  destruct (m !! c) as [n|]; case_bool_decide; simpl; lia.
Qed.

Lemma add_by_cat_dom cats acc m :
  dom acc.1 ⊆ cats → dom (add_by_cat cats acc m).1 ⊆ cats.
Proof.
  intros Hd c Hc. apply elem_of_dom in Hc as [n Hn].
  destruct (add_by_cat_spec cats acc m) as [H _]. rewrite H in Hn.
  destruct (m !! c); [case_bool_decide; [done|]|]; apply Hd, elem_of_dom; by eexists.
Qed.

(** The chapters of some books, added one after the other. *)
Lemma fold_add_by_cat cats (chs : list ChapterEntry) acc :
  let r := foldl (λ acc ch, add_by_cat cats acc (default ∅ (ch_by_cat ch))) acc chs in
  r.2 = (acc.2 + Zsum (by_cat_count cats <$> chs))%Z
  ∧ (∀ c, count_of r.1 c
          = (count_of acc.1 c
             + if bool_decide (c ∈ cats)
               then Zsum ((λ ch, count_of (default ∅ (ch_by_cat ch)) c) <$> chs) else 0)%Z)
  ∧ (dom acc.1 ⊆ cats → dom r.1 ⊆ cats).
Proof.
  cbv zeta. revert acc. induction chs as [|ch chs IH]; intros acc; cbn [foldl].
  - split; [unfold Zsum; simpl; lia|]. split; [|done]. intros c.
    case_bool_decide; unfold Zsum; simpl; lia.
  - destruct (IH (add_by_cat cats acc (default ∅ (ch_by_cat ch)))) as (H1 & H2 & H3).
    split; [|split].
    + rewrite H1. destruct (add_by_cat_spec cats acc (default ∅ (ch_by_cat ch))) as [_ ->].
      rewrite fmap_cons, Zsum_cons. unfold by_cat_count at 2.
      destruct (ch_by_cat ch); simpl; [lia|]. rewrite sum_active_empty. lia.
    + intros c. rewrite H2, add_by_cat_count, fmap_cons, Zsum_cons.
      case_bool_decide; lia.
    + intros Hd. by apply H3, add_by_cat_dom.
Qed.

Lemma Zsum_count_of_dom (cats : gset jsstring) (m : gmap jsstring Z) :
  dom m ⊆ cats → Zsum (count_of m <$> elements cats) = Zsum (map_to_list m).*2.
Proof. intros Hd. by rewrite <- sum_active_sum, sum_active_all. Qed.

Lemma Zsum_swap (cats : list jsstring) (chs : list ChapterEntry) :
  Zsum ((λ c, Zsum ((λ ch, count_of (default ∅ (ch_by_cat ch)) c) <$> chs)) <$> cats)
  = Zsum ((λ ch, Zsum (count_of (default ∅ (ch_by_cat ch)) <$> cats)) <$> chs).
Proof.
  induction chs as [|ch chs IH].
  - cbn. induction cats as [|c cats IHc]; [done|]. rewrite fmap_cons, Zsum_cons, IHc. done.
  - rewrite fmap_cons, Zsum_cons, <- IH.
    rewrite <- Zsum_fmap_add. apply Zsum_fmap_ext. intros c.
    by rewrite fmap_cons, Zsum_cons.
Qed.

Lemma book_totals_spec cats book :
  let b := book_totals cats book in
  bt_book b = book
  ∧ bt_total b = Zsum (by_cat_count cats <$> b_chapters book)
  ∧ dom (bt_byCat b) ⊆ cats
  ∧ (∀ c, c ∈ cats →
       count_of (bt_byCat b) c
       = Zsum ((λ ch, count_of (default ∅ (ch_by_cat ch)) c) <$> b_chapters book))
  ∧ Zsum (count_of (bt_byCat b) <$> elements cats) = bt_total b.
Proof.
  cbv zeta. unfold book_totals. cbn [bt_book bt_total bt_byCat].
  destruct (fold_add_by_cat cats (b_chapters book) (∅, 0%Z)) as (H1 & H2 & H3).
  cbv zeta in *. cbn [fst snd] in *.
  assert (Hc : ∀ c, c ∈ cats →
            count_of (foldl (λ acc ch, add_by_cat cats acc (default ∅ (ch_by_cat ch)))
                            (∅, 0%Z) (b_chapters book)).1 c
            = Zsum ((λ ch, count_of (default ∅ (ch_by_cat ch)) c) <$> b_chapters book)).
  { intros c Hc. rewrite H2, bool_decide_eq_true_2 by done. unfold count_of at 1.
    rewrite lookup_empty. simpl. lia. }
  split; [done|]. split; [rewrite H1; lia|]. split; [apply H3; set_solver|].
  split; [exact Hc|].
  rewrite H1, Z.add_0_l.
  rewrite (list_fmap_ext (count_of _)
             (λ c, Zsum ((λ ch, count_of (default ∅ (ch_by_cat ch)) c) <$> b_chapters book))
             (elements cats)).
  - rewrite Zsum_swap. f_equal. apply list_fmap_ext. intros i ch _.
    unfold by_cat_count. destruct (ch_by_cat ch) as [m|]; simpl.
    + by rewrite sum_active_sum.
    + clear. induction (elements cats) as [|c l IH]; [done|].
      rewrite fmap_cons, Zsum_cons, IH. unfold count_of. by rewrite lookup_empty.
  - intros i c Hi. apply Hc, elem_of_elements. by eapply list_elem_of_lookup_2.
Qed.

Lemma segments_sum (m : gmap jsstring Z) (l : list jsstring) :
  let segs := omap (λ cat, let n := default 0%Z (m !! cat) in
                           if (n =? 0)%Z then None else Some (cat, n)) l in
  Zsum segs.*2 = Zsum (count_of m <$> l)
  ∧ segs.*1 `sublist_of` l
  ∧ Forall (λ s, s.2 ≠ 0%Z ∧ s.2 = count_of m s.1) segs.
Proof.
  cbv zeta. induction l as [|c l (IH1 & IH2 & IH3)]; [by repeat constructor|].
  cbn [omap list_omap]. fold (count_of m c).
  destruct (Z.eqb_spec (count_of m c) 0) as [E|E].
  - split; [|split; [by constructor|done]].
    rewrite fmap_cons, Zsum_cons, E. cbn. by rewrite IH1.
  - rewrite !fmap_cons. cbn [fst snd]. split; [|split].
    + rewrite !Zsum_cons. by rewrite IH1.
    + by constructor.
    + by constructor.
Qed.

Lemma array_sort_str_sorted (l : list jsstring) :
  NoDup l →
  StronglySorted str_lt (array_sort str_gt l) ∧ ∀ x, x ∈ array_sort str_gt l ↔ x ∈ l.
Proof.
  intros Hnd. split; [|intros x; by rewrite array_sort_Permutation].
  assert (Hnd' : NoDup (array_sort str_gt l)) by by rewrite array_sort_Permutation.
  assert (Hs : StronglySorted str_le (array_sort str_gt l)).
  { apply array_sort_sorted_total.
    - intros x y H. unfold str_gt in H. unfold str_le. by destruct (str_compare x y).
    - intros x y H. unfold str_gt in H. unfold str_le.
      rewrite str_compare_antisym. by destruct (str_compare x y).
    - apply str_le_trans. }
  revert Hnd' Hs. generalize (array_sort str_gt l). clear. intros l.
  induction l as [|x l IH]; intros Hnd Hs; [constructor|].
  apply NoDup_cons in Hnd as [Hx Hnd]. apply StronglySorted_inv in Hs as [Hs Hle].
  constructor; [by apply IH|]. rewrite Forall_forall in *. intros y Hy.
  specialize (Hle y Hy). unfold str_le in Hle. unfold str_lt.
  destruct (str_compare x y) eqn:E; [|done..].
  apply str_compare_eq in E as ->. done.
Qed.

Lemma StronglySorted_weaken {A} (R1 R2 : A → A → Prop) (l : list A) :
  (∀ x y, R1 x y → R2 x y) → StronglySorted R1 l → StronglySorted R2 l.
Proof.
  intros HR. induction 1 as [|x l Hl IH Hx]; constructor; [done|].
  eapply Forall_impl; [exact Hx|]. intros y. apply HR.
Qed.

Lemma sorted_totals_spec (books : list Book) (cats : gset jsstring) :
  let sorted := array_sort (λ a b, (0 <? bt_total b - bt_total a)%Z)
                  (filter (λ b, (0 <? bt_total b)%Z) (book_totals cats <$> books)) in
  StronglySorted (λ a b, (bt_total b ≤ bt_total a)%Z) sorted
  ∧ ∀ b, b ∈ sorted ↔ (0 < bt_total b)%Z ∧ ∃ book, book ∈ books ∧ b = book_totals cats book.
Proof.
  cbv zeta. split.
  - eapply StronglySorted_weaken;
      [|apply (array_sort_sorted (λ a b, (0 <? bt_total b - bt_total a)%Z)
                 (λ b, (- bt_total b)%Z))].
    + intros a b H. cbv beta in H. lia.
    + intros x y _ _. destruct (Z.ltb_spec 0 (bt_total y - bt_total x)).
      * symmetry. apply bool_decide_eq_true. lia.
      * symmetry. apply bool_decide_eq_false. lia.
  - intros b. rewrite array_sort_Permutation, list_elem_of_filter, list_elem_of_fmap.
    split.
    + intros [Hp (book & -> & Hb)]. apply Is_true_true, Z.ltb_lt in Hp.
      split; [done|]. by exists book.
    + intros [Hp (book & Hb & ->)]. split; [by apply Is_true_true, Z.ltb_lt|].
      by exists book.
Qed.

Lemma by_cat_count_filteredCount cats ch :
  is_Some (ch_by_cat ch) → by_cat_count cats ch = filteredCount ch cats.
Proof. intros [m Hm]. unfold by_cat_count, filteredCount. by rewrite Hm. Qed.

Lemma top_books_spec (books : list Book) (cats : gset jsstring) :
  let total book := Zsum (by_cat_count cats <$> b_chapters book) in
  let top := top_books books cats in
  length top ≤ 20
  ∧ StronglySorted (λ a b, (bt_total b ≤ bt_total a)%Z) top
  ∧ Forall (λ b, (0 < bt_total b)%Z
                 ∧ ∃ book, book ∈ books ∧ b = book_totals cats book) top
  ∧ (top = [] ↔ Forall (λ book, (total book ≤ 0)%Z) books)
  ∧ (∀ book, book ∈ books → (0 < total book)%Z → book_totals cats book ∉ top →
       length top = 20 ∧ Forall (λ b, (total book ≤ bt_total b)%Z) top).
Proof.
  cbv zeta. unfold top_books.
  destruct (sorted_totals_spec books cats) as [Hs Hin]. cbv zeta in Hs, Hin.
  remember (array_sort (λ a b, (0 <? bt_total b - bt_total a)%Z)
              (filter (λ b, (0 <? bt_total b)%Z) (book_totals cats <$> books))) as S.
  clear HeqS.
  assert (Htot : ∀ book, bt_total (book_totals cats book)
                         = Zsum (by_cat_count cats <$> b_chapters book)).
  { intros book. by destruct (book_totals_spec cats book) as (_ & ? & _). }
  split_and!.
  - rewrite length_take. lia.
  - rewrite <- (take_drop 20 S) in Hs. by apply StronglySorted_app_1_l in Hs.
  - apply Forall_forall. intros b Hb. apply Hin.
    apply elem_of_take in Hb as (i & Hi & _). by eapply list_elem_of_lookup_2.
  - split.
    + intros Ht. assert (S = []) as -> by (by destruct S).
      apply Forall_forall. intros book Hb.
      destruct (decide (0 < Zsum (by_cat_count cats <$> b_chapters book))%Z) as [Hp|]; [|lia].
      exfalso. assert (Hx : book_totals cats book ∈ []).
      { apply Hin. rewrite Htot. split; [done|]. by exists book. }
      by apply elem_of_nil in Hx.
    + intros Hall. destruct S as [|b S]; [done|]. exfalso.
      assert (Hb : b ∈ b :: S) by left. apply Hin in Hb as [Hp (book & Hbook & ->)].
      rewrite Htot in Hp. rewrite Forall_forall in Hall. specialize (Hall _ Hbook). lia.
  - intros book Hbook Hp Hnot.
    assert (HinS : book_totals cats book ∈ S).
    { apply Hin. rewrite Htot. split; [done|]. by exists book. }
    rewrite <- (take_drop 20 S) in HinS, Hs.
    apply elem_of_app in HinS as [?|Hd]; [done|].
    split.
    + rewrite length_take. apply list_elem_of_lookup_1 in Hd as [i Hi].
      apply lookup_lt_Some in Hi. rewrite length_drop in Hi. lia.
    + apply Forall_forall. intros b Hb. rewrite <- Htot.
      by apply (StronglySorted_app_1_elem_of _ _ _ _ _ Hs).
Qed.

(** X17. The chart of the most referenced books has at most 20 bars, in
    descending order of their totals, all positive.  The total of a bar is
    the sum over the book's chapters of the counts of the checked
    categories, a chapter without [by_cat] counting for nothing, so that it
    is the number of the heat map when every chapter has a [by_cat]; the
    counts of the segments of a bar, none of them 0 and in the order of the
    sorted categories, add up to the total.  A book with a positive total is
    left out only when there are 20 bars, none of them smaller; and the
    notice is shown exactly when no book has a positive total. *)
Theorem renderTopBooksChart_bars (books : list Book) (cats : gset jsstring) :
  let total book := Zsum (by_cat_count cats <$> b_chapters book) in
  (renderTopBooksChart books cats = TopBooksNoData
   ↔ Forall (λ book, (total book ≤ 0)%Z) books)
  ∧ (∀ bars allCats,
       renderTopBooksChart books cats = TopBooksChart bars allCats →
       length bars ≤ 20
       ∧ StronglySorted str_lt allCats
       ∧ (∀ c, c ∈ allCats ↔ c ∈ cats)
       ∧ StronglySorted (λ a b, (bb_total b ≤ bb_total a)%Z) bars
       ∧ Forall (λ bar,
           bb_book bar ∈ books
           ∧ (0 < bb_total bar)%Z
           ∧ bb_total bar = total (bb_book bar)
           ∧ Zsum (bb_segments bar).*2 = bb_total bar
           ∧ (bb_segments bar).*1 `sublist_of` allCats
           ∧ Forall (λ s, s.2 ≠ 0%Z) (bb_segments bar)
           ∧ (Forall (λ ch, is_Some (ch_by_cat ch)) (b_chapters (bb_book bar)) →
              bb_total bar = book_total cats (bb_book bar))) bars
       ∧ (∀ book, book ∈ books → (0 < total book)%Z → book ∉ bb_book <$> bars →
            length bars = 20 ∧ Forall (λ bar, (total book ≤ bb_total bar)%Z) bars)).
Proof.
  cbv zeta. unfold renderTopBooksChart.
  destruct (top_books_spec books cats) as (Hlen & Hsorted & Hall & Hnil & Homit).
  cbv zeta in *.
  destruct (array_sort_str_sorted (elements cats) (NoDup_elements cats)) as [Hcs Hcin].
  remember (top_books books cats) as top eqn:Htop. clear Htop.
  split.
  { rewrite <- Hnil. by destruct top. }
  intros bars allCats Hr.
  assert (bars = (λ b, {| bb_book := bt_book b; bb_total := bt_total b;
                    bb_segments :=
                      omap (λ cat, let n := default 0%Z (bt_byCat b !! cat) in
                                   if (n =? 0)%Z then None else Some (cat, n))
                           (array_sort str_gt (elements cats)) |}) <$> top
          ∧ allCats = array_sort str_gt (elements cats)) as [-> ->].
  { destruct top; [done|]. by injection Hr as <- <-. }
  clear Hr.
  assert (Hbooks : ∀ l : list BookTotals,
            bb_book <$> ((λ b, {| bb_book := bt_book b; bb_total := bt_total b;
                    bb_segments :=
                      omap (λ cat, let n := default 0%Z (bt_byCat b !! cat) in
                                   if (n =? 0)%Z then None else Some (cat, n))
                           (array_sort str_gt (elements cats)) |}) <$> l)
            = bt_book <$> l).
  { intros l. rewrite <- list_fmap_compose. by apply list_fmap_ext. }
  split_and!.
  - by rewrite length_fmap.
  - exact Hcs.
  - intros c. rewrite Hcin. apply elem_of_elements.
  - clear -Hsorted. induction Hsorted as [|b l Hl IH Hb]; [constructor|].
    rewrite fmap_cons. constructor; [done|]. apply Forall_fmap.
    eapply Forall_impl; [exact Hb|]. done.
  - apply Forall_fmap. eapply Forall_impl; [exact Hall|].
    intros b [Hp (book & Hbook & ->)]. cbn [bb_book bb_total bb_segments].
    destruct (book_totals_spec cats book) as (Hb1 & Hb2 & Hb3 & Hb4 & Hb5).
    cbv zeta in *. clear Hb1. change (bt_book (book_totals cats book)) with book.
    destruct (segments_sum (bt_byCat (book_totals cats book))
                (array_sort str_gt (elements cats))) as (Hs1 & Hs2 & Hs3). cbv zeta in *.
    cbv beta. cbn [bb_book bb_total bb_segments]. split_and!.
    + exact Hbook.
    + exact Hp.
    + exact Hb2.
    + etransitivity; [exact Hs1|]. rewrite <- Hb5.
      apply Zsum_Permutation, fmap_Permutation, array_sort_Permutation.
    + exact Hs2.
    + eapply Forall_impl; [exact Hs3|]. by intros s [? _].
    + intros Hby. rewrite Hb2, book_total_Zsum.
      assert (E : by_cat_count cats <$> b_chapters book
                  = (λ ch, filteredCount ch cats) <$> b_chapters book); [|by rewrite E].
      apply list_fmap_ext. intros i ch Hch. apply by_cat_count_filteredCount.
      rewrite Forall_forall in Hby. apply Hby. by eapply list_elem_of_lookup_2.
  - intros book Hbook Hp Hnot. rewrite length_fmap.
    destruct (Homit book Hbook Hp) as [Hl Hf].
    + intros Hin. apply Hnot. rewrite Hbooks. apply list_elem_of_fmap.
      exists (book_totals cats book). split; [|done].
      by destruct (book_totals_spec cats book) as (-> & _).
    + split; [done|]. by apply Forall_fmap.
Qed.

Lemma donut_totals_concat books cats :
  donut_totals books cats
  = foldl (λ acc ch, add_by_cat cats acc (default ∅ (ch_by_cat ch))) (∅, 0%Z)
          (concat (b_chapters <$> books)).
Proof.
  unfold donut_totals. generalize (∅ : gmap jsstring Z, 0%Z).
  induction books as [|book books IH]; intros acc; [done|].
  rewrite fmap_cons. cbn [concat foldl]. by rewrite foldl_app, IH.
Qed.

Lemma Zsum_app (l1 l2 : list Z) : Zsum (l1 ++ l2) = (Zsum l1 + Zsum l2)%Z.
Proof. induction l1 as [|x l1 IH]; [done|]. cbn [app]. rewrite !Zsum_cons, IH. lia. Qed.

(** X18. The number in the middle of the donut is the sum, over all chapters
    of all books, of the counts of the checked categories, a chapter without
    [by_cat] counting for nothing: it is the sum of the totals the chart of
    the most referenced books computes for the books.  The total of a
    checked category is the sum of its counts over the chapters, no other
    category has one, and the notice is shown exactly when the number is
    0. *)
Theorem renderCategoryDonut_total (books : list Book) (cats : gset jsstring) :
  let chapters := concat (b_chapters <$> books) in
  let total := Zsum (by_cat_count cats <$> chapters) in
  total = Zsum ((λ book, bt_total (book_totals cats book)) <$> books)
  ∧ (renderCategoryDonut books cats = DonutNoData ↔ total = 0%Z)
  ∧ (∀ catTotals t,
       renderCategoryDonut books cats = DonutChart catTotals t →
       t = total
       ∧ dom catTotals ⊆ cats
       ∧ (∀ c, c ∈ cats →
            count_of catTotals c
            = Zsum ((λ ch, count_of (default ∅ (ch_by_cat ch)) c) <$> chapters))
       ∧ t = Zsum (count_of catTotals <$> elements cats)).
Proof.
  cbv zeta. unfold renderCategoryDonut. rewrite donut_totals_concat.
  rewrite (foldl_add_Zsum snd), Z.add_0_l.
  pose proof (book_totals_spec cats
    {| b_name := []; b_slug := []; b_chapters := concat (b_chapters <$> books) |}) as H.
  cbv zeta in H. unfold book_totals in H. cbn [bt_book bt_total bt_byCat b_chapters] in H.
  destruct H as (_ & H2 & H3 & H4 & H5).
  remember (foldl (λ acc ch, add_by_cat cats acc (default ∅ (ch_by_cat ch))) (∅, 0%Z)
              (concat (b_chapters <$> books))) as r eqn:Hr. clear Hr.
  assert (Ht : Zsum (map_to_list r.1).*2
               = Zsum (by_cat_count cats <$> concat (b_chapters <$> books))).
  { rewrite <- (Zsum_count_of_dom cats) by done. by rewrite H5, H2. }
  split_and!.
  - clear. induction books as [|book books IH]; [done|].
    rewrite !fmap_cons. cbn [concat]. rewrite fmap_app, Zsum_app, Zsum_cons, IH.
    by destruct (book_totals_spec cats book) as (_ & -> & _).
  - rewrite Ht. destruct (Z.eqb_spec (Zsum (by_cat_count cats <$> concat (b_chapters <$> books))) 0);
      split; done.
  - intros catTotals t. rewrite Ht.
    destruct (Z.eqb_spec (Zsum (by_cat_count cats <$> concat (b_chapters <$> books))) 0);
      [done|].
    intros [= <- <-]. split_and!; [done|done|done|]. by rewrite H5, H2.
Qed.

(** ** Citations by section *)

Lemma BOOK_GROUP_MAP_values :
  map_Forall (λ _ g, g ∈ BOOK_GROUP_ORDER) BOOK_GROUP_MAP.
Proof.
  apply (bool_decide_unpack (map_Forall (λ _ g, g ∈ BOOK_GROUP_ORDER) BOOK_GROUP_MAP)).
  vm_compute. exact I.
Qed.

Lemma book_group_in_order slug : book_group slug ∈ BOOK_GROUP_ORDER.
Proof.
  unfold book_group. destruct (BOOK_GROUP_MAP !! slug) as [g|] eqn:E; cbn [default].
  - by apply (BOOK_GROUP_MAP_values slug g).
  - apply (bool_decide_unpack (str "Deuterocanon" ∈ BOOK_GROUP_ORDER)). vm_compute. exact I.
Qed.

Lemma Zsum_values_insert (m : gmap jsstring Z) g n :
  Zsum (map_to_list (<[g := n]> m)).*2
  = (Zsum (map_to_list m).*2 - count_of m g + n)%Z.
Proof.
  unfold count_of. destruct (m !! g) as [v|] eqn:E.
  - rewrite <- (insert_delete_id m g v) at 2 by done. rewrite <- insert_delete_eq.
    assert (H1 : (map_to_list (<[g:=n]> (delete g m))).*2 ≡ₚ n :: (map_to_list (delete g m)).*2).
    { rewrite map_to_list_insert by apply lookup_delete_eq. done. }
    assert (H2 : (map_to_list (<[g:=v]> (delete g m))).*2 ≡ₚ v :: (map_to_list (delete g m)).*2).
    { rewrite map_to_list_insert by apply lookup_delete_eq. done. }
    rewrite (Zsum_Permutation _ _ H1), (Zsum_Permutation _ _ H2), !Zsum_cons. simpl. lia.
  - assert (H1 : (map_to_list (<[g:=n]> m)).*2 ≡ₚ n :: (map_to_list m).*2).
    { by rewrite map_to_list_insert. }
    rewrite (Zsum_Permutation _ _ H1), Zsum_cons. simpl. lia.
Qed.

Lemma groupCounts_fold (refs : list ManuscriptRef) (gc : gmap jsstring Z) :
  let r := fold_left
             (λ gc ref, let g := book_group (mr_book_slug ref) in
                        <[g := (default 0 (gc !! g) + 1)%Z]> gc) refs gc in
  (∀ g, count_of r g
        = (count_of gc g + Z.of_nat (length (filter (λ x, ref_group x = g) refs)))%Z)
  ∧ (∀ g, is_Some (r !! g) ↔ is_Some (gc !! g) ∨ ∃ x, x ∈ refs ∧ ref_group x = g)
  ∧ Zsum (map_to_list r).*2 = (Zsum (map_to_list gc).*2 + Z.of_nat (length refs))%Z.
Proof.
  cbv zeta. revert gc. induction refs as [|ref refs IH]; intros gc; cbn [fold_left].
  - split. { intros g. rewrite filter_nil. cbn [length]. lia. } split; [|cbn [length]; lia].
    intros g. split; [by left|]. intros [?|(x & Hx & _)]; [done|by apply elem_of_nil in Hx].
  - destruct (IH (<[book_group (mr_book_slug ref)
                    := (default 0 (gc !! book_group (mr_book_slug ref)) + 1)%Z]> gc))
      as (H1 & H2 & H3).
    split; [|split].
    + intros g. rewrite H1. unfold count_of at 1.
      destruct (decide (ref_group ref = g)) as [E|E].
      * rewrite filter_cons_True by done. unfold ref_group in E. rewrite E.
        rewrite lookup_insert_eq. unfold count_of. cbn [from_option id length]. lia.
      * rewrite filter_cons_False by done. unfold ref_group in E.
        rewrite lookup_insert_ne by done. unfold count_of. lia.
    + intros g. rewrite H2. destruct (decide (ref_group ref = g)) as [E|E].
      * unfold ref_group in E. rewrite E, lookup_insert_eq. split.
        -- intros _. right. exists ref. split; [left|done].
        -- intros _. left. by eexists.
      * unfold ref_group in E. rewrite lookup_insert_ne by done. split.
        -- intros [?|(x & Hx & Hg)]; [by left|]. right. exists x. split; [by right|done].
        -- intros [?|(x & Hx & Hg)]; [by left|].
           apply elem_of_cons in Hx as [->|Hx]; [done|]. right. by exists x.
    + rewrite H3, Zsum_values_insert. unfold count_of. cbn [length]. lia.
Qed.

(** X19. [groupCounts] counts every citation of a work once, in the section
    of its book: the count of a section is the number of citations whose book
    is in it, a section has an entry exactly when it has a citation, every
    entry is one of the nine sections of [BOOK_GROUP_ORDER], the counts add
    up to the number of citations, and a book that [BOOK_GROUP_MAP] does not
    know is counted under [Deuterocanon]. *)
Theorem groupCounts_of_counts (refs : list ManuscriptRef) :
  (∀ g, count_of (groupCounts_of refs) g
        = Z.of_nat (length (filter (λ x, ref_group x = g) refs)))
  ∧ (∀ g, is_Some (groupCounts_of refs !! g) ↔ ∃ x, x ∈ refs ∧ ref_group x = g)
  ∧ (∀ g, is_Some (groupCounts_of refs !! g) → g ∈ BOOK_GROUP_ORDER)
  ∧ Zsum (map_to_list (groupCounts_of refs)).*2 = Z.of_nat (length refs)
  ∧ (∀ x, ref_group x ∈ BOOK_GROUP_ORDER
          ∧ (BOOK_GROUP_MAP !! mr_book_slug x = None → ref_group x = str "Deuterocanon")).
Proof.
  destruct (groupCounts_fold refs ∅) as (H1 & H2 & H3). cbv zeta in *.
  fold (groupCounts_of refs) in H1, H2, H3.
  assert (H2' : ∀ g, is_Some (groupCounts_of refs !! g) ↔ ∃ x, x ∈ refs ∧ ref_group x = g).
  { intros g. rewrite H2, lookup_empty. split; [|by right].
    intros [[? ?]|?]; [done|done]. }
  split_and!.
  - intros g. rewrite H1. unfold count_of. rewrite lookup_empty. simpl. lia.
  - exact H2'.
  - intros g (x & _ & <-)%H2'. apply book_group_in_order.
  - rewrite H3, map_to_list_empty. simpl. lia.
  - intros x. split; [apply book_group_in_order|].
    intros E. unfold ref_group, book_group. by rewrite E.
Qed.

(** ** Works and citations of the era buckets *)

Lemma length_filter_cons {A} (f : A → bool) (x : A) (l : list A) :
  length (filter (λ x, f x) (x :: l)) = (if f x then 1 else 0) + length (filter (λ x, f x) l).
Proof.
  destruct (f x) eqn:E.
  - rewrite filter_cons_True by (by apply Is_true_true). done.
  - rewrite filter_cons_False by (by apply Is_true_false). done.
Qed.

Lemma year_filter_split (start BUCKET : Z) (d : list WorkRefs) :
  (0 < BUCKET)%Z →
  length (filter (λ x, in_bucket start BUCKET x) d)
  + length (filter (λ x, year_ge (start + BUCKET) x) d)
  = length (filter (λ x, year_ge start x) d).
Proof.
  intros HB. induction d as [|x d IH]; [done|]. rewrite !length_filter_cons, <- IH.
  unfold in_bucket, year_ge. destruct (w_year (wr_work x)) as [y|]; cbn [from_option]; [|lia].
  destruct (Z.leb_spec start y), (Z.ltb_spec y (start + BUCKET)),
    (Z.leb_spec (start + BUCKET) y); cbn [andb]; lia.
Qed.

Lemma make_bucket_count start BUCKET d :
  from_option bk_worksCount 0 (make_bucket start BUCKET d)
  = length (filter (λ x, in_bucket start BUCKET x) d).
Proof.
  unfold make_bucket. by destruct (filter (λ x, in_bucket start BUCKET x) d).
Qed.

Lemma bucket_loop_counts fuel start maxYear BUCKET d buckets :
  (0 < BUCKET)%Z →
  Forall (λ x, ∀ y, w_year (wr_work x) = Some y → (y ≤ maxYear)%Z) d →
  bucket_loop fuel start maxYear BUCKET d = Some buckets →
  sum_list (bk_worksCount <$> buckets) = length (filter (λ x, year_ge start x) d).
Proof.
  intros HB Hmax. revert start buckets.
  assert (Hnone : ∀ start, (maxYear < start)%Z → filter (λ x, year_ge start x) d = []).
  { intros start Hs. clear -Hmax Hs. induction Hmax as [|x d Hx _ IH]; [done|].
    rewrite filter_cons_False; [done|]. apply Is_true_false. unfold year_ge.
    destruct (w_year (wr_work x)) as [y|]; cbn [from_option]; [|done].
    specialize (Hx y eq_refl). destruct (Z.leb_spec start y); [lia|done]. }
  induction fuel as [|fuel IH]; intros start buckets; cbn [bucket_loop].
  - destruct (Z.leb_spec start maxYear) as [Hle|Hgt]; [done|]. intros [= <-].
    by rewrite Hnone.
  - destruct (Z.leb_spec start maxYear) as [Hle|Hgt].
    + destruct (bucket_loop fuel (start + BUCKET) maxYear BUCKET d) as [rest|] eqn:Hrest;
        [|done].
      cbn. intros [= <-]. rewrite <- (year_filter_split start BUCKET) by done.
      rewrite <- (IH _ _ Hrest), <- make_bucket_count.
      destruct (make_bucket start BUCKET d); [rewrite fmap_cons|]; cbn; lia.
    + intros [= <-]. by rewrite Hnone.
Qed.

Lemma fold_add_groupCounts (l : list WorkRefs) acc :
  let r := fold_left add_groupCounts l acc in
  r.2 = (acc.2 + Zsum ((λ x, Zsum (map_to_list (wr_groupCounts x)).*2) <$> l))%Z
  ∧ (∀ g, count_of r.1 g
          = (count_of acc.1 g + Zsum ((λ x, count_of (wr_groupCounts x) g) <$> l))%Z)
  ∧ (∀ g, is_Some (r.1 !! g)
          → is_Some (acc.1 !! g) ∨ ∃ x, x ∈ l ∧ is_Some (wr_groupCounts x !! g)).
Proof.
  cbv zeta. revert acc. induction l as [|x l IH]; intros acc; cbn [fold_left].
  - split; [unfold Zsum; cbn; lia|]. split; [intros g; unfold Zsum; cbn; lia|].
    intros g ?. by left.
  - destruct (IH (add_groupCounts acc x)) as (H1 & H2 & H3).
    destruct (add_groupCounts_spec acc x) as [Hs1 Hs2].
    split; [|split].
    + rewrite H1, Hs2, fmap_cons, Zsum_cons. lia.
    + intros g. rewrite H2, fmap_cons, Zsum_cons. unfold count_of at 1. rewrite Hs1.
      unfold count_of. destruct (wr_groupCounts x !! g); cbn [from_option id]; lia.
    + intros g [Hg|(y & Hy & Hg)]%H3.
      * rewrite Hs1 in Hg. destruct (wr_groupCounts x !! g) eqn:E; [|by left].
        right. exists x. split; [left|]. by rewrite E.
      * right. exists y. split; [by right|done].
Qed.

Lemma bar_segments_sum (legend : list jsstring) (bk : Bucket) :
  Zsum (seg_count <$> bar_segments legend bk)
  = Zsum (count_of (bk_groupTotals bk) <$> legend)
  ∧ Forall (λ seg, seg_count seg ≠ 0%Z
                   ∧ seg_count seg = count_of (bk_groupTotals bk) (seg_group seg))
           (bar_segments legend bk).
Proof.
  unfold bar_segments. induction legend as [|g legend [IH1 IH2]]; [by split|].
  cbn [omap list_omap]. fold (count_of (bk_groupTotals bk) g).
  destruct (Z.eqb_spec (count_of (bk_groupTotals bk) g) 0) as [E|E].
  - split; [|done]. rewrite fmap_cons, Zsum_cons, E. cbn. exact IH1.
  - rewrite !fmap_cons. cbn [seg_count]. split; [by rewrite !Zsum_cons, IH1|].
    by constructor.
Qed.

Lemma Zsum_filter_zero {A} (f : A → Z) (P : A → Prop) `{∀ x, Decision (P x)} (l : list A) :
  (∀ x, x ∈ l → ¬ P x → f x = 0%Z) → Zsum (f <$> filter P l) = Zsum (f <$> l).
Proof.
  induction l as [|x l IH]; intros Hz; [done|].
  rewrite fmap_cons, Zsum_cons. destruct (decide (P x)) as [HP|HP].
  - rewrite filter_cons_True by done. rewrite fmap_cons, Zsum_cons, IH; [done|].
    intros y Hy. apply Hz. by right.
  - rewrite filter_cons_False by done. rewrite (Hz x) by (done || left). rewrite IH; [done|].
    intros y Hy. apply Hz. by right.
Qed.

Lemma Zsum_swap_gen {A B} (f : A → B → Z) (la : list A) (lb : list B) :
  Zsum ((λ a, Zsum (f a <$> lb)) <$> la) = Zsum ((λ b, Zsum ((λ a, f a b) <$> la)) <$> lb).
Proof.
  induction la as [|a la IH].
  - cbn. induction lb as [|b lb IHb]; [done|]. by rewrite fmap_cons, Zsum_cons, <- IHb.
  - rewrite fmap_cons, Zsum_cons, IH, <- Zsum_fmap_add. apply Zsum_fmap_ext. intros b.
    by rewrite fmap_cons, Zsum_cons.
Qed.

Lemma Zsum_count_of_order (m : gmap jsstring Z) :
  (∀ g, is_Some (m !! g) → g ∈ BOOK_GROUP_ORDER) →
  Zsum (count_of m <$> BOOK_GROUP_ORDER) = Zsum (map_to_list m).*2.
Proof.
  intros Hdom.
  assert (Hnd : NoDup BOOK_GROUP_ORDER).
  { apply (bool_decide_unpack (NoDup BOOK_GROUP_ORDER)). vm_compute. exact I. }
  rewrite <- (Zsum_count_of_dom (list_to_set BOOK_GROUP_ORDER)).
  - apply Zsum_Permutation, fmap_Permutation. symmetry. by apply elements_list_to_set.
  - intros g Hg. apply elem_of_list_to_set, Hdom. by apply elem_of_dom.
Qed.

Lemma make_bucket_totals start BUCKET d bk :
  make_bucket start BUCKET d = Some bk →
  bk_groupTotals bk
  = (fold_left add_groupCounts (filter (λ x, in_bucket start BUCKET x) d) (∅, 0%Z)).1
  ∧ bk_total bk
    = (fold_left add_groupCounts (filter (λ x, in_bucket start BUCKET x) d) (∅, 0%Z)).2.
Proof.
  unfold make_bucket. destruct (filter (λ x, in_bucket start BUCKET x) d); [done|].
  by intros [= <-].
Qed.

Lemma filter_settled net start BUCKET (l : list (Work * option (list ManuscriptRef))) :
  filter (λ x, in_bucket start BUCKET x) (settled net <$> l)
  = settled net <$> filter (λ wf, in_era start BUCKET wf) l.
Proof.
  induction l as [|wf l IH]; [done|]. rewrite fmap_cons.
  assert (E : in_bucket start BUCKET (settled net wf) = in_era start BUCKET wf) by done.
  destruct (in_era start BUCKET wf) eqn:Hera.
  - rewrite !filter_cons_True by (by apply Is_true_true). by rewrite fmap_cons, IH.
  - rewrite !filter_cons_False by (by apply Is_true_false). exact IH.
Qed.

Lemma groupCounts_of_values refs :
  Zsum (map_to_list (groupCounts_of refs)).*2 = Z.of_nat (length refs)
  ∧ (∀ g, is_Some (groupCounts_of refs !! g) → g ∈ BOOK_GROUP_ORDER)
  ∧ (∀ g, 0 ≤ count_of (groupCounts_of refs) g)%Z.
Proof.
  destruct (groupCounts_fold refs ∅) as (H1 & H2 & H3). cbv zeta in *.
  fold (groupCounts_of refs) in H1, H2, H3. split_and!.
  - rewrite H3, map_to_list_empty. simpl. lia.
  - intros g [[? Hg]|(x & _ & <-)]%H2; [by rewrite lookup_empty in Hg|].
    apply book_group_in_order.
  - intros g. rewrite H1. unfold count_of. rewrite lookup_empty. simpl. lia.
Qed.

Lemma Zsum_lengths {A} (ls : list (list A)) :
  Zsum ((λ l, Z.of_nat (length l)) <$> ls) = Z.of_nat (length (concat ls)).
Proof.
  induction ls as [|l ls IH]; [done|].
  rewrite fmap_cons, Zsum_cons, IH. cbn [concat]. rewrite length_app. lia.
Qed.

Lemma Zsum_nonneg (l : list Z) : Forall (λ z, 0 ≤ z)%Z l → (0 ≤ Zsum l)%Z.
Proof. induction 1 as [|z l Hz _ IH]; [done|]. rewrite Zsum_cons. lia. Qed.

(** X20. In the chart of the references by date every dated work of the
    checked categories is counted in exactly one bar: the numbers of works of
    the buckets add up to the number of those works.  The total of a bucket
    is the number of citations of the works whose year is in it, and the
    counts of the segments of its bar, all positive, add up to that total, so
    that the shares of a bar add up to the whole. *)
Theorem era_chart_accounts (works : list Work) (cats : gset jsstring) (version : nat)
    (cache cache' : gmap Z (list ManuscriptRef)) (net : Z → Outcome)
    (body : RefsByDate) (t : Task) (B : Z) (bars : list Bar) (legend : list jsstring) :
  renderBibleRefsByDate_begin works cats version cache = (body, Some t) →
  refs_by_date_chart (settle net t cache').1 = Chart B bars legend →
  ∃ buckets,
    bars = (λ bk, {| bar_start := bk_b bk;
                     bar_segments_of := bar_segments legend bk |}) <$> buckets
    ∧ sum_list (bk_worksCount <$> buckets)
      = length (filter (λ w, has_year w && in_cats cats w) works)
    ∧ Forall (λ bk,
        Zsum (seg_count <$> bar_segments legend bk) = bk_total bk
        ∧ bk_total bk
          = Z.of_nat (length (concat (settled_refs net
                                        <$> filter (λ wf, in_era (bk_b bk) B wf)
                                                   (t_works t))))
        ∧ Forall (λ seg, (0 < seg_count seg)%Z) (bar_segments legend bk)) buckets.
Proof.
  intros Hbegin Hchart.
  pose proof (settle_dated _ _ _ _ _ _ net cache' Hbegin) as Hworks.
  assert (Hd : (settle net t cache').1 = settled net <$> t_works t).
  { unfold settle. by rewrite settle_work_list. }
  rewrite Hd in Hchart, Hworks. remember (settled net <$> t_works t) as d eqn:Ed.
  assert (Hyears : Forall (λ x, is_Some (w_year (wr_work x))) d).
  { pose proof (filter_dated works cats) as Hf. rewrite <- Hworks in Hf.
    apply Forall_forall. intros x Hx. rewrite Forall_forall in Hf.
    apply (Hf (wr_work x)). by apply list_elem_of_fmap_2. }
  assert (Hkeys : ∀ x g, x ∈ d → is_Some (wr_groupCounts x !! g) → g ∈ BOOK_GROUP_ORDER).
  { intros x g Hx Hg. rewrite Ed in Hx. apply list_elem_of_fmap in Hx as (wf & -> & _).
    by apply (groupCounts_of_values (settled_refs net wf)). }
  assert (Hnonneg : ∀ x g, x ∈ d → (0 ≤ count_of (wr_groupCounts x) g)%Z).
  { intros x g Hx. rewrite Ed in Hx. apply list_elem_of_fmap in Hx as (wf & -> & _).
    apply (groupCounts_of_values (settled_refs net wf)). }
  apply refs_by_date_chart_Chart in Hchart
    as (y & ys & buckets & Hy & HB & Hlegend & Hloop & Hbars).
  assert (HBpos : (0 < B)%Z) by (rewrite HB; apply BUCKET_of_pos).
  exists buckets. split; [exact Hbars|].
  destruct (list_min_spec y ys) as [_ Hminle], (list_max_spec y ys) as [_ Hmaxle].
  rewrite <- Hy in Hminle, Hmaxle.
  assert (Hfirst : (list_min y ys `div` B * B ≤ list_min y ys)%Z).
  { pose proof (Z.mul_div_le (list_min y ys) B HBpos). lia. }
  assert (Hmaxall : Forall (λ x, ∀ y0, w_year (wr_work x) = Some y0
                                    → (y0 ≤ list_max y ys)%Z) d).
  { apply Forall_forall. intros x Hx yx Hyx. rewrite Forall_forall in Hmaxle.
    apply Hmaxle, list_elem_of_omap. by exists x. }
  split; [|].
  - rewrite (bucket_loop_counts _ _ _ _ _ _ HBpos Hmaxall Hloop).
    rewrite <- Hworks, length_fmap. f_equal.
    assert (Hall : Forall (λ x, year_ge (list_min y ys `div` B * B) x = true) d).
    { apply Forall_forall. intros x Hx. rewrite Forall_forall in Hyears.
      rewrite Forall_forall in Hminle.
      destruct (Hyears x Hx) as [yx Hyx]. unfold year_ge. rewrite Hyx. cbn.
      apply Z.leb_le. assert (list_min y ys ≤ yx)%Z; [|lia].
      apply Hminle, list_elem_of_omap. by exists x. }
    clear -Hall. induction Hall as [|x d Hx _ IH]; [done|].
    rewrite filter_cons_True by (by apply Is_true_true). by rewrite IH.
  - destruct (bucket_loop_spec _ _ _ _ _ _ HBpos Hloop) as [_ Hbuckets].
    eapply Forall_impl; [exact Hbuckets|]. intros bk (_ & _ & Hmake). cbv beta.
    apply make_bucket_totals in Hmake as [Htotals Htotal].
    destruct (fold_add_groupCounts (filter (λ x, in_bucket (bk_b bk) B x) d) (∅, 0%Z))
      as (F1 & F2 & F3). cbv zeta in *. rewrite <- Htotals in F2, F3. rewrite <- Htotal in F1.
    cbn [fst snd] in *.
    assert (Hin : ∀ x, x ∈ filter (λ x, in_bucket (bk_b bk) B x) d → x ∈ d).
    { intros x Hx. by apply list_elem_of_filter in Hx as [_ ?]. }
    assert (Hcount : ∀ g, count_of (bk_groupTotals bk) g
              = Zsum ((λ x, count_of (wr_groupCounts x) g)
                      <$> filter (λ x, in_bucket (bk_b bk) B x) d)).
    { intros g. rewrite F2. unfold count_of at 1. rewrite lookup_empty. simpl. lia. }
    destruct (bar_segments_sum legend bk) as [S1 S2].
    assert (Hsegs : Zsum (seg_count <$> bar_segments legend bk) = bk_total bk).
    { rewrite S1, Hlegend, Zsum_filter_zero.
      - assert (E : count_of (bk_groupTotals bk) <$> BOOK_GROUP_ORDER
                    = (λ g, Zsum ((λ x, count_of (wr_groupCounts x) g)
                                  <$> filter (λ x, in_bucket (bk_b bk) B x) d))
                      <$> BOOK_GROUP_ORDER).
        { apply list_fmap_ext. intros i g _. apply Hcount. }
        rewrite E.
        rewrite <- (Zsum_swap_gen (λ x g, count_of (wr_groupCounts x) g)
                      (filter (λ x, in_bucket (bk_b bk) B x) d) BOOK_GROUP_ORDER).
        rewrite F1, Z.add_0_l.
        assert (E' : (λ a, Zsum ((λ g, count_of (wr_groupCounts a) g) <$> BOOK_GROUP_ORDER))
                       <$> filter (λ x, in_bucket (bk_b bk) B x) d
                     = (λ x, Zsum (map_to_list (wr_groupCounts x)).*2)
                       <$> filter (λ x, in_bucket (bk_b bk) B x) d).
        { apply list_fmap_ext. intros i x Hx.
          apply (Zsum_count_of_order (wr_groupCounts x)). intros g. apply Hkeys, Hin.
          by eapply list_elem_of_lookup_2. }
        by rewrite E'.
      - intros g _ Hno. unfold count_of.
        destruct (bk_groupTotals bk !! g) as [n|] eqn:Eg; [|done]. exfalso. apply Hno.
        destruct (F3 g) as [[? Hempty]|(x & Hx & Hg)]; [by eexists|by rewrite lookup_empty in Hempty|].
        apply Is_true_true, existsb_exists. exists x.
        split; [by apply list_elem_of_In, Hin|]. by apply bool_decide_eq_true. }
    split; [exact Hsegs|]. split.
    + rewrite F1, Z.add_0_l, Ed, filter_settled, <- list_fmap_compose, <- Zsum_lengths.
      rewrite <- list_fmap_compose. f_equal. apply list_fmap_ext. intros i wf _. cbn.
      apply (groupCounts_of_values (settled_refs net wf)).
    + eapply Forall_impl; [exact S2|]. intros seg [Hne Heq]. cbv beta in *.
      assert (0 ≤ seg_count seg)%Z; [|lia]. rewrite Heq, Hcount. apply Zsum_nonneg.
      apply Forall_fmap, Forall_forall. intros x Hx. by apply Hnonneg, Hin.
Qed.

Lemma era_chart_accounts_witness :
  ∃ bars legend buckets,
    refs_by_date_chart (settle sample_net sample_task ∅).1 = Chart 200 bars legend
    ∧ bars = (λ bk, {| bar_start := bk_b bk;
                       bar_segments_of := bar_segments legend bk |}) <$> buckets
    ∧ sum_list (bk_worksCount <$> buckets) = 2.
Proof.
  assert (Hbegin : renderBibleRefsByDate_begin sample_index sample_active 1 ∅
                   = (sample_begin.1, Some sample_task)) by (vm_compute; reflexivity).
  destruct (refs_by_date_chart (settle sample_net sample_task ∅).1)
    as [| | | |B bars legend] eqn:Hchart; try (by vm_compute in Hchart).
  assert (HB : B = 200%Z).
  { assert (E : refs_by_date_chart (settle sample_net sample_task ∅).1
                = Chart B bars legend) by exact Hchart.
    vm_compute in E. by injection E as <- _ _. }
  destruct (era_chart_accounts _ _ _ _ ∅ sample_net _ _ _ _ _ Hbegin Hchart)
    as (buckets & Hbars & Hsum & _).
  exists bars, legend, buckets. split; [by rewrite HB|]. split; [exact Hbars|].
  rewrite Hsum. vm_compute. reflexivity.
Defined.

(** ** The cache of citation lists only grows *)










(** ** Texts that are loaded once *)

Lemma run_loadKJV_started {D} (evs : list (LoaderEvent D)) (st : Loader D) :
  started st → (run_loadKJV evs st).2 = 0 ∧ started (run_loadKJV evs st).1.
Proof.
  revert st. induction evs as [|[|o] evs IH]; intros st Hst; cbn [run_loadKJV]; [done|..].
  - unfold loadKJV. destruct Hst as [p Hp]. rewrite Hp.
    destruct (data st); cbn [fst snd]; (destruct (IH st) as [-> ?]; [by eexists|done]).
  - apply IH. unfold loadKJV_settle. destruct Hst as [p Hp]. rewrite Hp.
    destruct p; [destruct o|..]; by eexists.
Qed.

Lemma run_loadPassages_started {D} (evs : list (LoaderEvent D)) (st : Loader D) :
  started st → (run_loadPassages evs st).2 = 0 ∧ started (run_loadPassages evs st).1.
Proof.
  revert st. induction evs as [|[|o] evs IH]; intros st Hst; cbn [run_loadPassages]; [done|..].
  - unfold loadPassages. destruct Hst as [p Hp]. rewrite Hp.
    destruct (data st); cbn [fst snd]; (destruct (IH st) as [-> ?]; [by eexists|done]).
  - apply IH. unfold loadPassages_settle. destruct Hst as [p Hp]. rewrite Hp.
    destruct p; [destruct o|..]; by eexists.
Qed.

Lemma run_loadKJV_settled {D} (evs : list (LoaderEvent D)) (st : Loader D) :
  settled_load st → run_loadKJV evs st = (st, 0).
Proof.
  intros (p & Hp & Hne). induction evs as [|[|o] evs IH]; cbn [run_loadKJV]; [done|..].
  - unfold loadKJV. rewrite Hp. destruct (data st); cbn [fst snd]; by rewrite IH.
  - unfold loadKJV_settle. rewrite Hp. by destruct p.
Qed.

Lemma run_loadPassages_settled {D} (evs : list (LoaderEvent D)) (st : Loader D) :
  settled_load st → run_loadPassages evs st = (st, 0).
Proof.
  intros (p & Hp & Hne). induction evs as [|[|o] evs IH]; cbn [run_loadPassages]; [done|..].
  - unfold loadPassages. rewrite Hp. destruct (data st); cbn [fst snd]; by rewrite IH.
  - unfold loadPassages_settle. rewrite Hp. by destruct p.
Qed.

(** X22. Whatever the calls and however the fetch ends, [loadKJV] and
    [loadPassages] start at most one fetch.  Once the fetch has settled
    nothing changes any more, so that a failure is never tried again: after a
    rejected fetch every call of [loadKJV] resolves to null, and every call
    of [loadPassages] is rejected; after a fetch that succeeded every call
    gives its payload. *)
Theorem loaders_fetch_once {D : Type} (evs : list (LoaderEvent D)) :
  (run_loadKJV evs not_loaded).2 ≤ 1
  ∧ (run_loadPassages evs not_loaded).2 ≤ 1
  ∧ (∀ st : Loader D, settled_load st →
       run_loadKJV evs st = (st, 0) ∧ run_loadPassages evs st = (st, 0))
  ∧ (∀ st : Loader D, loadPromise st = Some Pending → data st = None →
       let failed := loadKJV_settle None st in
       let loaded d := loadKJV_settle (Some d) st in
       settled_load failed
       ∧ await (loadKJV failed).1.1 (loadKJV failed).1.2 = Value None
       ∧ (loadKJV failed).2 = false
       ∧ ∀ d, settled_load (loaded d)
              ∧ await (loadKJV (loaded d)).1.1 (loadKJV (loaded d)).1.2 = Value (Some d)
              ∧ (loadKJV (loaded d)).2 = false)
  ∧ (∀ st : Loader D, loadPromise st = Some Pending → data st = None →
       let failed := loadPassages_settle None st in
       let loaded d := loadPassages_settle (Some d) st in
       settled_load failed
       ∧ await (loadPassages failed).1.1 (loadPassages failed).1.2 = Throws
       ∧ (loadPassages failed).2 = false
       ∧ ∀ d, settled_load (loaded d)
              ∧ await (loadPassages (loaded d)).1.1 (loadPassages (loaded d)).1.2
                = Value (Some d)
              ∧ (loadPassages (loaded d)).2 = false).
Proof.
  split_and!.
  - induction evs as [|[|o] evs IH]; cbn [run_loadKJV]; [cbn; lia| |].
    + unfold loadKJV, not_loaded. cbn [data loadPromise fst snd].
      destruct (run_loadKJV_started evs {| data := None; loadPromise := Some (@Pending D) |})
        as [-> _]; [by eexists|cbn; lia].
    + exact IH.
  - induction evs as [|[|o] evs IH]; cbn [run_loadPassages]; [cbn; lia| |].
    + unfold loadPassages, not_loaded. cbn [data loadPromise fst snd].
      destruct (run_loadPassages_started evs
                  {| data := None; loadPromise := Some (@Pending D) |})
        as [-> _]; [by eexists|cbn; lia].
    + exact IH.
  - intros st Hst. split; [by apply run_loadKJV_settled|by apply run_loadPassages_settled].
  - intros st Hp Hd. cbv zeta. unfold loadKJV_settle, loadKJV. rewrite Hp, Hd.
    cbn. split_and!; try done.
    + by eexists.
    + intros d. split_and!; try done. by eexists.
  - intros st Hp Hd. cbv zeta. unfold loadPassages_settle, loadPassages. rewrite Hp, Hd.
    cbn. split_and!; try done.
    + by eexists.
    + intros d. split_and!; try done. by eexists.
Qed.

(** ** The cache of book payloads *)



(** ** The matcher finds what the pattern matches *)

Lemma prev_after_nil prev : prev_after prev [] = prev.
Proof. done. Qed.

Lemma prev_after_cons prev c u : prev_after prev (c :: u) = prev_after (Some c) u.
Proof.
  unfold prev_after. destruct u as [|d u]; [done|].
  change (last (c :: d :: u)) with (last (d :: u)).
  destruct (last (d :: u)) eqn:E; [done|]. by apply last_None in E.
Qed.

Lemma prev_after_app prev u v : prev_after prev (u ++ v) = prev_after (prev_after prev u) v.
Proof.
  revert prev. induction u as [|c u IH]; intros prev; [done|].
  cbn [app]. by rewrite !prev_after_cons, IH.
Qed.

Section MatcherSound.
Context {A : Type}.
Implicit Types (k : option char → jsstring → option A) (s : jsstring).

Lemma star_match_sound p prev s k x :
  star_match p prev s k = Some x →
  ∃ u rest, s = u ++ rest ∧ Forall (λ c, p c = true) u
            ∧ k (prev_after prev u) rest = Some x.
Proof.
  revert prev. induction s as [|c s IH]; intros prev H; cbn [star_match] in H.
  - by exists [], [].
  - destruct (p c) eqn:Hp; [|by exists [], (c :: s)].
    destruct (star_match p (Some c) s k) as [y|] eqn:Hrec.
    + injection H as ->. destruct (IH _ Hrec) as (u & rest & -> & Hu & Hk).
      exists (c :: u), rest. rewrite prev_after_cons. by repeat constructor.
    + by exists [], (c :: s).
Qed.

Lemma star_match_complete p prev u rest k :
  Forall (λ c, p c = true) u → is_Some (k (prev_after prev u) rest) →
  is_Some (star_match p prev (u ++ rest) k).
Proof.
  intros Hu. revert prev. induction Hu as [|c u Hc Hu IH]; intros prev Hk.
  - cbn [app]. rewrite prev_after_nil in Hk. destruct rest as [|c rest]; [done|].
    cbn [star_match]. destruct (p c); [|done].
    by destruct (star_match p (Some c) rest k); [eexists|].
  - cbn [app star_match]. rewrite Hc. rewrite prev_after_cons in Hk.
    destruct (IH (Some c) Hk) as [y ->]. by eexists.
Qed.

Lemma rematch_sound r prev s k x :
  rematch r prev s k = Some x →
  ∃ u rest, s = u ++ rest ∧ matches r prev u rest ∧ k (prev_after prev u) rest = Some x.
Proof.
  revert prev s k x. induction r as [|p|r1 IH1 r2 IH2|r1 IH1 r2 IH2|p| |];
    intros prev s k x H; cbn [rematch] in H.
  - exists [], s. split; [done|]. split; [constructor|done].
  - destruct s as [|c s]; [done|]. destruct (p c) eqn:Hp; [|done].
    exists [c], s. split; [done|]. split; [by constructor|done].
  - apply IH1 in H as (u & rest1 & -> & Hu & H).
    apply IH2 in H as (v & rest & -> & Hv & H).
    exists (u ++ v), rest. split; [by rewrite app_assoc|].
    split; [by constructor|]. by rewrite prev_after_app.
  - destruct (rematch r1 prev s k) as [y|] eqn:H1.
    + injection H as ->. apply IH1 in H1 as (u & rest & -> & Hu & H).
      exists u, rest. split; [done|]. split; [by apply matches_Alt_l|done].
    + apply IH2 in H as (u & rest & -> & Hu & H).
      exists u, rest. split; [done|]. split; [by apply matches_Alt_r|done].
  - apply star_match_sound in H as (u & rest & -> & Hu & H).
    exists u, rest. split; [done|]. split; [by constructor|done].
  - destruct (xorb (opt_word prev) (opt_word (head s))) eqn:Hx; [|done].
    exists [], s. split; [done|]. split; [by constructor|done].
  - destruct s; [|done]. exists [], []. split; [done|]. split; [constructor|done].
Qed.

Lemma rematch_complete r prev u rest k :
  matches r prev u rest → is_Some (k (prev_after prev u) rest) →
  is_Some (rematch r prev (u ++ rest) k).
Proof.
  intros Hm. revert k. induction Hm as
    [prev rest|p prev c rest Hp|r1 r2 prev u v rest _ IH1 _ IH2
    |r1 r2 prev u rest _ IH|r1 r2 prev u rest _ IH|p prev u rest Hu
    |prev rest Hx|prev]; intros k Hk; cbn [rematch app].
  - done.
  - by rewrite Hp.
  - rewrite <- app_assoc. apply IH1. apply IH2. by rewrite <- prev_after_app.
  - destruct (IH k Hk) as [y ->]. by eexists.
  - destruct (rematch r1 prev (u ++ rest) k); [by eexists|]. by apply IH.
  - by apply star_match_complete.
  - by rewrite Hx.
  - done.
Qed.
End MatcherSound.

Lemma match_here_sound r prev s n :
  match_here r prev s = Some n →
  ∃ u rest, s = u ++ rest ∧ n = length u ∧ matches r prev u rest.
Proof.
  unfold match_here. intros (u & rest & -> & Hm & Hk)%rematch_sound.
  exists u, rest. split; [done|]. split; [|done]. injection Hk as <-.
  rewrite length_app. lia.
Qed.

Lemma match_here_complete r prev u rest :
  matches r prev u rest → is_Some (match_here r prev (u ++ rest)).
Proof. intros Hm. unfold match_here. by apply rematch_complete. Qed.

Lemma exec_from_sound r prev s i j n :
  exec_from r prev s i = Some (j, n) →
  ∃ pre u rest,
    s = pre ++ u ++ rest ∧ j = i + length pre ∧ n = length u
    ∧ matches r (prev_after prev pre) u rest
    ∧ ∀ pre' u' rest', s = pre' ++ u' ++ rest' → length pre' < length pre →
        ¬ matches r (prev_after prev pre') u' rest'.
Proof.
  revert prev i. induction s as [|c s IH]; intros prev i; cbn [exec_from].
  - destruct (match_here r prev []) as [m|] eqn:Hm; [|done]. intros [= <- <-].
    apply match_here_sound in Hm as (u & rest & Hs & -> & Hu).
    exists [], u, rest. split; [done|]. split; [cbn; lia|]. split; [done|].
    split; [done|]. intros pre' u' rest' _ Hlt. cbn in Hlt. lia.
  - destruct (match_here r prev (c :: s)) as [m|] eqn:Hm.
    + intros [= <- <-]. apply match_here_sound in Hm as (u & rest & Hs & -> & Hu).
      exists [], u, rest. split; [done|]. split; [cbn; lia|]. split; [done|].
      split; [done|]. intros pre' u' rest' _ Hlt. cbn in Hlt. lia.
    + intros H. apply IH in H as (pre & u & rest & -> & -> & -> & Hu & Hleft).
      exists (c :: pre), u, rest. split; [done|]. split; [cbn; lia|]. split; [done|].
      split; [by rewrite prev_after_cons|].
      intros pre' u' rest' Hs Hlt. destruct pre' as [|c' pre'].
      * cbn [app] in Hs. intros Hm'. rewrite prev_after_nil in Hm'.
        apply match_here_complete in Hm'. rewrite <- Hs, Hm in Hm'. by destruct Hm'.
      * injection Hs as <- Hs. rewrite prev_after_cons. apply (Hleft _ _ _ Hs).
        cbn in Hlt. lia.
Qed.

Lemma exec_from_None r prev s i :
  exec_from r prev s i = None →
  ∀ pre u rest, s = pre ++ u ++ rest → ¬ matches r (prev_after prev pre) u rest.
Proof.
  revert prev i. induction s as [|c s IH]; intros prev i; cbn [exec_from].
  - destruct (match_here r prev []) as [m|] eqn:Hm; [done|]. intros _ pre u rest Hs Hu.
    destruct pre; [|done]. cbn [app] in Hs. rewrite prev_after_nil in Hu.
    apply match_here_complete in Hu. rewrite <- Hs, Hm in Hu. by destruct Hu.
  - destruct (match_here r prev (c :: s)) as [m|] eqn:Hm; [done|].
    intros H pre u rest Hs Hu. destruct pre as [|c' pre].
    + cbn [app] in Hs. rewrite prev_after_nil in Hu.
      apply match_here_complete in Hu. rewrite <- Hs, Hm in Hu. by destruct Hu.
    + injection Hs as <- Hs. rewrite prev_after_cons in Hu. by apply (IH _ _ H _ _ _ Hs).
Qed.

(** ** The citation pattern *)

Lemma matches_lit f s prev u rest :
  matches (lit f s) prev u rest ↔ Forall2 (λ p c, f p c = true) s u.
Proof.
  revert prev u. induction s as [|p s IH]; intros prev u; cbn [lit].
  - split.
    + inversion 1; subst. constructor.
    + inversion 1; subst. constructor.
  - split.
    + inversion 1 as [| |r1 r2 prev' u1 v rest' H1 H2| | | | |]; subst.
      inversion H1; subst. cbn [app]. constructor; [done|]. by apply IH in H2.
    + inversion 1 as [|p' c s' u' Hp Hs]; subst.
      change (c :: u') with ([c] ++ u'). constructor; [by constructor|]. by apply IH.
Qed.

Lemma matches_Plus p prev u rest :
  matches (Plus p) prev u rest ↔ u ≠ [] ∧ Forall (λ c, p c = true) u.
Proof.
  unfold Plus. split.
  - inversion 1 as [| |r1 r2 prev' u1 v rest' H1 H2| | | | |]; subst.
    inversion H1; subst. inversion H2; subst. cbn [app]. split; [done|]. by constructor.
  - intros [Hne Hu]. destruct Hu as [|c u Hc Hu]; [done|].
    change (c :: u) with ([c] ++ u). constructor; by constructor.
Qed.

Lemma is_space_is_sep c : is_space c = true → is_sep c = true.
Proof. unfold is_sep. intros ->. by rewrite !orb_true_r. Qed.

Lemma digit_ci p c : is_digit p = true → is_char_ci p c = true → c = p.
Proof.
  unfold is_digit, is_char_ci, canon, is_lower.
  intros [H1 H2]%andb_true_iff. apply N.leb_le in H1, H2.
  destruct (N.leb_spec 97 c), (N.leb_spec c 122), (N.leb_spec 97 p), (N.leb_spec p 122);
    cbn [andb]; intros Heq%N.eqb_eq; lia.
Qed.

Lemma digits_ci vs v : Forall (λ c, is_digit c = true) vs → ci_eq vs v → v = vs.
Proof.
  intros Hd Hci. induction Hci as [|p c vs v Hpc _ IH]; [done|].
  apply Forall_cons in Hd as [Hp Hd]. f_equal; [by apply digit_ci|by apply IH].
Qed.

Lemma ci_eq_refl_digits vs : Forall (λ c, is_digit c = true) vs → ci_eq vs vs.
Proof.
  induction 1 as [|c vs Hc _ IH]; constructor; [|done].
  unfold is_char_ci. apply N.eqb_refl.
Qed.

Lemma is_digit_word c : is_digit c = true → is_word c = true.
Proof. unfold is_word. by intros ->. Qed.

Lemma prev_after_digits prev v :
  v ≠ [] → Forall (λ c, is_digit c = true) v → opt_word (prev_after prev v) = true.
Proof.
  intros Hne Hv. unfold prev_after. destruct (last v) as [c|] eqn:E.
  - cbn. apply is_digit_word. rewrite Forall_forall in Hv. apply Hv.
    apply last_Some in E as [l ->]. apply elem_of_app. right. left.
  - by apply last_None in E.
Qed.

Lemma matches_Seq_inv r1 r2 prev w rest :
  matches (Seq r1 r2) prev w rest →
  ∃ u v, w = u ++ v ∧ matches r1 prev u (v ++ rest) ∧ matches r2 (prev_after prev u) v rest.
Proof. inversion 1; subst. by eexists _, _. Qed.

Lemma matches_Alt_inv r1 r2 prev u rest :
  matches (Alt r1 r2) prev u rest → matches r1 prev u rest ∨ matches r2 prev u rest.
Proof. inversion 1; subst; [by left|by right]. Qed.

Lemma matches_Star_inv p prev u rest :
  matches (Star p) prev u rest → Forall (λ c, p c = true) u.
Proof. by inversion 1; subst. Qed.

Lemma matches_WordB_inv prev u rest :
  matches WordB prev u rest → u = [] ∧ xorb (opt_word prev) (opt_word (head rest)) = true.
Proof. by inversion 1; subst. Qed.

Lemma matches_Eol_inv prev u rest : matches Eol prev u rest → u = [] ∧ rest = [].
Proof. by inversion 1; subst. Qed.

Lemma matches_verse_pattern chapter verseStart prev u rest :
  digits_only verseStart →
  matches (verse_pattern chapter verseStart) prev u rest ↔ cites chapter verseStart u rest.
Proof.
  intros [Hne Hdigits]. unfold verse_pattern, cites.
  generalize (String_of_N chapter) (toRoman chapter). intros ch roman. split.
  - intros (c & u1 & -> & Hc & H1)%matches_Seq_inv.
    apply matches_Seq_inv in H1 as (sp & u2 & -> & Hsp & H2).
    apply matches_Seq_inv in H2 as (sep & u3 & -> & Hsep & H3).
    apply matches_Seq_inv in H3 as (v & w & -> & Hv & Hw).
    apply matches_WordB_inv in Hw as [-> Hx].
    apply matches_Star_inv in Hsp. apply matches_Plus in Hsep as [Hsepne Hsep].
    apply matches_lit in Hv. apply (digits_ci _ _ Hdigits) in Hv as ->.
    rewrite prev_after_digits in Hx by done.
    exists c, (sp ++ sep). split; [by rewrite app_nil_r, <- !app_assoc|].
    split.
    { apply matches_Alt_inv in Hc as [Hc|Hc]; [left|right]; by eapply matches_lit. }
    split; [by destruct sp|]. split; [|by destruct (opt_word (head rest))].
    apply Forall_app. split; [|done].
    eapply Forall_impl; [exact Hsp|]. apply is_space_is_sep.
  - intros (c & sep & -> & Hc & Hsepne & Hsep & Hw).
    constructor.
    { destruct Hc as [Hc|Hc]; [apply matches_Alt_l|apply matches_Alt_r];
        by apply matches_lit. }
    change (sep ++ verseStart) with ([] ++ sep ++ verseStart).
    constructor; [by constructor|].
    constructor; [by apply matches_Plus|].
    rewrite <- (app_nil_r verseStart) at 2.
    constructor; [apply matches_lit; by apply ci_eq_refl_digits|].
    constructor. rewrite prev_after_digits by done. by rewrite Hw.
Qed.

Lemma test_prefix_matches r s :
  test_prefix r s = true ↔ ∃ u rest, s = u ++ rest ∧ matches r None u rest.
Proof.
  unfold test_prefix. rewrite bool_decide_eq_true. split.
  - intros [n (u & rest & -> & _ & Hm)%match_here_sound]. by exists u, rest.
  - intros (u & rest & -> & Hm). by apply match_here_complete.
Qed.

Lemma test_all_digits s : test_prefix re_all_digits s = true ↔ digits_only s.
Proof.
  rewrite test_prefix_matches. unfold re_all_digits, digits_only. split.
  - intros (u & rest & -> & (d & e & -> & Hd & He)%matches_Seq_inv).
    apply matches_Eol_inv in He as [-> ->]. apply matches_Plus in Hd as [? ?].
    by rewrite !app_nil_r.
  - intros [Hne Hd]. exists s, []. split; [by rewrite app_nil_r|].
    rewrite <- (app_nil_r s). constructor; [by apply matches_Plus|constructor].
Qed.

Lemma exec_cites text chapter verseStart :
  digits_only verseStart →
  match exec (verse_pattern chapter verseStart) text with
  | Some (index, len) =>
      ∃ pre u rest,
        text = pre ++ u ++ rest ∧ index = length pre ∧ len = length u
        ∧ cites chapter verseStart u rest
        ∧ ∀ pre' u' rest', text = pre' ++ u' ++ rest' → cites chapter verseStart u' rest' →
            length pre ≤ length pre'
  | None => ∀ pre u rest, text = pre ++ u ++ rest → ¬ cites chapter verseStart u rest
  end.
Proof.
  intros Hd. unfold exec.
  destruct (exec_from (verse_pattern chapter verseStart) None text 0) as [[index len]|] eqn:E.
  - apply exec_from_sound in E as (pre & u & rest & -> & -> & -> & Hm & Hleft).
    exists pre, u, rest. split; [done|]. split; [done|]. split; [done|].
    split; [by eapply matches_verse_pattern|].
    intros pre' u' rest' Hs Hc. destruct (decide (length pre' < length pre)); [|lia].
    exfalso. eapply Hleft; [exact Hs|done|]. by apply matches_verse_pattern.
  - intros pre u rest Hs Hc. eapply exec_from_None; [exact E|exact Hs|].
    by apply matches_verse_pattern.
Qed.

Lemma slice_middle (pre u rest : jsstring) s e :
  s ≤ length pre → length pre + length u ≤ e →
  slice s e (pre ++ u ++ rest)
  = drop s pre ++ u ++ take (e - (length pre + length u)) rest
  ∧ slice_from e (pre ++ u ++ rest) = drop (e - (length pre + length u)) rest
  ∧ slice 0 s (pre ++ u ++ rest) = take s pre.
Proof.
  intros Hs He. unfold slice, slice_from. split; [|split].
  - rewrite drop_app_le by done. rewrite take_app_ge by (rewrite length_drop; lia).
    f_equal. rewrite length_drop. rewrite take_app_ge by lia. f_equal. f_equal. lia.
  - rewrite drop_app_ge by lia. rewrite drop_app_ge by lia. f_equal. lia.
  - rewrite drop_0, Nat.sub_0_r. by rewrite take_app_le.
Qed.

Lemma highlightSpans_located text chapter vk :
  text ≠ [] → vk ≠ [] → vk ≠ str "whole" →
  highlightSpans text chapter (Some vk)
  = let verseStart := trim (split_head vk) in
    if bool_decide (verseStart = []) || negb (test_prefix re_all_digits verseStart)
    then Plain text
    else
      match exec (verse_pattern chapter verseStart) text with
      | None => Plain text
      | Some (index, len) =>
          let s := sentence_start text index in
          let e := sentence_end text (index + len) in
          Marked (slice 0 s text) (slice s e text) (slice_from e text)
      end.
Proof.
  intros Htext Hvk Hwhole. unfold highlightSpans.
  destruct text as [|t0 text']; [done|]. destruct vk as [|v0 vk']; [done|].
  by rewrite decide_False.
Qed.

(** X24. A passage is highlighted exactly when the locator starts with a
    verse number and the passage cites that verse: the chapter in Arabic or
    Roman numerals (in either case of the letters), then at least one full
    stop, colon or white space, then the verse number, not followed by a
    letter, a digit or an underscore.  The highlighted part then contains the
    first such citation of the passage. *)
Theorem highlight_iff_cited (text : jsstring) (chapter : N) (vk : jsstring) :
  text ≠ [] → vk ≠ [] → vk ≠ str "whole" →
  let verseStart := trim (split_head vk) in
  (highlightSpans text chapter (Some vk) = Plain text
   ↔ ¬ (digits_only verseStart
        ∧ ∃ pre u rest, text = pre ++ u ++ rest ∧ cites chapter verseStart u rest))
  ∧ (∀ p h s,
       highlightSpans text chapter (Some vk) = Marked p h s →
       digits_only verseStart
       ∧ text = p ++ h ++ s
       ∧ ∃ a u b,
           h = a ++ u ++ b
           ∧ cites chapter verseStart u (b ++ s)
           ∧ ∀ pre' u' rest',
               text = pre' ++ u' ++ rest' → cites chapter verseStart u' rest' →
               length (p ++ a) ≤ length pre').
Proof.
  intros Htext Hvk Hwhole. cbv zeta.
  rewrite (highlightSpans_located text chapter vk Htext Hvk Hwhole). cbv zeta.
  destruct (bool_decide (trim (split_head vk) = [])
            || negb (test_prefix re_all_digits (trim (split_head vk)))) eqn:Hvalid.
  { assert (Hnd : ¬ digits_only (trim (split_head vk))).
    { intros Hd. apply orb_true_iff in Hvalid as [H|H].
      - apply bool_decide_eq_true in H. by destruct Hd.
      - apply negb_true_iff in H. apply test_all_digits in Hd. congruence. }
    split; [|intros p h s; discriminate]. split; [|done]. intros _ [Hd _]. done. }
  assert (Hd : digits_only (trim (split_head vk))).
  { apply orb_false_iff in Hvalid as [_ H]. apply negb_false_iff in H.
    by apply test_all_digits. }
  pose proof (exec_cites text chapter _ Hd) as Hexec.
  destruct (exec (verse_pattern chapter (trim (split_head vk))) text)
    as [[index len]|] eqn:E.
  - destruct Hexec as (pre & u & rest & Hsplit & -> & -> & Hc & Hleft).
    split.
    + split; [done|]. intros Hno. exfalso. apply Hno. split; [done|]. by exists pre, u, rest.
    + intros p h s [= <- <- <-]. split; [done|].
      pose proof (sentence_start_le text (length pre)) as Hs.
      pose proof (sentence_end_ge text (length pre + length u)) as He.
      split; [symmetry; apply slices_concat; lia|].
      destruct (slice_middle pre u rest (sentence_start text (length pre))
                  (sentence_end text (length pre + length u)) Hs He) as (S1 & S2 & S3).
      rewrite <- Hsplit in S1, S2, S3.
      exists (drop (sentence_start text (length pre)) pre), u,
        (take (sentence_end text (length pre + length u) - (length pre + length u)) rest).
      split; [exact S1|]. split.
      * rewrite S2, take_drop. exact Hc.
      * intros pre' u' rest' Hs' Hc'. rewrite S3, take_drop. by eapply Hleft.
  - split; [|intros p h s; discriminate]. split; [|done].
    intros _ (_ & pre & u & rest & Hs & Hc). by eapply Hexec.
Qed.

Lemma highlight_iff_cited_witness :
  digits_only (trim (split_head (str "13-17")))
  ∧ ∃ a u b,
      str "Rom. viii. 13 says ..." = a ++ u ++ b
      ∧ cites 8 (trim (split_head (str "13-17"))) u (b ++ []).
Proof.
  assert (E : highlightSpans (str "... Rom. viii. 13 says ...") 8 (Some (str "13-17"))
              = Marked (str "... ") (str "Rom. viii. 13 says ...") [])
    by (vm_compute; reflexivity).
  destruct (proj2 (highlight_iff_cited (str "... Rom. viii. 13 says ...") 8 (str "13-17")
                     ltac:(discriminate) ltac:(discriminate) ltac:(discriminate))
              _ _ _ E) as (Hd & _ & a & u & b & Hh & Hc & _).
  split; [exact Hd|]. by exists a, u, b.
Defined.

Lemma strip_closers t : strip_prefix re_closers t = after_run is_closer t.
Proof.
  unfold strip_prefix, match_here, re_closers. cbn [rematch].
  rewrite (star_match_greedy is_closer None t (λ rest, length t - length rest)).
  assert (E : length t - length (after_run is_closer t) = length (run is_closer t)).
  { rewrite <- (run_after_run is_closer t) at 1. rewrite length_app. lia. }
  rewrite E. rewrite <- (run_after_run is_closer t) at 2. apply drop_app_length.
Qed.

Lemma test_blank t : test_prefix re_blank t = true ↔ Forall (λ x, is_space x = true) t.
Proof.
  rewrite test_prefix_matches. unfold re_blank. split.
  - intros (u & rest & -> & (d & e & -> & Hd & He)%matches_Seq_inv).
    apply matches_Eol_inv in He as [-> ->]. apply matches_Star_inv in Hd.
    by rewrite !app_nil_r.
  - intros Ht. exists t, []. split; [by rewrite app_nil_r|].
    rewrite <- (app_nil_r t). constructor; by constructor.
Qed.

Lemma scan_fwd_paragraph text e :
  bool_decide (text !! e = Some NL) && (e + 1 <? length text)
  && bool_decide (text !! (e + 1) = Some NL) = true
  ↔ paragraph_ahead text e.
Proof.
  unfold paragraph_ahead. rewrite !andb_true_iff, !bool_decide_eq_true, Nat.ltb_lt.
  split; [tauto|]. intros [H1 H2]. split; [|done]. split; [done|].
  by apply lookup_lt_Some in H2.
Qed.

Lemma scan_fwd_stop text e :
  from_option is_stop false (text !! e)
  && (let rest := strip_prefix re_closers (slice_from (e + 1) text) in
      bool_decide (rest = []) || test_prefix re_sentence_follows rest
      || test_prefix re_blank rest) = true
  ↔ sentence_stop text e.
Proof.
  unfold sentence_stop, slice_from. cbv zeta. rewrite strip_closers.
  generalize (after_run is_closer (drop (e + 1) text)). intros rest.
  rewrite andb_true_iff, !orb_true_iff, bool_decide_eq_true, test_sentence_follows,
    test_blank.
  split.
  - intros [Hc Hr]. split.
    + destruct (text !! e) as [c|]; [|done]. by exists c.
    + destruct Hr as [[-> |Hr]|Hr]; [by right|by left|by right].
  - intros [(c & -> & Hc) Hr]. split; [done|]. tauto.
Qed.

Lemma scan_fwd_spec gap text e :
  gap = length text - e → e ≤ length text →
  (scan_fwd gap text e = length text
   ∧ ∀ j, e ≤ j < length text → ¬ paragraph_ahead text j ∧ ¬ sentence_stop text j)
  ∨ (∃ j, e ≤ j < length text
       ∧ (∀ i, e ≤ i < j → ¬ paragraph_ahead text i ∧ ¬ sentence_stop text i)
       ∧ ((paragraph_ahead text j ∧ scan_fwd gap text e = j + 2)
          ∨ (¬ paragraph_ahead text j ∧ sentence_stop text j
             ∧ scan_fwd gap text e = j + 1))).
Proof.
  revert e. induction gap as [|gap IH]; intros e Hgap He.
  - left. cbn [scan_fwd]. split; [lia|]. intros j Hj. lia.
  - cbn [scan_fwd]. cbv zeta.
    pose proof (scan_fwd_paragraph text e) as Hp.
    pose proof (scan_fwd_stop text e) as Hs. cbv zeta in Hs.
    destruct (bool_decide (text !! e = Some NL) && (e + 1 <? length text)
              && bool_decide (text !! (e + 1) = Some NL)) eqn:Ep.
    { right. exists e. split; [lia|]. split; [intros i Hi; lia|]. left.
      split; [by apply Hp|done]. }
    assert (Hnp : ¬ paragraph_ahead text e) by (intros H%Hp; done).
    destruct (from_option is_stop false (text !! e)
              && (bool_decide (strip_prefix re_closers (slice_from (e + 1) text) = [])
                  || test_prefix re_sentence_follows
                       (strip_prefix re_closers (slice_from (e + 1) text))
                  || test_prefix re_blank
                       (strip_prefix re_closers (slice_from (e + 1) text)))) eqn:Es.
    { right. exists e. split; [lia|]. split; [intros i Hi; lia|]. right.
      split; [done|]. split; [by apply Hs|done]. }
    assert (Hns : ¬ sentence_stop text e) by (intros H%Hs; done).
    destruct (IH (e + 1)) as [[Hr Hall]|(j & Hj & Hall & Hr)]; [lia|lia| |].
    + left. split; [done|]. intros j Hj.
      destruct (decide (j = e)) as [->|]; [done|]. apply Hall. lia.
    + right. exists j. split; [lia|]. split; [|done]. intros i Hi.
      destruct (decide (i = e)) as [->|]; [done|]. apply Hall. lia.
Qed.

Lemma scan_fwd_le text e : e ≤ length text → sentence_end text e ≤ length text.
Proof.
  intros He. unfold sentence_end.
  destruct (scan_fwd_spec (length text - e) text e eq_refl He)
    as [[-> _]|(j & Hj & _ & [[[_ Hp] ->]|(_ & _ & ->)])]; [done| |lia].
  apply lookup_lt_Some in Hp. lia.
Qed.

(** X25. The highlighted part ends after the first code unit, from the end of
    the matched citation on, that is a newline followed by a newline (the
    two newlines are then highlighted), or that is a full stop, an
    exclamation or a question mark which, once the closing quotes and
    brackets next to it are skipped, is followed by white space and an upper
    case letter or opening quote or bracket, or by white space only up to the
    end of the text; without such a code unit it ends with the text. *)
Theorem sentence_end_spec (text : jsstring) (chapter : N) (verseKey : option jsstring)
    (prefix highlighted suffix : jsstring) :
  highlightSpans text chapter verseKey = Marked prefix highlighted suffix →
  ∃ vk index len,
    verseKey = Some vk
    ∧ exec (verse_pattern chapter (trim (split_head vk))) text = Some (index, len)
    ∧ let e0 := index + len in
      let e := length (prefix ++ highlighted) in
      prefix ++ highlighted = take e text
      ∧ suffix = drop e text
      ∧ e0 ≤ e ≤ length text
      ∧ ((e = length text
          ∧ ∀ j, e0 ≤ j < length text →
                 ¬ paragraph_ahead text j ∧ ¬ sentence_stop text j)
         ∨ (∃ j, e0 ≤ j < length text
              ∧ (∀ i, e0 ≤ i < j → ¬ paragraph_ahead text i ∧ ¬ sentence_stop text i)
              ∧ ((paragraph_ahead text j ∧ e = j + 2)
                 ∨ (¬ paragraph_ahead text j ∧ sentence_stop text j ∧ e = j + 1)))).
Proof.
  intros H.
  apply highlightSpans_Marked in H
    as (vk & index & len & -> & _ & _ & _ & He & -> & -> & ->).
  exists vk, index, len. split; [done|]. split; [done|]. cbv zeta.
  pose proof (exec_bounds _ _ _ _ He) as [_ Hend].
  pose proof (sentence_start_le text index) as Hs.
  pose proof (sentence_end_ge text (index + len)) as Hge.
  pose proof (scan_fwd_le text (index + len) Hend) as Hle.
  set (s := sentence_start text index) in *.
  assert (Htake : slice 0 s text ++ slice s (sentence_end text (index + len)) text
                  = take (sentence_end text (index + len)) text).
  { unfold slice. rewrite drop_0, Nat.sub_0_r.
    rewrite <- (take_drop s (take (sentence_end text (index + len)) text)).
    rewrite take_take, skipn_firstn_comm. f_equal. f_equal. lia. }
  assert (Hlen : length (slice 0 s text ++ slice s (sentence_end text (index + len)) text)
                 = sentence_end text (index + len)).
  { rewrite Htake, length_take. lia. }
  rewrite Hlen. split; [done|]. split; [done|]. split; [lia|].
  unfold sentence_end. by apply scan_fwd_spec.
Qed.

(** A passage whose sentence ends with a closing bracket after the stop. *)
Lemma sentence_end_spec_witness :
  ∃ vk index len,
    Some (str "13") = Some vk
    ∧ exec (verse_pattern 8%N (trim (split_head vk))) (str "Foo. (See Rom. 8:13 now.) Next.")
      = Some (index, len).
Proof.
  destruct (sentence_end_spec (str "Foo. (See Rom. 8:13 now.) Next.") 8%N (Some (str "13"))
              (str "Foo. ") (str "(See Rom. 8:13 now.") (str ") Next.") eq_refl)
    as (vk & index & len & H1 & H2 & _).
  exists vk, index, len. split; [exact H1|exact H2].
Defined.

(** ** Category colours *)

Lemma foldl_insert_notin {V} (l : list (jsstring * V)) (m : gmap jsstring V) k :
  k ∉ l.*1 → foldl (λ m p, <[p.1 := p.2]> m) m l !! k = m !! k.
Proof.
  revert m. induction l as [|p l IH]; intros m Hk; cbn [foldl]; [done|].
  rewrite fmap_cons, not_elem_of_cons in Hk. destruct Hk as [Hne Hk].
  rewrite IH by done. by rewrite lookup_insert_ne.
Qed.

Lemma foldl_insert_elem {V} (l : list (jsstring * V)) (m : gmap jsstring V) k v :
  NoDup l.*1 → (k, v) ∈ l → foldl (λ m p, <[p.1 := p.2]> m) m l !! k = Some v.
Proof.
  revert m. induction l as [|p l IH]; intros m Hnd Hin; cbn [foldl].
  { by apply elem_of_nil in Hin. }
  rewrite fmap_cons in Hnd. apply NoDup_cons in Hnd as [Hp Hnd].
  apply elem_of_cons in Hin as [<-|Hin].
  - rewrite foldl_insert_notin by done. cbn. by rewrite lookup_insert_eq.
  - by apply IH.
Qed.

Lemma foldl_insert_Some {V} (l : list (jsstring * V)) (m : gmap jsstring V) k v :
  foldl (λ m p, <[p.1 := p.2]> m) m l !! k = Some v → m !! k = Some v ∨ (k, v) ∈ l.
Proof.
  revert m. induction l as [|p l IH]; intros m; cbn [foldl]; [by left|].
  intros [H|H]%IH.
  - destruct (decide (p.1 = k)) as [E|E].
    + destruct p as [k' v']. cbn in E, H. subst k'.
      rewrite lookup_insert_eq in H. injection H as <-. right. left.
    + rewrite lookup_insert_ne in H by done. by left.
  - right. by right.
Qed.

Lemma imap_keys {B} (g : nat → B) (l : list jsstring) : (imap (λ i c, (c, g i)) l).*1 = l.
Proof.
  rewrite fmap_imap. rewrite (imap_ext _ (const id)) by done.
  rewrite imap_const. apply list_fmap_id.
Qed.

Lemma palette_map_lookup (cats : list jsstring) i c :
  NoDup cats → cats !! i = Some c →
  palette_map cats !! c = Some (default [] (CAT_PALETTE !! (i mod length CAT_PALETTE))).
Proof.
  intros Hnd Hi. unfold palette_map. apply foldl_insert_elem.
  - by rewrite imap_keys.
  - by apply (elem_of_lookup_imap_2
                (λ i c, (c, default [] (CAT_PALETTE !! (i mod length CAT_PALETTE))))).
Qed.

Lemma palette_map_Some (cats : list jsstring) c col :
  palette_map cats !! c = Some col → c ∈ cats ∧ col ∈ CAT_PALETTE.
Proof.
  unfold palette_map. intros [H|H]%foldl_insert_Some; [by rewrite lookup_empty in H|].
  apply elem_of_lookup_imap_1 in H as (i & y & Heq & Hy).
  pose proof (f_equal fst Heq) as H1. pose proof (f_equal snd Heq) as H2.
  cbn [fst snd] in H1, H2. clear Heq. subst c col. split.
  - by eapply list_elem_of_lookup_2.
  - assert (Hlt : i mod length CAT_PALETTE < length CAT_PALETTE)
      by (apply Nat.mod_upper_bound; cbn; lia).
    apply lookup_lt_is_Some in Hlt as [col Hcol]. rewrite Hcol. cbn.
    by eapply list_elem_of_lookup_2.
Qed.

Lemma palette_at_inj i j :
  default [] (CAT_PALETTE !! (i mod length CAT_PALETTE))
  = default ([] : jsstring) (CAT_PALETTE !! (j mod length CAT_PALETTE))
  ↔ i mod length CAT_PALETTE = j mod length CAT_PALETTE.
Proof.
  split; [|by intros ->].
  assert (Hi : i mod length CAT_PALETTE < length CAT_PALETTE)
    by (apply Nat.mod_upper_bound; cbn; lia).
  assert (Hj : j mod length CAT_PALETTE < length CAT_PALETTE)
    by (apply Nat.mod_upper_bound; cbn; lia).
  apply lookup_lt_is_Some in Hi as [a Ha]. apply lookup_lt_is_Some in Hj as [b Hb].
  rewrite Ha, Hb. cbn. intros ->.
  eapply NoDup_lookup; [|exact Ha|exact Hb].
  apply (bool_decide_unpack (NoDup CAT_PALETTE)). by vm_compute.
Qed.

Lemma getCatColors_first (works : list Work) c :
  (getCatColors works None).1 !! c
  = match indexOf c (sorted_set (category_or_other <$> works)) with
    | Some i => CAT_PALETTE !! (i mod length CAT_PALETTE)
    | None => None
    end.
Proof.
  cbn [getCatColors fst]. set (cats := sorted_set (category_or_other <$> works)).
  destruct (sorted_set_spec (category_or_other <$> works)) as (_ & Hnd & _).
  fold cats in Hnd. unfold indexOf.
  destruct (list_find (λ x, x = c) cats) as [[i x]|] eqn:E; cbn.
  - apply list_find_Some in E as (Hi & -> & _).
    rewrite (palette_map_lookup cats i c Hnd Hi).
    assert (Hlt : i mod length CAT_PALETTE < length CAT_PALETTE)
      by (apply Nat.mod_upper_bound; cbn; lia).
    apply lookup_lt_is_Some in Hlt as [col Hcol]. by rewrite Hcol.
  - destruct (palette_map cats !! c) as [col|] eqn:Hm; [|done].
    apply palette_map_Some in Hm as [Hc _].
    rewrite list_find_None, Forall_forall in E. by destruct (E c Hc).
Qed.

Lemma indexOf_Some c (l : list jsstring) i :
  indexOf c l = Some i ↔ l !! i = Some c ∧ ∀ j, j < i → l !! j ≠ Some c.
Proof.
  unfold indexOf. split.
  - destruct (list_find (λ x, x = c) l) as [[i' x]|] eqn:E; [|done]. cbn. intros [= ->].
    apply list_find_Some in E as (Hi & -> & Hfirst). split; [done|].
    intros j Hj Hc. by eapply Hfirst.
  - intros [Hi Hfirst].
    assert (E : list_find (λ x, x = c) l = Some (i, c)); [|by rewrite E].
    apply list_find_Some. split; [done|]. split; [done|].
    intros j y Hy Hj ->. by eapply Hfirst.
Qed.

Lemma indexOf_elem c (l : list jsstring) : c ∈ l → ∃ i, indexOf c l = Some i.
Proof.
  intros Hc. unfold indexOf.
  destruct (list_find_elem_of (λ x, x = c) l c Hc eq_refl) as [[i x] E].
  exists i. by rewrite E.
Qed.

Lemma indexOf_NoDup c (l : list jsstring) i :
  NoDup l → (indexOf c l = Some i ↔ l !! i = Some c).
Proof.
  intros Hnd. rewrite indexOf_Some. split; [by intros [? _]|].
  intros Hi. split; [done|]. intros j Hj Hc.
  pose proof (NoDup_lookup l i j c Hnd Hi Hc). lia.
Qed.

Lemma palette_nonempty col : col ∈ CAT_PALETTE → col ≠ [].
Proof.
  intros H ->. revert H. unfold CAT_PALETTE.
  rewrite !elem_of_cons, elem_of_nil. intros H.
  repeat (destruct H as [H|H]; [discriminate H|]). done.
Qed.

(** X26. The colour map gives the categories of the index, taken in
    ascending order, the colours of the palette in turn, starting again
    after the eighth: every category of a work has a colour of the palette,
    nothing else has one, two categories share a colour exactly when their
    ranks differ by a multiple of 8, so that up to eight categories have
    eight different colours; and the map of the first call is the one every
    later call returns, whatever the index is then. *)
Theorem getCatColors_by_rank (works : list Work) :
  let cats := sorted_set (category_or_other <$> works) in
  let colors := (getCatColors works None).1 in
  StronglySorted str_lt cats
  ∧ (∀ c, c ∈ cats ↔ ∃ w, w ∈ works ∧ category_or_other w = c)
  ∧ (∀ c, is_Some (colors !! c) ↔ c ∈ cats)
  ∧ (∀ i c, cats !! i = Some c →
            colors !! c = CAT_PALETTE !! (i mod length CAT_PALETTE)
            ∧ is_Some (colors !! c))
  ∧ (∀ i j c d, cats !! i = Some c → cats !! j = Some d →
                (colors !! c = colors !! d ↔ i mod 8 = j mod 8))
  ∧ (length cats ≤ 8 →
     ∀ c d col, colors !! c = Some col → colors !! d = Some col → c = d)
  ∧ (∀ works', getCatColors works' (getCatColors works None).2
               = (colors, (getCatColors works None).2)).
Proof.
  intros cats colors.
  destruct (sorted_set_spec (category_or_other <$> works)) as (Hs & Hnd & Hin).
  fold cats in Hs, Hnd, Hin.
  assert (Hrank : ∀ i c, cats !! i = Some c →
            colors !! c = CAT_PALETTE !! (i mod length CAT_PALETTE)
            ∧ is_Some (colors !! c)).
  { intros i c Hi. unfold colors. rewrite getCatColors_first. fold cats.
    apply (indexOf_NoDup c cats i Hnd) in Hi as ->. split; [done|].
    apply lookup_lt_is_Some. apply Nat.mod_upper_bound. cbn. lia. }
  assert (Hdom : ∀ c, is_Some (colors !! c) ↔ c ∈ cats).
  { intros c. split.
    - intros [col Hc]. unfold colors in Hc. cbn [getCatColors fst] in Hc.
      by apply palette_map_Some in Hc as [? _].
    - intros (i & Hi)%list_elem_of_lookup_1. by apply (Hrank i c). }
  assert (Heq : ∀ i j c d, cats !! i = Some c → cats !! j = Some d →
            (colors !! c = colors !! d ↔ i mod 8 = j mod 8)).
  { intros i j c d Hi Hj.
    destruct (Hrank i c Hi) as [-> _]. destruct (Hrank j d Hj) as [-> _].
    change 8 with (length CAT_PALETTE). rewrite <- palette_at_inj.
    assert (Hi' : i mod length CAT_PALETTE < length CAT_PALETTE)
      by (apply Nat.mod_upper_bound; cbn; lia).
    assert (Hj' : j mod length CAT_PALETTE < length CAT_PALETTE)
      by (apply Nat.mod_upper_bound; cbn; lia).
    apply lookup_lt_is_Some in Hi' as [a Ha]. apply lookup_lt_is_Some in Hj' as [b Hb].
    rewrite Ha, Hb. cbn. split; [by intros [= ->]|by intros ->]. }
  split; [done|]. split.
  { intros c. rewrite Hin, list_elem_of_fmap. split.
    - intros (w & -> & Hw). by exists w.
    - intros (w & Hw & <-). by exists w. }
  split; [done|]. split; [done|]. split; [done|]. split; [|done].
  intros Hlen c d col Hc Hd.
  assert (Hc' : c ∈ cats) by (apply Hdom; by exists col).
  assert (Hd' : d ∈ cats) by (apply Hdom; by exists col).
  apply list_elem_of_lookup_1 in Hc' as [i Hi]. apply list_elem_of_lookup_1 in Hd' as [j Hj].
  pose proof (lookup_lt_Some _ _ _ Hi) as Hil. pose proof (lookup_lt_Some _ _ _ Hj) as Hjl.
  assert (E : i mod 8 = j mod 8) by (apply (Heq i j c d Hi Hj); by rewrite Hc, Hd).
  rewrite !Nat.mod_small in E by lia. subst j. rewrite Hi in Hj. by injection Hj.
Qed.

Lemma getCatColors_by_rank_witness :
  length (sorted_set (category_or_other <$> sample_color_works)) ≤ 8
  ∧ ∀ c d col,
      (getCatColors sample_color_works None).1 !! c = Some col →
      (getCatColors sample_color_works None).1 !! d = Some col → c = d.
Proof.
  assert (H : length (sorted_set (category_or_other <$> sample_color_works)) ≤ 8)
    by (vm_compute; lia).
  split; [exact H|].
  exact (proj1 (proj2 (proj2 (proj2 (proj2 (proj2
           (getCatColors_by_rank sample_color_works)))))) H).
Defined.

(** ** Timeline *)

Lemma year_gt_dated (a b : Work) :
  is_Some (w_year a) → is_Some (w_year b) →
  year_gt a b = bool_decide (default 0 (w_year b) < default 0 (w_year a))%Z.
Proof.
  intros [x Hx] [y Hy]. unfold year_gt. rewrite Hx, Hy. cbn.
  case_bool_decide; [apply Z.ltb_lt|apply Z.ltb_ge]; lia.
Qed.

Lemma sort_insert_year_filter y x l :
  is_Some (w_year x) → Forall (λ w, is_Some (w_year w)) l →
  filter (λ w, w_year w = Some y) (sort_insert year_gt x l)
  = filter (λ w, w_year w = Some y) (x :: l).
Proof.
  intros Hx Hl. induction Hl as [|z l Hz Hl IH]; [done|]. cbn [sort_insert].
  destruct (year_gt x z) eqn:E; [|done].
  rewrite (year_gt_dated x z Hx Hz) in E. apply bool_decide_eq_true in E.
  destruct Hx as [vx Hx]. destruct Hz as [vz Hz]. rewrite Hx, Hz in E. cbn in E.
  rewrite (filter_cons _ z), IH, (filter_cons _ x), (filter_cons _ x), (filter_cons _ z).
  destruct (decide (w_year z = Some y)) as [Ez|Ez]; [|done].
  destruct (decide (w_year x = Some y)) as [Ex|Ex]; [|done].
  exfalso. rewrite Hx in Ex. rewrite Hz in Ez. injection Ex as ->. injection Ez as ->. lia.
Qed.

Lemma array_sort_year_filter y l :
  Forall (λ w, is_Some (w_year w)) l →
  filter (λ w, w_year w = Some y) (array_sort year_gt l) = filter (λ w, w_year w = Some y) l.
Proof.
  induction 1 as [|x l Hx Hl IH]; [done|]. cbn [array_sort foldr].
  change (foldr (sort_insert year_gt) [] l) with (array_sort year_gt l).
  rewrite sort_insert_year_filter; [|done|by rewrite array_sort_Permutation].
  by rewrite !(filter_cons _ x), IH.
Qed.

Lemma renderWorksTimeline_dots works cats withYear unknown :
  renderWorksTimeline works cats = TimelineChart withYear unknown →
  withYear = array_sort year_gt (filter (λ w, has_year w && in_cats cats w) works).
Proof.
  unfold renderWorksTimeline. cbv zeta.
  destruct (array_sort year_gt (filter (λ w, has_year w && in_cats cats w) works));
    destruct (filter (λ w, negb (has_year w) && in_cats cats w) works);
    [done|by intros [= <- _]..].
Qed.

(** X27. The timeline has one circle for each work of the index that has a
    year and a checked category: the circles come in ascending order of the
    years, works of one year in the order of the index; the lanes are the
    categories of these works in ascending order, each once; every circle
    is in the lane of its category and has the colour the colour map gives
    that category, never the fallback. *)
Theorem timeline_dots_spec (works : list Work) (cats : gset jsstring)
    (withYear : list Work) (unknown : option nat) :
  renderWorksTimeline works cats = TimelineChart withYear unknown →
  let dated := filter (λ w, has_year w && in_cats cats w) works in
  let catList := timeline_catList withYear in
  let colors := (getCatColors works None).1 in
  let dots := timeline_dots colors withYear in
  withYear ≡ₚ dated
  ∧ (∀ i j a b, i < j → withYear !! i = Some a → withYear !! j = Some b → year_le a b)
  ∧ (∀ y, filter (λ w, w_year w = Some y) withYear
          = filter (λ w, w_year w = Some y) dated)
  ∧ StronglySorted str_lt catList
  ∧ (∀ c, c ∈ catList ↔ ∃ w, w ∈ withYear ∧ category_or_other w = c)
  ∧ td_work <$> dots = withYear
  ∧ (∀ d, d ∈ dots →
          (∃ i, td_catIdx d = Some i
                ∧ catList !! i = Some (category_or_other (td_work d)))
          ∧ colors !! category_or_other (td_work d) = Some (td_col d)).
Proof.
  intros H dated catList colors dots.
  apply renderWorksTimeline_dots in H. fold dated in H.
  assert (Hperm : withYear ≡ₚ dated) by (rewrite H; apply array_sort_Permutation).
  assert (Hdated : Forall (λ w, is_Some (w_year w)) dated).
  { apply Forall_forall. intros w Hw. unfold dated in Hw.
    apply list_elem_of_filter in Hw as [Hw _]. apply andb_prop_elim in Hw as [Hw _].
    unfold has_year in Hw. by apply bool_decide_unpack in Hw. }
  assert (Hdated' : Forall (λ w, is_Some (w_year w)) withYear) by by rewrite Hperm.
  destruct (sorted_set_spec (category_or_other <$> withYear)) as (Hs & Hnd & Hin).
  fold (timeline_catList withYear) in Hs, Hnd, Hin. fold catList in Hs, Hnd, Hin.
  split; [done|]. split.
  { intros i j a b Hij Ha Hb.
    assert (Hsorted : StronglySorted
              (λ a b, default 0 (w_year a) ≤ default 0 (w_year b))%Z withYear).
    { rewrite H. apply array_sort_sorted. intros x y Hx Hy.
      rewrite Forall_forall in Hdated. apply year_gt_dated; by apply Hdated. }
    pose proof (StronglySorted_lookup _ _ _ _ _ _ Hsorted Hij Ha Hb) as Hle.
    rewrite Forall_forall in Hdated'.
    destruct (Hdated' a) as [x Hx]; [by eapply list_elem_of_lookup_2|].
    destruct (Hdated' b) as [y Hy]; [by eapply list_elem_of_lookup_2|].
    cbv beta in Hle. rewrite Hx, Hy in Hle. unfold year_le. rewrite Hx, Hy.
    exact Hle. }
  split.
  { intros y. rewrite H. by apply array_sort_year_filter. }
  split; [done|]. split.
  { intros c. rewrite Hin, list_elem_of_fmap. split.
    - intros (w & -> & Hw). by exists w.
    - intros (w & Hw & <-). by exists w. }
  split.
  { unfold dots, timeline_dots. cbv zeta. rewrite <- list_fmap_compose.
    etransitivity; [|apply list_fmap_id]. by apply list_fmap_ext. }
  intros d Hd. unfold dots, timeline_dots in Hd. cbv zeta in Hd.
  apply list_elem_of_fmap in Hd as (w & -> & Hw). cbn [td_work td_catIdx td_col].
  fold catList. split.
  - assert (Hc : category_or_other w ∈ catList).
    { apply Hin. by apply list_elem_of_fmap_2. }
    destruct (indexOf_elem _ _ Hc) as [i Hi]. exists i. split; [done|].
    by apply indexOf_Some in Hi as [? _].
  - assert (Hw' : w ∈ works).
    { rewrite Hperm in Hw. unfold dated in Hw. by apply list_elem_of_filter in Hw as [_ ?]. }
    destruct (sorted_set_spec (category_or_other <$> works)) as (_ & _ & Hin').
    assert (Hc : category_or_other w ∈ sorted_set (category_or_other <$> works)).
    { apply Hin'. by apply list_elem_of_fmap_2. }
    apply list_elem_of_lookup_1 in Hc as [i Hi].
    destruct (sorted_set_spec (category_or_other <$> works)) as (_ & Hnd' & _).
    pose proof (palette_map_lookup _ i _ Hnd' Hi) as Hcol.
    unfold colors, color_or. cbn [getCatColors fst]. rewrite Hcol.
    destruct (palette_map_Some _ _ _ Hcol) as [_ Hpal].
    apply palette_nonempty in Hpal.
    by destruct (default [] (CAT_PALETTE !! (i mod length CAT_PALETTE))).
Qed.

Lemma timeline_dots_spec_witness :
  array_sort year_gt (filter (λ w, has_year w && in_cats {[ str "Latin"; str "Greek" ]} w)
                        sample_color_works)
  ≡ₚ filter (λ w, has_year w && in_cats {[ str "Latin"; str "Greek" ]} w)
       sample_color_works.
Proof.
  exact (proj1 (timeline_dots_spec sample_color_works {[ str "Latin"; str "Greek" ]}
                  (array_sort year_gt
                     (filter (λ w, has_year w && in_cats {[ str "Latin"; str "Greek" ]} w)
                        sample_color_works))
                  None eq_refl)).
Defined.

(** ** Start-up *)

Lemma initial_categories (works : list Work) c :
  c ∈ checkedCategories (renderCategoryFilters works)
  ↔ ∃ w, w ∈ works ∧ category_or_other w = c.
Proof.
  unfold renderCategoryFilters.
  destruct (sorted_set_spec (category_or_other <$> works)) as (_ & _ & Hin).
  rewrite checkedCategories_spec, list_elem_of_fmap. split.
  - intros (c' & Hc & Hc'). injection Hc as ->.
    apply Hin, list_elem_of_fmap in Hc' as (w & -> & Hw). by exists w.
  - intros (w & Hw & <-). exists (category_or_other w). split; [done|].
    apply Hin, list_elem_of_fmap. by exists w.
Qed.

Lemma initial_categories_size (works : list Work) :
  (size (checkedCategories (renderCategoryFilters works)) =? 0) = bool_decide (works = []).
Proof.
  case_bool_decide as Hw.
  - subst works. by vm_compute.
  - apply Nat.eqb_neq. intros Hz. apply size_empty_iff in Hz.
    destruct works as [|w works]; [done|].
    assert (H : category_or_other w ∈ checkedCategories (renderCategoryFilters (w :: works))).
    { apply initial_categories. exists w. split; [left|done]. }
    destruct (Hz (category_or_other w)) as [Hz1 _]. apply Hz1 in H.
    by apply elem_of_empty in H.
Qed.

Lemma worksById_of_resolves (works : list Work) w :
  w ∈ works → ∃ w', worksById_of works !! w_id w = Some w' ∧ w' ∈ works ∧ w_id w' = w_id w.
Proof.
  intros Hw.
  assert (G : ∀ (ws : list Work) (m : gmap Z Work),
            is_Some (m !! w_id w) ∨ w ∈ ws →
            is_Some (foldl (λ m w, <[w_id w := w]> m) m ws !! w_id w)).
  { induction ws as [|x ws IH]; intros m H; cbn [foldl].
    - destruct H as [H|H]; [done|by apply elem_of_nil in H].
    - apply IH. destruct (decide (w_id x = w_id w)) as [E|E].
      + left. rewrite E, lookup_insert_eq. by eexists.
      + rewrite lookup_insert_ne by done. destruct H as [H|H]; [by left|].
        apply elem_of_cons in H as [->|H]; [done|by right]. }
  destruct (G works ∅) as [w' Hw']; [by right|]. exists w'. split; [exact Hw'|].
  by apply worksById_of_elem in Hw'.
Qed.

Section InitFacts.
Variable toLowerCase : jsstring → jsstring.
Context {P : Type}.

Lemma initial_worksList (works : list Work) :
  toLowerCase [] = [] →
  let l := renderWorksList toLowerCase works
             (checkedCategories (renderCategoryFilters works)) None [] in
  wb_work <$> l = works ∧ Forall (λ b, wb_active b = false) l.
Proof.
  intros Hlow. cbv zeta. unfold renderWorksList. rewrite Hlow.
  rewrite bool_decide_eq_true_2 by done. cbn [negb andb].
  assert (G : ∀ ws, (∀ w, w ∈ ws → w ∈ works) →
            let l := omap (λ work,
                       if negb (size (checkedCategories (renderCategoryFilters works)) =? 0)
                          && negb (in_cats (checkedCategories (renderCategoryFilters works))
                                     work)
                       then None
                       else Some {| wb_work := work;
                                    wb_active := bool_decide (None = Some (w_id work)) |})
                       ws in
            wb_work <$> l = ws ∧ Forall (λ b, wb_active b = false) l).
  { induction ws as [|w ws IH]; intros Hsub; cbv zeta; [by split|].
    cbn [omap list_omap].
    assert (Hin : in_cats (checkedCategories (renderCategoryFilters works)) w = true).
    { apply bool_decide_eq_true, initial_categories. exists w.
      split; [apply Hsub; left|done]. }
    rewrite Hin, andb_false_r.
    destruct IH as [IH1 IH2]; [intros x Hx; apply Hsub; by right|].
    split.
    - rewrite fmap_cons. cbn [wb_work]. by rewrite IH1.
    - constructor; [done|exact IH2]. }
  by apply G.
Qed.

(** X28. When the index cannot be fetched [init] stops at the notice.  When
    it is there, the page opens on the charts: the chart pane is the one
    pane shown and the sidebar is hidden, the mode is the visualisation
    mode, the charts carry the version 1; every category of the index has a
    checked box, so every work is in the list of works (none marked active)
    and every work of the index is found by its id; the one fetch of the
    passages is under way.  An index without works has no box to check, and
    the chart pane then shows the notice that no category is selected instead
    of the five charts. *)
Theorem init_opening_screen (works : list Work) (books : list Book) (p : Panels) :
  toLowerCase [] = [] →
  init (P := P) toLowerCase None p = CouldNotLoadIndex
  ∧ ∃ s, init (P := P) toLowerCase (Some (works, books)) p = InitDone s
    ∧ visible_panes (panels (su_ui s)) = [VizView]
    ∧ sidebarEl_hidden (panels (su_ui s)) = true
    ∧ activeMode (ui_app (su_ui s)) = ModeViz
    ∧ vizVersion (ui_app (su_ui s)) = 1
    ∧ (works = [] → vizView (ui_app (su_ui s)) = [NoCategoriesSelected])
    ∧ (works ≠ [] →
       ∃ t r, vizView (ui_app (su_ui s))
              = [BibleCoverage; MostReferencedBooks; WorksByDate t;
                 BibleRefsByDate 1 r; CorpusByCategory])
    ∧ Forall (λ cb, cb.2 = true) (su_categoryFilters s)
    ∧ (∀ c, c ∈ (su_categoryFilters s).*1 ↔ ∃ w, w ∈ works ∧ category_or_other w = c)
    ∧ wb_work <$> su_worksList s = works
    ∧ Forall (λ b, wb_active b = false) (su_worksList s)
    ∧ (∀ w, w ∈ works →
            ∃ w', su_worksById s !! w_id w = Some w' ∧ w' ∈ works ∧ w_id w' = w_id w)
    ∧ su_passages_fetched s = true
    ∧ su_passages s = {| data := None; loadPromise := Some Pending |}.
Proof.
  intros Hlow. split; [done|]. eexists. split; [reflexivity|].
  cbn [su_ui su_categoryFilters su_worksList su_worksById su_passages su_passages_fetched].
  set (cats := checkedCategories (renderCategoryFilters works)).
  destruct (setMode_spec works cats ModeViz (initial_ui p))
    as (Hmode & _ & _ & _ & _ & Hpanes & Hside & _ & _).
  cbv zeta in Hmode, Hpanes, Hside.
  assert (Hviz : ui_app (setMode works cats ModeViz (initial_ui p))
                 = renderVizTab works cats (set_activeMode ModeViz initial)) by done.
  pose proof (initial_categories_size works) as Hsize. fold cats in Hsize.
  split; [exact Hpanes|]. split; [exact Hside|]. split; [exact Hmode|].
  rewrite Hviz. unfold renderVizTab. rewrite Hsize.
  split; [by case_bool_decide|]. split.
  { intros ->. by rewrite bool_decide_eq_true_2. }
  split.
  { intros Hne. rewrite bool_decide_eq_false_2 by done. by eexists _, _. }
  split.
  { unfold renderCategoryFilters. by apply Forall_fmap, Forall_forall. }
  split.
  { intros c. unfold renderCategoryFilters. rewrite <- list_fmap_compose.
    destruct (sorted_set_spec (category_or_other <$> works)) as (_ & _ & Hin).
    assert (E : ∀ l : list jsstring, (fst ∘ (λ cat, (cat, true))) <$> l = l).
    { induction l as [|x l IH]; [done|]. rewrite fmap_cons. cbn. by rewrite IH. }
    rewrite E, Hin, list_elem_of_fmap. split.
    - intros (w & -> & Hw). by exists w.
    - intros (w & Hw & <-). by exists w. }
  destruct (initial_worksList works Hlow) as [Hl1 Hl2].
  split; [exact Hl1|]. split; [exact Hl2|].
  split; [apply worksById_of_resolves|]. by split.
Qed.
End InitFacts.

Lemma init_opening_screen_witness :
  ∃ s : Startup unit,
    init (λ t, t) (Some (sample_color_works, sample_books)) (panels sample_ui) = InitDone s
    ∧ visible_panes (panels (su_ui s)) = [VizView].
Proof.
  destruct (proj2 (init_opening_screen (P := unit) (λ t, t) sample_color_works sample_books
                     (panels sample_ui) eq_refl))
    as (s & H1 & H2 & _).
  exists s. split; [exact H1|exact H2].
Defined.
